(** * smart_document_analyser: text-level algorithms of the analysis pipeline

    A shallow embedding of [src/modules/math_extractor.py],
    [src/modules/ner_processor.py] and [src/modules/summarizer.py], of
    [preserve_inline_math] of [src/modules/pdf_processor.py] and of the
    [/health] and [/analyze] handlers of [src/main.py], and the properties
    of their operations.

    - A Python [str] is a list of Unicode code points ([pystr]).
    - Python [int]s are [Z]; slices follow Python's clamping rules.
    - The [re] calls are run by a backtracking matcher ([Module Re]) with
      Python's leftmost, greedy/lazy, first-alternative-first semantics.
    - The external collaborators (spaCy tagger, transformers pipeline, the
      reading of a PDF file) are functions that may fail.
    - The Unicode character database is a parameter ([Py.Unicode]) for the
      code points outside ASCII; statements about one given text are
      evaluated with the table [Py.basic_table]. *)

From Stdlib Require Import ZArith NArith Ascii String List Bool Lia.
From Stdlib Require Import Floats.SpecFloat.
From stdpp Require Import base list gmap sorting.

Local Open Scope Z_scope.

(** ** Python strings *)

Module Py.

Definition char := N.
Definition pystr := list char.

(** An ASCII literal as a Python string. *)
Definition s (x : string) : pystr := map N_of_ascii (list_ascii_of_string x).

Definition len {A} (x : list A) : Z := Z.of_nat (length x).

Definition is_ascii (c : char) : bool := (c <? 128)%N.
Definition between (lo hi c : char) : bool := ((lo <=? c) && (c <=? hi))%N.
Arguments between (lo hi c)%_N.

(** The part of the Unicode character database the code consults, for code
    points outside ASCII.  ASCII is classified by the definitions below. *)
Class Unicode := {
  u_isspace : char -> bool;
  u_isalpha : char -> bool;
  u_isdecimal : char -> bool;
  u_isdigit : char -> bool;
  u_isnumeric : char -> bool;
  u_tolower : char -> char;
  u_str_lower : pystr -> pystr
}.

Section Chars.
Context `{Unicode}.

(** [Py_UNICODE_ISSPACE]: used by [str.strip], [str.split] and [\s]. *)
Definition isspace (c : char) : bool :=
  if is_ascii c then between 9 13 c || between 28 32 c else u_isspace c.

Definition ascii_upper (c : char) : bool := between 65 90 c.
Definition ascii_lower (c : char) : bool := between 97 122 c.
Definition ascii_digit (c : char) : bool := between 48 57 c.

Definition isalpha (c : char) : bool :=
  if is_ascii c then ascii_upper c || ascii_lower c else u_isalpha c.

(** [\d] is [Py_UNICODE_ISDECIMAL]; [str.isdigit] is [Py_UNICODE_ISDIGIT]. *)
Definition isdecimal (c : char) : bool :=
  if is_ascii c then ascii_digit c else u_isdecimal c.
Definition isdigit_char (c : char) : bool :=
  if is_ascii c then ascii_digit c else u_isdigit c.
Definition isnumeric (c : char) : bool :=
  if is_ascii c then ascii_digit c else u_isnumeric c.

Definition isalnum (c : char) : bool :=
  isalpha c || isdecimal c || isdigit_char c || isnumeric c.

(** [\w]: alphanumeric or underscore. *)
Definition isword (c : char) : bool := isalnum c || (c =? 95)%N.

(** Simple one-to-one lower-casing, as used by [re.IGNORECASE]. *)
Definition tolower (c : char) : char :=
  if is_ascii c then (if ascii_upper c then c + 32 else c)%N else u_tolower c.

(** [str.lower()]. *)
Definition lower (x : pystr) : pystr :=
  if forallb is_ascii x then map tolower x else u_str_lower x.

(** [str.isdigit()]: non-empty and every character a digit. *)
Definition isdigit (x : pystr) : bool :=
  match x with [] => false | _ => forallb isdigit_char x end.

(** [str.strip()]. *)
Fixpoint lstrip (x : pystr) : pystr :=
  match x with
  | c :: x' => if isspace c then lstrip x' else x
  | [] => []
  end.
Definition rstrip (x : pystr) : pystr := reverse (lstrip (reverse x)).
Definition strip (x : pystr) : pystr := rstrip (lstrip x).

(** [str.split()] without arguments: the maximal runs of non-whitespace.
    [w] is the word being read, in reverse. *)
Fixpoint split_go (x : pystr) (w : pystr) : list pystr :=
  match x with
  | [] => match w with [] => [] | _ => [reverse w] end
  | c :: x' =>
      if isspace c
      then match w with [] => split_go x' [] | _ => reverse w :: split_go x' [] end
      else split_go x' (c :: w)
  end.
Definition split (x : pystr) : list pystr := split_go x [].

End Chars.

(** [sep.join(parts)]. *)
Fixpoint join (sep : pystr) (parts : list pystr) : pystr :=
  match parts with
  | [] => []
  | [p] => p
  | p :: ps => p ++ sep ++ join sep ps
  end.

(** [str.split(sep)] for a one-character separator: empty pieces are kept. *)
Fixpoint split_on_go (sep : char) (x : pystr) (w : pystr) : list pystr :=
  match x with
  | [] => [reverse w]
  | c :: x' =>
      if (c =? sep)%N then reverse w :: split_on_go sep x' []
      else split_on_go sep x' (c :: w)
  end.
Definition split_on (sep : char) (x : pystr) : list pystr := split_on_go sep x [].

(** [str.replace(a, b)] for one-character [a]. *)
Definition replace_char (a : char) (b : pystr) (x : pystr) : pystr :=
  flat_map (fun c => if (c =? a)%N then b else [c]) x.

(** Slices [x[lo:hi]]: a negative bound counts from the end, and every bound
    is clamped to [0, len x], so a slice never fails. *)
Definition slice_index (n i : Z) : Z :=
  if i <? 0 then Z.max 0 (i + n) else Z.min i n.
Definition slice {A} (x : list A) (lo hi : Z) : list A :=
  let n := len x in
  drop (Z.to_nat (slice_index n lo)) (take (Z.to_nat (slice_index n hi)) x).
(** [x[:hi]] and [x[lo:]]. *)
Definition slice_to {A} (x : list A) (hi : Z) : list A := slice x 0 hi.
Definition slice_from {A} (x : list A) (lo : Z) : list A := slice x lo (len x).

Definition str_eqb (x y : pystr) : bool := bool_decide (x = y).

(** [sub in x] and [x.find(sub)]. *)
Fixpoint startswith (x sub : pystr) : bool :=
  match sub, x with
  | [], _ => true
  | b :: sub', c :: x' => (c =? b)%N && startswith x' sub'
  | _ :: _, [] => false
  end.
Fixpoint find_from (x sub : pystr) (i : Z) : Z :=
  if startswith x sub then i
  else match x with
       | [] => -1
       | _ :: x' => find_from x' sub (i + 1)
       end.
Definition find (x sub : pystr) : Z := find_from x sub 0.
Definition contains (x sub : pystr) : bool := negb (find x sub =? -1).

(** [x.replace(old, new)]: the occurrences of [old] are replaced from left
    to right and do not overlap; [skip] counts the characters of [x] still
    covered by the occurrence just replaced.  For an empty [old], [new] is
    written before every character and at the end. *)
Fixpoint replace_go (old new x : pystr) (skip : nat) {struct x} : pystr :=
  match x with
  | [] => match skip, old with O, [] => new | _, _ => [] end
  | c :: x' =>
      match skip with
      | S skip' => replace_go old new x' skip'
      | O =>
          if startswith x old
          then match old with
               | [] => new ++ c :: replace_go old new x' 0
               | _ :: old' => new ++ replace_go old new x' (length old')
               end
          else c :: replace_go old new x' 0
      end
  end.
Definition replace (old new x : pystr) : pystr := replace_go old new x 0.

(** [v in l] for a list of strings. *)
Definition mem (v : pystr) (l : list pystr) : bool := bool_decide (v ∈ l).

(** A stable sort by a key, as [list.sort(key=...)]. With [reverse=True]
    elements with equal keys keep their original order as well. *)
Section Sort.
Context {A : Type} (key : A -> Z).
Fixpoint insert_desc (x : A) (l : list A) : list A :=
  match l with
  | [] => [x]
  | y :: l' => if key y <=? key x then x :: l else y :: insert_desc x l'
  end.
Fixpoint sort_desc (l : list A) : list A :=
  match l with
  | [] => []
  | x :: l' => insert_desc x (sort_desc l')
  end.
Fixpoint insert_asc (x : A) (l : list A) : list A :=
  match l with
  | [] => [x]
  | y :: l' => if key x <=? key y then x :: l else y :: insert_asc x l'
  end.
Fixpoint sort_asc (l : list A) : list A :=
  match l with
  | [] => []
  | x :: l' => insert_asc x (sort_asc l')
  end.
End Sort.

(** Comparison of strings by code points, and [sorted] on distinct strings. *)
Fixpoint str_leb (x y : pystr) : bool :=
  match x, y with
  | [], _ => true
  | _ :: _, [] => false
  | a :: x', b :: y' => (a <? b)%N || ((a =? b)%N && str_leb x' y')
  end.
Fixpoint insert_str (x : pystr) (l : list pystr) : list pystr :=
  match l with
  | [] => [x]
  | y :: l' => if str_leb x y then x :: l else y :: insert_str x l'
  end.
Definition sorted_strs (l : list pystr) : list pystr := foldr insert_str [] l.

(** A table exact on ASCII, Latin-1 spaces and the Greek letters the
    patterns name; it is used to evaluate the code on concrete texts. *)
Definition greek_upper (c : char) : bool := between 0x391 0x3A9 c && negb (c =? 0x3A2)%N.
Definition greek_lower (c : char) : bool := between 0x3B1 0x3C9 c.
#[export] Instance basic_table : Unicode := {|
  u_isspace c := (c =? 0x85)%N || (c =? 0xA0)%N;
  u_isalpha c := greek_upper c || greek_lower c;
  u_isdecimal _ := false;
  u_isdigit _ := false;
  u_isnumeric _ := false;
  u_tolower c := if greek_upper c then (c + 32)%N else c;
  u_str_lower x := map (fun c => if is_ascii c then (if between 65 90 c then c + 32 else c)%N
                                 else if greek_upper c then (c + 32)%N else c) x
|}.

End Py.

(** ** Regular expressions

    The subset of Python's [re] syntax that the patterns of the repository
    use, and a backtracking matcher for it.  The matcher is written in
    continuation-passing style: [k] is what remains to be matched, so that
    a quantifier gives back characters exactly as Python's engine does. *)

Module Re.
Import Py.

Inductive item :=
| Ch (c : char)              (* a character of a set *)
| Range (lo hi : char)       (* lo-hi *)
| Space                      (* \s *)
| Digit                      (* \d *)
| Word.                      (* \w *)

Inductive re :=
| Eps
| Lit (c : char)
| Any                                              (* . *)
| Set_ (neg : bool) (items : list item)            (* [...] and [^...] *)
| Seq (a b : re)
| Alt (a b : re)                                   (* a|b *)
| Rep (greedy : bool) (lo : nat) (hi : option nat) (a : re)   (* a{lo,hi} *)
| Group (a : re)                                   (* the capturing group *)
| Bol                                              (* ^ *)
| Eol                                              (* $ *)
| WordB.                                           (* \b *)

Record flags := { ignorecase : bool; multiline : bool }.
Definition no_flags := {| ignorecase := false; multiline := false |}.

(** Where the matcher stands: the offset, the character before it, the text
    still to read, and the span captured by the group so far. *)
Record cursor := {
  pos : nat;
  prev : option char;
  rest : pystr;
  grp : option (nat * nat)
}.

(** A successful match: its end offset and the group's span. *)
Definition outcome : Type := nat * option (nat * nat).

Definition accept (x : cursor) : option outcome := Some (pos x, grp x).

Definition step (c : char) (r : pystr) (x : cursor) : cursor :=
  {| pos := S (pos x); prev := Some c; rest := r; grp := grp x |}.

Definition range_list (lo hi : char) : list char :=
  map N.of_nat (seq (N.to_nat lo) (N.to_nat hi + 1 - N.to_nat lo)).

Section Matcher.
Context `{Unicode}.
Variable fl : flags.

Definition char_matches (a c : char) : bool :=
  if ignorecase fl then (tolower c =? tolower a)%N else (c =? a)%N.

Definition item_matches (c : char) (i : item) : bool :=
  match i with
  | Ch a => char_matches a c
  | Range lo hi =>
      between lo hi c
      || (ignorecase fl && existsb (fun a => (tolower a =? tolower c)%N) (range_list lo hi))
  | Space => isspace c
  | Digit => isdecimal c
  | Word => isword c
  end.

Definition at_bol (x : cursor) : bool :=
  match prev x with
  | None => true
  | Some c => multiline fl && (c =? 10)%N
  end.

Definition at_eol (x : cursor) : bool :=
  match rest x with
  | [] => true
  | c :: r => (c =? 10)%N && (multiline fl || match r with [] => true | _ => false end)
  end.

Definition at_word_boundary (x : cursor) : bool :=
  xorb (match prev x with Some c => isword c | None => false end)
       (match rest x with c :: _ => isword c | [] => false end).

(** One character, accepted by [ok]. *)
Definition one (ok : char -> bool) (k : cursor -> option outcome) (x : cursor)
  : option outcome :=
  match rest x with
  | c :: r => if ok c then k (step c r x) else None
  | [] => None
  end.

(** [a{lo,hi}]: [ma] matches one [a]. An iteration beyond the first [lo]
    must consume a character.  [fuel] bounds the number of iterations; a
    loop is started with [lo + length (rest x) + 1]. *)
Fixpoint rep_loop (ma : (cursor -> option outcome) -> cursor -> option outcome)
    (greedy : bool) (k : cursor -> option outcome)
    (fuel lo : nat) (hi : option nat) (x : cursor) {struct fuel} : option outcome :=
  match fuel with
  | O => None
  | S fuel' =>
      let again (_ : unit) :=
        match hi with
        | Some O => None
        | _ => ma (fun y =>
                     if (lo =? 0)%nat && (pos y =? pos x)%nat then None
                     else rep_loop ma greedy k fuel' (Nat.pred lo) (Nat.pred <$> hi) y) x
        end in
      let stop (_ : unit) := if (lo =? 0)%nat then k x else None in
      if greedy
      then match again () with Some o => Some o | None => stop () end
      else match stop () with Some o => Some o | None => again () end
  end.

Fixpoint m (r : re) (k : cursor -> option outcome) (x : cursor) {struct r}
  : option outcome :=
  match r with
  | Eps => k x
  | Lit a => one (char_matches a) k x
  | Any => one (fun c => negb (c =? 10)%N) k x
  | Set_ neg items => one (fun c => xorb neg (existsb (item_matches c) items)) k x
  | Seq a b => m a (m b k) x
  | Alt a b => match m a k x with Some o => Some o | None => m b k x end
  | Rep greedy lo hi a =>
      rep_loop (m a) greedy k (lo + length (rest x) + 1) lo hi x
  | Group a =>
      m a (fun y => k {| pos := pos y; prev := prev y; rest := rest y;
                         grp := Some (pos x, pos y) |}) x
  | Bol => if at_bol x then k x else None
  | Eol => if at_eol x then k x else None
  | WordB => if at_word_boundary x then k x else None
  end.

(** One match found while scanning a text. *)
Record hit := { h_start : nat; h_end : nat; h_grp : option (nat * nat) }.

(** The leftmost non-overlapping matches from offset [p] on.  [skip] counts
    the characters still covered by the previous match. *)
Fixpoint scan (r : re) (p : nat) (pv : option char) (rs : pystr) (skip : nat)
  : list hit :=
  match skip with
  | S skip' =>
      match rs with
      | [] => []
      | c :: rs' => scan r (S p) (Some c) rs' skip'
      end
  | O =>
      match m r accept {| pos := p; prev := pv; rest := rs; grp := None |} with
      | Some (e, g) =>
          {| h_start := p; h_end := e; h_grp := g |} ::
          match rs with
          | [] => []
          | c :: rs' => scan r (S p) (Some c) rs' (e - p - 1)
          end
      | None =>
          match rs with
          | [] => []
          | c :: rs' => scan r (S p) (Some c) rs' 0
          end
      end
  end.

(** [re.finditer]. *)
Definition finditer (r : re) (text : pystr) : list hit := scan r 0 None text 0.

End Matcher.

(** [text[a:b]] for offsets of a match. *)
Definition seg (text : pystr) (a b : nat) : pystr := take (b - a) (drop a text).

(** [match.group(0)], and group 1 (empty when it took no part). *)
Definition group0 (text : pystr) (h : hit) : pystr := seg text (h_start h) (h_end h).
Definition group1 (text : pystr) (h : hit) : pystr :=
  match h_grp h with
  | Some (a, b) => seg text a b
  | None => []
  end.

Fixpoint has_group (r : re) : bool :=
  match r with
  | Group _ => true
  | Seq a b | Alt a b => has_group a || has_group b
  | Rep _ _ _ a => has_group a
  | _ => false
  end.

Fixpoint sub_build (text repl : pystr) (from : nat) (hits : list hit) : pystr :=
  match hits with
  | [] => drop from text
  | h :: hs => seg text from (h_start h) ++ repl ++ sub_build text repl (h_end h) hs
  end.

Fixpoint split_build (text : pystr) (from : nat) (hits : list hit) : list pystr :=
  match hits with
  | [] => [drop from text]
  | h :: hs => seg text from (h_start h) :: split_build text (h_end h) hs
  end.

Section Api.
Context `{Unicode}.

(** [re.findall]: the group's text when the pattern has a group, the whole
    match otherwise. *)
Definition findall (fl : flags) (r : re) (text : pystr) : list pystr :=
  map (if has_group r then group1 text else group0 text) (finditer fl r text).

(** [re.sub(r, repl, text)] for a replacement without back-references. *)
Definition sub (fl : flags) (r : re) (repl text : pystr) : pystr :=
  sub_build text repl 0 (finditer fl r text).

(** [re.split(r, text)] for a pattern without groups. *)
Definition split (fl : flags) (r : re) (text : pystr) : list pystr :=
  split_build text 0 (finditer fl r text).

(** [re.search(r, text)] as a truth value. *)
Definition search (fl : flags) (r : re) (text : pystr) : bool :=
  match finditer fl r text with [] => false | _ => true end.

End Api.

(** Pattern syntax. *)
Definition seq_ (l : list re) : re := foldr Seq Eps l.
Fixpoint alt_ (l : list re) : re :=
  match l with
  | [] => Eps
  | [a] => a
  | a :: l' => Alt a (alt_ l')
  end.
Definition lit (x : string) : re := seq_ (map Lit (s x)).
Definition chars (x : string) : list item := map Ch (s x).
Definition rng (lo hi : string) : item :=
  match s lo, s hi with
  | a :: _, b :: _ => Range a b
  | _, _ => Range 1%N 0%N
  end.
Definition cls (items : list item) : re := Set_ false items.
Definition ncls (items : list item) : re := Set_ true items.
Definition plus (a : re) : re := Rep true 1 None a.
Definition star (a : re) : re := Rep true 0 None a.
Definition opt (a : re) : re := Rep true 0 (Some 1%nat) a.
Definition lazy_plus (a : re) : re := Rep false 1 None a.
Definition lazy_star (a : re) : re := Rep false 0 None a.
Definition times (lo hi : nat) (a : re) : re := Rep true lo (Some hi) a.
Definition ws : re := cls [Space].
Definition digit : re := cls [Digit].

End Re.

(** ** math_extractor.py *)

Module MathExpressionExtractor.
Import Py Re.

(** [A-Za-z0-9], shared by most patterns. *)
Definition alnum_items : list item := [rng "A" "Z"; rng "a" "z"; rng "0" "9"].

(** [[A-Za-z0-9\s\^\=\+\-\*/\(\)\.]] *)
Definition equation_set : re := cls (alnum_items ++ Space :: chars "^=+-*/().").

(** [self.patterns], in the order of the source. *)
Definition patterns : list re := [
  (* Basic equations with equals sign *)
  seq_ [plus equation_set; star ws; lit "="; star ws; plus equation_set];
  (* Mathematical expressions wrapped in $$ *)
  seq_ [lit "$$"; star ws; Group (lazy_plus Any); star ws; lit "$$"];
  (* Scientific notation; 0xD7 is the multiplication sign *)
  seq_ [plus digit; opt (lit "."); star digit; star ws;
        cls (Ch 0xD7%N :: chars "x*"); star ws; lit "10"; opt (lit "^");
        opt (cls (chars "-+")); plus digit];
  (* Fractions *)
  seq_ [plus digit; lit "/"; plus digit];
  (* Powers and exponents *)
  seq_ [plus (cls alnum_items); lit "^"; plus (cls (alnum_items ++ chars "+-"))];
  (* Greek letters: alpha-omega, Alpha-Omega *)
  seq_ [plus (cls [Range 0x3B1%N 0x3C9%N; Range 0x391%N 0x3A9%N]); star ws;
        cls (chars "=+-*/"); star ws; plus (cls (alnum_items ++ chars "+-*/^()."))];
  (* Summation, integration, product symbols *)
  seq_ [cls [Ch 0x2211%N; Ch 0x222B%N; Ch 0x220F%N]; plus equation_set];
  (* Mathematical functions *)
  seq_ [Group (alt_ (map lit ["sin"; "cos"; "tan"; "log"; "ln"; "exp"; "sqrt";
                              "abs"; "max"; "min"; "lim"]%string));
        star ws; lit "("; plus equation_set; lit ")"];
  (* Derivatives; 0x2202 is the partial-derivative sign *)
  seq_ [lit "d"; cls [rng "A" "Z"; rng "a" "z"]; lit "/"; lit "d";
        cls [rng "A" "Z"; rng "a" "z"]];
  seq_ [Lit 0x2202%N; cls [rng "A" "Z"; rng "a" "z"]; lit "/"; Lit 0x2202%N;
        cls [rng "A" "Z"; rng "a" "z"]];
  (* Matrix notation *)
  seq_ [lit "["; plus (cls (alnum_items ++ Space :: chars ",;+-*/")); lit "]"];
  (* Inequalities: <, >, and the signs 0x2264, 0x2265, 0x2260 *)
  seq_ [plus (cls (alnum_items ++ Space :: chars "^+-*/()."));
        star ws; cls (chars "<>" ++ [Ch 0x2264%N; Ch 0x2265%N; Ch 0x2260%N]); star ws;
        plus (cls (alnum_items ++ Space :: chars "^+-*/()."))]
].

(** [self.math_symbols]: the ASCII operators, the root, sum, integral and
    product signs, the Greek letters alpha..omega (without final sigma), and
    the signs for infinity, partial, <=, >=, /=, ~=, element, not element,
    subset, superset, union, intersection. *)
Definition math_symbols : list char :=
  s "=+-*/^" ++
  [0x221A; 0x2211; 0x222B; 0x220F; 0x3C0;
   0x3B1; 0x3B2; 0x3B3; 0x3B4; 0x3B5; 0x3B6; 0x3B7; 0x3B8; 0x3B9; 0x3BA;
   0x3BB; 0x3BC; 0x3BD; 0x3BE; 0x3BF; 0x3C0; 0x3C1; 0x3C3; 0x3C4; 0x3C5;
   0x3C6; 0x3C7; 0x3C8; 0x3C9;
   0x221E; 0x2202; 0x2264; 0x2265; 0x2260; 0x2248; 0x2208; 0x2209;
   0x2282; 0x2283; 0x222A; 0x2229]%N.

Definition false_positives : list pystr :=
  map s ["page"; "figure"; "table"; "section"; "chapter";
         "reference"; "bibliography"; "index"; "appendix"]%string.

(** The flags of every [re] call of the extractor. *)
Definition re_flags : flags := {| ignorecase := true; multiline := true |}.

(** [^\$\$\s*|\s*\$\$$] *)
Definition dollar_wrappers : re :=
  Alt (seq_ [Bol; lit "$$"; star ws]) (seq_ [star ws; lit "$$"; Eol]).

Record formula := { expression : pystr; context : pystr; position : Z }.

Section Extractor.
Context `{Unicode}.

Definition clean_expression (expr : pystr) : pystr :=
  (* Remove extra whitespace *)
  let expr := Re.sub no_flags (plus ws) (s " ") (strip expr) in
  (* Remove $$ wrappers if present *)
  let expr := Re.sub no_flags dollar_wrappers [] expr in
  (* Normalize common mathematical symbols: 0xD7 to *, 0xF7 to / *)
  let expr := replace_char 0xD7%N (s "*") expr in
  let expr := replace_char 0xF7%N (s "/") expr in
  expr.

Definition is_valid_math_expression (expr : pystr) : bool :=
  let cleaned := clean_expression expr in
  (* Skip if too short or too long *)
  if (len cleaned <? 3) || (len cleaned >? 200) then false
  (* Must contain at least one mathematical symbol *)
  else if negb (existsb (fun symbol => contains cleaned [symbol]) math_symbols) then false
  (* Skip if it's mostly punctuation or whitespace *)
  else if len (List.filter isalnum cleaned) <? 2 then false
  (* Skip common false positives *)
  else if existsb (fun fp => contains (lower cleaned) fp) false_positives then false
  else true.

(** The inner loop of [extract_expressions] for the matches of one
    pattern.  No pattern has two groups, so a match is always a string. *)
Definition add_matches (expressions : gset pystr) (matches : list pystr) : gset pystr :=
  foldl (fun expressions match_ =>
           if negb (bool_decide (match_ = [])) && is_valid_math_expression match_
           then {[ clean_expression match_ ]} ∪ expressions
           else expressions)
        expressions matches.

Definition extract_expressions (text : pystr) : list pystr :=
  let expressions : gset pystr :=
    foldl (fun expressions pattern =>
             add_matches expressions (findall re_flags pattern text))
          ∅ patterns in
  (* Convert to list and sort by length (longer expressions first) *)
  let result := sort_desc len (elements expressions) in
  (* Limit to top 50 expressions *)
  take 50 result.

Definition formulas_of (text : pystr) (context_chars : Z) (pattern : re) : list formula :=
  flat_map (fun h =>
              let expr := group0 text h in
              if is_valid_math_expression expr then
                let start := Z.max 0 (Z.of_nat (h_start h) - context_chars) in
                let end_ := Z.min (len text) (Z.of_nat (h_end h) + context_chars) in
                [ {| expression := clean_expression expr;
                     context := strip (slice text start end_);
                     position := Z.of_nat (h_start h) |} ]
              else [])
           (finditer re_flags pattern text).

(** Remove duplicates: the first item of each expression is kept. *)
Fixpoint unique_expressions (items : list formula) (seen : gset pystr) : list formula :=
  match items with
  | [] => []
  | item :: items' =>
      if bool_decide (expression item ∈ seen) then unique_expressions items' seen
      else item :: unique_expressions items' ({[ expression item ]} ∪ seen)
  end.

Definition extract_formulas_with_context (text : pystr) (context_chars : Z) : list formula :=
  let expressions_with_context := flat_map (formulas_of text context_chars) patterns in
  let unique := unique_expressions expressions_with_context ∅ in
  take 30 (sort_asc position unique).

End Extractor.
End MathExpressionExtractor.

(** ** ner_processor.py *)

Module NERProcessor.
Import Py Re.

(** An entity of [doc.ents]: [start_char], [end_char], [text], [label_]. *)
Record ent := {
  start_char : Z;
  end_char : Z;
  ent_text : pystr;
  label_ : pystr
}.

(** [self.nlp]: [None] when the model could not be loaded; otherwise the
    tagger, whose call either raises (with a message) or gives [doc.ents]. *)
Record NERProcessor := { nlp : option (pystr -> pystr + list ent) }.

(** A Python [dict] with string keys, in insertion order. *)
Definition dict (V : Type) := list (pystr * V).
Fixpoint dict_get {V} (d : dict V) (key : pystr) : option V :=
  match d with
  | [] => None
  | (k, v) :: d' => if str_eqb k key then Some v else dict_get d' key
  end.
(** [d[key] = v]: an existing key keeps its place. *)
Fixpoint dict_set {V} (d : dict V) (key : pystr) (v : V) : dict V :=
  match d with
  | [] => [(key, v)]
  | (k, w) :: d' => if str_eqb k key then (k, v) :: d' else (k, w) :: dict_set d' key v
  end.

Definition false_positives : list pystr :=
  map s ["the"; "and"; "or"; "but"; "in"; "on"; "at"; "to"; "for"; "of"; "with";
         "by"; "from"; "up"; "about"; "into"; "through"; "during"; "before";
         "after"; "above"; "below"; "between"; "among"; "page"; "figure";
         "table"; "section"; "chapter"; "appendix"; "reference"; "et"; "al"]%string.

Definition label_mapping : dict pystr :=
  map (fun p => (s (fst p), s (snd p)))
    [("PERSON", "People"); ("ORG", "Organizations"); ("GPE", "Locations");
     ("DATE", "Dates"); ("TIME", "Times"); ("MONEY", "Money");
     ("PERCENT", "Percentages"); ("QUANTITY", "Quantities");
     ("ORDINAL", "Ordinals"); ("CARDINAL", "Numbers"); ("EVENT", "Events");
     ("FAC", "Facilities"); ("LAW", "Laws"); ("LANGUAGE", "Languages");
     ("NORP", "Nationalities"); ("PRODUCT", "Products");
     ("WORK_OF_ART", "Works of Art")]%string.

Section Processor.
Context `{Unicode}.

Definition clean_entity (entity_text : pystr) : pystr :=
  (* Remove extra whitespace and newlines *)
  let cleaned := Re.sub no_flags (plus ws) (s " ") (strip entity_text) in
  (* Remove common OCR artifacts: [^\w\s\.\-\(\)]+ *)
  let cleaned := Re.sub no_flags (plus (ncls (Word :: Space :: chars ".-()"))) [] cleaned in
  cleaned.

Definition is_valid_entity (entity_text entity_label : pystr) : bool :=
  let cleaned := clean_entity entity_text in
  (* Skip very short or very long entities *)
  if (len cleaned <? 2) || (len cleaned >? 100) then false
  (* Skip single characters or numbers only *)
  else if (len cleaned =? 1) || isdigit cleaned then false
  (* Skip common false positives *)
  else if mem (lower cleaned) false_positives then false
  (* Additional validation for specific entity types *)
  else if str_eqb entity_label (s "PERSON") then
    if negb (existsb isalpha cleaned) then false
    else if (len (Py.split cleaned) =? 1)
            && mem (lower cleaned) (map s ["he"; "she"; "it"; "they"; "we"; "you"; "i"]%string)
    then false
    else true
  else if str_eqb entity_label (s "ORG") then
    if (len (Py.split cleaned) =? 1) && (len cleaned <? 3) then false else true
  else if mem entity_label [s "DATE"; s "TIME"] then
    if mem (lower cleaned) (map s ["now"; "then"; "when"; "time"; "date"]%string)
    then false else true
  else true.

(** One replacement of the highlighting loop. *)
Definition highlight_one (highlighted_text : pystr) (e : ent) : pystr :=
  slice_to highlighted_text (start_char e)
  ++ s "**" ++ ent_text e ++ s "**"
  ++ slice_from highlighted_text (end_char e).

Definition highlight_entities_in_text (self : NERProcessor) (text : pystr) : pystr :=
  match nlp self with
  | None => text
  | Some tagger =>
      match tagger text with
      | inl _ => text                       (* except Exception: return text *)
      | inr ents =>
          let entities :=
            List.filter (fun e => is_valid_entity (ent_text e) (label_ e)) ents in
          (* Sort by start position in reverse order *)
          let entities := sort_desc start_char entities in
          (* Apply highlighting *)
          foldl highlight_one text entities
      end
  end.

(** The loop over [doc.ents] of [extract_entities]. *)
Fixpoint collect (ents : list ent) (seen : gset (pystr * pystr))
    (entities_by_type : dict (list pystr)) : dict (list pystr) :=
  match ents with
  | [] => entities_by_type
  | e :: ents' =>
      if is_valid_entity (ent_text e) (label_ e) then
        let cleaned_text := clean_entity (ent_text e) in
        let entity_key := (lower cleaned_text, label_ e) in
        if bool_decide (entity_key ∈ seen) then collect ents' seen entities_by_type
        else
          let seen := {[ entity_key ]} ∪ seen in
          let entities_by_type :=
            match dict_get entities_by_type (label_ e) with
            | None => dict_set entities_by_type (label_ e) []
            | Some _ => entities_by_type
            end in
          let old := default [] (dict_get entities_by_type (label_ e)) in
          collect ents' seen (dict_set entities_by_type (label_ e) (old ++ [cleaned_text]))
      else collect ents' seen entities_by_type
  end.

(** [sorted(list(set(l)))[:20]] *)
Definition sorted_top20 (l : list pystr) : list pystr :=
  take 20 (sorted_strs (elements (list_to_set l : gset pystr))).

Definition extract_entities (self : NERProcessor) (text : pystr) : dict (list pystr) :=
  match nlp self with
  | None => [(s "error", [s "spaCy model not available"])]
  | Some tagger =>
      match tagger text with
      | inl e => [(s "error", [s "Entity extraction failed: " ++ e])]
      | inr ents =>
          let entities_by_type := collect ents ∅ [] in
          (* Sort entities within each type and limit count *)
          let entities_by_type :=
            map (fun kv => (fst kv, sorted_top20 (snd kv))) entities_by_type in
          (* Rename keys using mapping *)
          foldl (fun readable_entities kv =>
                   let readable_label := default (fst kv) (dict_get label_mapping (fst kv)) in
                   dict_set readable_entities readable_label (snd kv))
                [] entities_by_type
      end
  end.

(** Nothing in the [try] block raises ([extract_entities] catches what the
    tagger raises), so the handler that answers [{"error": 1}] for an
    exception has no counterpart here. *)
Definition get_entity_statistics (self : NERProcessor) (text : pystr) : dict Z :=
  match nlp self with
  | None => [(s "error", 1)]
  | Some _ =>
      let entities := extract_entities self text in
      let '(stats, total_entities) :=
        foldl (fun '(stats, total_entities) kv =>
                 if negb (str_eqb (fst kv) (s "error")) then
                   let count := len (snd kv) in
                   (dict_set stats (fst kv) count, total_entities + count)
                 else (stats, total_entities))
              ([], 0) entities in
      dict_set stats (s "Total") total_entities
  end.

End Processor.
End NERProcessor.

(** ** summarizer.py *)

Module TextSummarizer.
Import Py Re.

(** [self.summarizer]: [None] when the model could not be loaded
    ([model_loaded] is then false); otherwise the pipeline, called with a
    text, [max_length] and [min_length]; it gives [summary_text], or
    raises. *)
Record TextSummarizer := { summarizer : option (pystr -> Z -> Z -> option pystr) }.

Definition model_loaded (self : TextSummarizer) : bool :=
  match summarizer self with Some _ => true | None => false end.

(** *** IEEE doubles, for [max_length * 0.7] *)

Definition prec : Z := 53.
Definition emax : Z := 1024.

(** The double nearest to 0.7. *)
Definition float_0_7 : spec_float := S754_finite false 0x16666666666666 (-53).

(** [float(n)]: [None] for Python's [OverflowError]. *)
Definition float_of_int (n : Z) : option spec_float :=
  match binary_normalize prec emax n 0 false with
  | S754_infinity _ => None
  | f => Some f
  end.

(** [n > f] for an [int] and a [float]; Python compares them exactly. *)
Definition int_gt_float (n : Z) (f : spec_float) : bool :=
  match f with
  | S754_zero _ => 0 <? n
  | S754_finite sg m e =>
      let v := if sg then Z.neg m else Z.pos m in
      if 0 <=? e then v * 2 ^ e <? n else v <? n * 2 ^ (- e)
  | S754_infinity sg => sg
  | S754_nan => false
  end.

(** *** Patterns *)

Definition icase : flags := {| ignorecase := true; multiline := false |}.

(** [\$\$.*?\$\$] *)
Definition math_span : re := seq_ [lit "$$"; lazy_star Any; lit "$$"].

(** A run of characters other than [\w], [\s], [. , ! ? ; : - ( )] and the
    two quote marks (code points 34 and 39). *)
Definition noise : re :=
  plus (ncls (Word :: Space :: chars ".,!?;:-()" ++ [Ch 34%N; Ch 39%N])).

(** [[.!?]+] *)
Definition sentence_end : re := plus (cls (chars ".!?")).

(** [(?:\.\d+)?] and [(?:,\d{3})*] *)
Definition fraction_part : re := opt (seq_ [lit "."; plus digit]).
Definition thousands : re := star (seq_ [lit ","; times 3 3 digit]).
Definition magnitude : re :=
  alt_ (map lit ["million"; "billion"; "thousand"; "M"; "B"; "K"]%string).
Definition months : re :=
  alt_ (map lit ["January"; "February"; "March"; "April"; "May"; "June"; "July";
                 "August"; "September"; "October"; "November"; "December"]%string).

Definition number_patterns : list re := [
  (* Percentages: \b\d+(?:\.\d+)?%\b *)
  seq_ [WordB; plus digit; fraction_part; lit "%"; WordB];
  (* Large numbers *)
  seq_ [WordB; plus digit; thousands; fraction_part; star ws; magnitude; WordB];
  (* Money *)
  seq_ [lit "$"; plus digit; thousands; fraction_part;
        opt (seq_ [star ws; magnitude]); WordB];
  (* Years: \b\d{4}\b *)
  seq_ [WordB; times 4 4 digit; WordB];
  (* Measurements *)
  seq_ [WordB; plus digit; fraction_part; star ws;
        alt_ (map lit ["kg"; "g"; "lb"; "ton"; "meter"; "m"; "km"; "ft"; "inch";
                       "cm"; "mm"]%string);
        WordB]
].

Definition date_patterns : list re := [
  seq_ [WordB; months; plus ws; times 1 2 digit; opt (lit ","); plus ws;
        times 4 4 digit; WordB];
  seq_ [WordB; times 1 2 digit; cls (chars "-/"); times 1 2 digit; cls (chars "-/");
        times 2 4 digit; WordB];
  seq_ [WordB; alt_ (map lit ["from"; "between"; "during"]%string); plus ws;
        times 4 4 digit; star ws; alt_ (map lit ["to"; "and"; "-"]%string); star ws;
        times 4 4 digit; WordB]
].

(** [\d+(?:\.\d+)?[%]?] *)
Definition number_re : re := seq_ [plus digit; fraction_part; opt (cls (chars "%"))].
(** [\b\d{4}\b|\b(?:January|...|December)\b] *)
Definition date_re : re :=
  Alt (seq_ [WordB; times 4 4 digit; WordB]) (seq_ [WordB; months; WordB]).

Definition importance_indicators : list (pystr * Z) :=
  map (fun p => (s (fst p), snd p))
    [("conclusion", 15); ("result", 12); ("finding", 12); ("significant", 10);
     ("important", 10); ("key", 8); ("main", 8); ("primary", 8);
     ("discovered", 10); ("showed", 8); ("demonstrated", 8);
     ("analysis", 6); ("study", 6); ("research", 6); ("data", 5)]%string.

Definition too_short_message : pystr := s "Text too short for meaningful summarization.".
Definition unable_message : pystr := s "Unable to generate summary from the provided text.".

Definition nonempty {A} (l : list A) : bool := match l with [] => false | _ => true end.

Section Summarizer.
Context `{Unicode}.

(** The loop that removes excessive repetition of words. *)
Fixpoint drop_repeats (words : list pystr) (prev_word : pystr) (repeat_count : Z)
  : list pystr :=
  match words with
  | [] => []
  | word :: words' =>
      if str_eqb (lower word) (lower prev_word) then
        let repeat_count := repeat_count + 1 in
        if repeat_count <? 3 then word :: drop_repeats words' word repeat_count
        else drop_repeats words' word repeat_count
      else word :: drop_repeats words' word 0
  end.

Definition clean_text_for_summarization (text : pystr) : pystr :=
  (* Remove excessive whitespace *)
  let text := Re.sub no_flags (plus ws) (s " ") text in
  (* Remove mathematical expressions in $$ tags *)
  let text := Re.sub no_flags math_span (s "[MATH_EXPRESSION]") text in
  (* Remove very short lines *)
  let lines := split_on 10%N text in
  let cleaned_lines := List.filter (fun line => len line >? 10) (map strip lines) in
  let cleaned_text := join (s " ") cleaned_lines in
  (* Remove OCR artifacts and noise *)
  let cleaned_text := Re.sub no_flags noise (s " ") cleaned_text in
  (* Remove excessive repetition of words *)
  join (s " ") (drop_repeats (Py.split cleaned_text) [] 0).

(** The loop of [split_text_into_chunks]; it gives [chunks] and
    [current_chunk] at its end. *)
Fixpoint chunk_loop (max_chunk_length : Z) (sentences : list pystr)
    (current_chunk : pystr) (chunks : list pystr) : list pystr * pystr :=
  match sentences with
  | [] => (chunks, current_chunk)
  | sentence :: sentences' =>
      let sentence := strip sentence in
      if negb (nonempty sentence) then
        chunk_loop max_chunk_length sentences' current_chunk chunks
      else if (len current_chunk + len sentence >? max_chunk_length)
              && nonempty current_chunk
      then chunk_loop max_chunk_length sentences' sentence
             (chunks ++ [strip current_chunk])
      else if nonempty current_chunk
      then chunk_loop max_chunk_length sentences'
             (current_chunk ++ s ". " ++ sentence) chunks
      else chunk_loop max_chunk_length sentences' sentence chunks
  end.

Definition split_text_into_chunks (text : pystr) (max_chunk_length : Z) : list pystr :=
  let sentences := Re.split no_flags sentence_end text in
  let '(chunks, current_chunk) := chunk_loop max_chunk_length sentences [] [] in
  (* Add the last chunk if it exists *)
  if nonempty (strip current_chunk) then chunks ++ [strip current_chunk] else chunks.

Definition score_sentence_importance (sentence : pystr) : Z :=
  let score := len (Py.split sentence) in
  let sentence_lower := lower sentence in
  let score :=
    foldl (fun score ib => if contains sentence_lower (fst ib) then score + snd ib else score)
          score importance_indicators in
  let score := if Re.search no_flags number_re sentence then score + 8 else score in
  let score := if Re.search no_flags date_re sentence then score + 5 else score in
  score.

(** The sentences of [text] that pass a length and word-count test. *)
Definition long_sentences (text : pystr) (min_chars min_words : Z) : list pystr :=
  List.filter (fun sentence => (len sentence >? min_chars)
                               && (len (Py.split sentence) >? min_words))
              (map strip (Re.split no_flags sentence_end text)).

Definition by_importance (sentences : list pystr) : list pystr :=
  map snd (sort_desc fst (map (fun sentence => (score_sentence_importance sentence, sentence))
                              sentences)).

Definition extract_key_points (text : pystr) (num_points : Z) : list pystr :=
  slice_to (by_importance (long_sentences text 30 5)) num_points.

(** [generate_key_points] has the body of [extract_key_points]. *)
Definition generate_key_points (text : pystr) (num_points : Z) : list pystr :=
  slice_to (by_importance (long_sentences text 30 5)) num_points.

(** The loop over the matches of one pattern in [extract_facts_and_figures]:
    [window] is 50 and [min_len] 20 for numbers, 40 and 15 for dates. *)
Definition fact_context (text match_ : pystr) (match_pos window : Z) : pystr :=
  let start := Z.max 0 (match_pos - window) in
  let end_ := Z.min (len text) (match_pos + len match_ + window) in
  let context := strip (slice text start end_) in
  join (s " ") (Py.split context).

Definition add_facts (text : pystr) (window min_len : Z)
    (facts : list pystr) (matches : list pystr) : list pystr :=
  foldl (fun facts match_ =>
           let match_pos := find text match_ in
           if match_pos =? -1 then facts
           else
             let context := fact_context text match_ match_pos window in
             if (len context >? min_len) && negb (mem context facts)
             then facts ++ [context] else facts)
        facts matches.

Definition all_facts (text : pystr) : list pystr :=
  let facts :=
    foldl (fun facts pattern => add_facts text 50 20 facts (findall icase pattern text))
          [] number_patterns in
  foldl (fun facts pattern => add_facts text 40 15 facts (findall icase pattern text))
        facts date_patterns.

Definition extract_facts_and_figures (text : pystr) : list pystr :=
  take 10 (all_facts text).

Definition create_comprehensive_summary (summaries key_points facts : list pystr)
    (max_length : Z) : pystr :=
  let main_content := strip (join (s " ") summaries) in
  let result_parts :=
    (if nonempty main_content then [s "SUMMARY: " ++ main_content] else [])
    ++ (if nonempty key_points
        then [s "KEY POINTS: " ++ join (s "; ") (take 5 key_points)] else [])
    ++ (if nonempty facts
        then [s "IMPORTANT FACTS: " ++ join (s "; ") (take 5 facts)] else []) in
  let combined := join (s " | ") result_parts in
  (* Ensure it doesn't exceed max_length *)
  if len combined >? max_length then
    match result_parts with
    | part0 :: part1 :: _ =>
        let shortened := part0 in
        let shortened :=
          if len shortened + len part1 <? max_length
          then shortened ++ s " | " ++ part1 else shortened in
        if len shortened >? max_length
        then slice_to shortened (max_length - 3) ++ s "..."
        else shortened
    | _ => slice_to combined (max_length - 3) ++ s "..."
    end
  else combined.

(** The loop that builds the summary from the most important sentences: it
    stops at the first sentence that would pass [threshold]. *)
Fixpoint take_sentences (threshold : spec_float) (sentences : list pystr)
    (current_length : Z) : list pystr * Z :=
  match sentences with
  | [] => ([], current_length)
  | sentence :: sentences' =>
      if int_gt_float (current_length + len sentence) threshold
      then ([], current_length)
      else
        let '(summary_sentences, total) :=
          take_sentences threshold sentences' (current_length + len sentence) in
        (sentence :: summary_sentences, total)
  end.

(** The loop over [facts]: a fact is added while the facts fit. *)
Fixpoint facts_that_fit (facts : list pystr) (facts_length available_space : Z)
  : list pystr :=
  match facts with
  | [] => []
  | fact :: facts' =>
      if facts_length + len fact <? available_space
      then fact :: facts_that_fit facts' (facts_length + len fact) available_space
      else facts_that_fit facts' facts_length available_space
  end.

Definition fallback_facts_text (text : pystr) (max_length current_length : Z) : pystr :=
  let facts := extract_facts_and_figures text in
  if nonempty facts then
    let available_space := max_length - current_length - 20 in
    let facts_to_add := facts_that_fit facts 0 available_space in
    if nonempty facts_to_add
    then s " | FACTS: " ++ join (s "; ") (take 3 facts_to_add)
    else []
  else [].

(** [None] stands for the [OverflowError] of [max_length * 0.7] when
    [max_length] has no double. *)
Definition _comprehensive_fallback_summary (text : pystr) (max_length : Z)
  : option pystr :=
  let clean_sentences := long_sentences text 20 4 in
  match clean_sentences with
  | [] => Some unable_message
  | first :: _ =>
      let scored_sentences := by_importance clean_sentences in
      match float_of_int max_length with
      | None => None
      | Some fm =>
          let threshold := SFmul prec emax fm float_0_7 in
          let '(summary_sentences, current_length) :=
            take_sentences threshold scored_sentences 0 in
          let facts_text := fallback_facts_text text max_length current_length in
          if nonempty summary_sentences
          then Some (join (s ". ") summary_sentences ++ s "." ++ facts_text)
          else Some (slice_to first (max_length - 3) ++ s "...")
      end
  end.

(** The loop over the first six chunks: a chunk whose summary raises is
    skipped, together with its facts. *)
Fixpoint summarize_chunks (model : pystr -> Z -> Z -> option pystr)
    (n_chunks max_length min_length : Z) (chunks : list pystr)
  : list pystr * list pystr :=
  match chunks with
  | [] => ([], [])
  | chunk :: chunks' =>
      let '(chunk_summaries, factual_content) :=
        summarize_chunks model n_chunks max_length min_length chunks' in
      if len (Py.split chunk) >=? 20 then
        match model chunk (Z.min 120 (max_length / Z.max n_chunks 1))
                          (Z.min 40 (min_length / Z.max n_chunks 1)) with
        | Some summary_text =>
            (summary_text :: chunk_summaries,
             extract_facts_and_figures chunk ++ factual_content)
        | None => (chunk_summaries, factual_content)
        end
      else (chunk_summaries, factual_content)
  end.

(** [None] is an exception leaving [generate_summary]; it can only come
    from the fallback, which the outer handler calls again. *)
Definition generate_summary (self : TextSummarizer) (text : pystr)
    (max_length min_length : Z) : option pystr :=
  match summarizer self with
  | None => _comprehensive_fallback_summary text max_length
  | Some model =>
      (* Clean the text *)
      let cleaned_text := clean_text_for_summarization text in
      (* Check if text is too short *)
      if len (Py.split cleaned_text) <? 50 then Some too_short_message
      else
        (* Extract key points first *)
        let key_points := extract_key_points text 8 in
        (* Check if text is too long for the model *)
        if len cleaned_text >? 900 then
          let chunks := split_text_into_chunks cleaned_text 800 in
          let '(chunk_summaries, factual_content) :=
            summarize_chunks model (len chunks) max_length min_length (take 6 chunks) in
          if nonempty chunk_summaries
          then Some (create_comprehensive_summary chunk_summaries key_points
                       factual_content max_length)
          else _comprehensive_fallback_summary text max_length
        else
          match model cleaned_text (max_length - 100) (Z.max (min_length - 50) 30) with
          | Some summary_text =>
              let facts := extract_facts_and_figures text in
              Some (create_comprehensive_summary [summary_text] key_points facts max_length)
          | None => _comprehensive_fallback_summary text max_length
          end
  end.

End Summarizer.
End TextSummarizer.

(** ** pdf_processor.py *)

Module PDFTextExtractor.
Import Py Re.

(** [([A-Za-z0-9\s\^\=\+\-\*/]+=[A-Za-z0-9\s\^\=\+\-\*/]+)] *)
Definition inline_set : re :=
  cls ([rng "A" "Z"; rng "a" "z"; rng "0" "9"] ++ Space :: chars "^=+-*/").
Definition math_pattern : re :=
  Group (seq_ [plus inline_set; lit "="; plus inline_set]).

Section Extractor.
Context `{Unicode}.

(** The loop replaces, for each match in turn, every occurrence of the
    matched string in the text as it is by then. *)
Definition preserve_inline_math (text : pystr) : pystr :=
  let matches := findall no_flags math_pattern text in
  foldl (fun text match_ => replace match_ (s "$$ " ++ strip match_ ++ s " $$") text)
        text matches.

End Extractor.
End PDFTextExtractor.

(** ** main.py *)

Module Main.
Import Py NERProcessor MathExpressionExtractor TextSummarizer.

Record HTTPException := { status_code : Z; detail : pystr }.

Record AnalysisResponse := {
  text_content : pystr;
  highlighted_text : pystr;
  math_expressions : list pystr;
  named_entities : dict (list pystr);
  summary : pystr;
  page_count : Z;
  word_count : Z
}.

(** The processors of the module, each [None] when its constructor failed.
    [pdf_extractor] stands for writing the upload to a temporary file and
    [extract_text] on it: given the bytes of the upload it raises (with a
    message) or gives the text and the page count.  The extractor of
    mathematical expressions has no state of its own. *)
Record processors := {
  pdf_extractor : option (list Byte.byte -> pystr + pystr * Z);
  math_extractor : option unit;
  ner_processor : option NERProcessor;
  summarizer_ : option TextSummarizer
}.

(** [file.filename.lower().endswith('.pdf')] *)
Definition is_pdf `{Unicode} (filename : pystr) : bool :=
  startswith (reverse (lower filename)) (reverse (s ".pdf")).

Section Handlers.
Context `{Unicode}.
Variable app : processors.

(** [GET /health]: the status and the state of the four components. *)
Definition health_check : pystr * list (pystr * bool) :=
  let components_status :=
    [(s "pdf_extractor", bool_decide (is_Some (pdf_extractor app)));
     (s "math_extractor", bool_decide (is_Some (math_extractor app)));
     (s "ner_processor", bool_decide (is_Some (ner_processor app)));
     (s "summarizer", bool_decide (is_Some (summarizer_ app)))] in
  (if forallb snd components_status then s "healthy" else s "partial",
   components_status).

(** [POST /analyze].  The temporary file only carries the upload to the
    extractor, and its removal in [finally] does not change the answer. *)
Definition analyze_document (filename : pystr) (content : list Byte.byte)
  : HTTPException + AnalysisResponse :=
  if negb (is_pdf filename)
  then inl {| status_code := 400; detail := s "Only PDF files are supported" |}
  else
    match pdf_extractor app with
    | None =>
        inl {| status_code := 500; detail := s "PDF extraction service is not available" |}
    | Some extract_text =>
        match extract_text content with
        | inl e =>
            (* except Exception *)
            inl {| status_code := 500; detail := s "Error processing document: " ++ e |}
        | inr (text_content, page_count) =>
            if negb (nonempty (strip text_content))
            then (* raised inside the try block and passed on by except HTTPException *)
              inl {| status_code := 400; detail := s "No text found in the PDF" |}
            else
              (* Extract math expressions *)
              let math_expressions :=
                match math_extractor app with
                | Some _ => extract_expressions text_content
                | None => [s "Math extraction service not available"]
                end in
              (* Perform NER and highlight entities in text *)
              let '(named_entities, highlighted_text) :=
                match ner_processor app with
                | Some ner =>
                    (extract_entities ner text_content,
                     highlight_entities_in_text ner text_content)
                | None => ([(s "error", [s "NER service not available"])], text_content)
                end in
              (* Generate summary with key points and facts *)
              let summary :=
                match summarizer_ app with
                | Some summarizer =>
                    match generate_summary summarizer text_content 400 150 with
                    | Some summary => summary
                    | None =>
                        s "Summarization error: int too large to convert to float"
                    end
                | None => s "Summarization service not available"
                end in
              (* Calculate word count *)
              let word_count := len (Py.split text_content) in
              inr {| text_content := text_content;
                     highlighted_text := highlighted_text;
                     math_expressions := math_expressions;
                     named_entities := named_entities;
                     summary := summary;
                     page_count := page_count;
                     word_count := word_count |}
        end
    end.

End Handlers.
End Main.

(** * Vocabulary of the properties *)

Import Py Re NERProcessor MathExpressionExtractor TextSummarizer.
Import PDFTextExtractor Main.

Section Vocabulary.
Context `{Unicode}.

(** ** Lists and strings *)

(** Sorted by decreasing key. *)
Definition desc_sorted {A : Type} (key : A -> Z) (l : list A) : Prop :=
  Sorted (fun a b => key b <= key a) l.

Definition values_capped (n : nat) (d : dict (list pystr)) : Prop :=
  Forall (fun kv => (length (snd kv) <= n)%nat) d.

Definition substring (sub x : pystr) : Prop := exists pre post, x = pre ++ sub ++ post.

(** A string that neither starts nor ends with whitespace, and is not
    empty. *)
Definition tidy (x : pystr) : Prop :=
  exists c d, head x = Some c /\ last x = Some d /\ isspace c = false /\ isspace d = false.

(** ** Texts and collaborators of the examples *)

(** A text of 30 words in three sentences. *)
Definition thirty_words : pystr :=
  s "The quick brown fox jumps over the lazy dog near the river bank. A second sentence follows the first one with some more plain words. Then this one ends here.".

(** A text of 60 words, and a model that answers with a fixed sentence. *)
Definition sixty_words : pystr := thirty_words ++ s " " ++ thirty_words.

Definition fixed_model : TextSummarizer :=
  {| summarizer := Some (fun _ _ _ => Some (s "A fox jumps over a dog near the river.")) |}.

Definition failing_model : TextSummarizer :=
  {| summarizer := Some (fun _ _ _ => None) |}.

Definition no_model : TextSummarizer := {| summarizer := None |}.

(** Eight short sentences, one of them with a year. *)
Definition eight_sentences : pystr :=
  s "aa bb cc dd eeeeeeeee. ab bb cc dd eeeeeeeee. ac bb cc dd eeeeeeeee. in 2020 we saw a rise. ad bb cc dd eeeeeeeee. ae bb cc dd eeeeeeeee. af bb cc dd eeeeeeeee. ag bb cc dd eeeeeeeee.".

Definition paris_tagger : pystr -> pystr + list ent :=
  fun _ => inr [ {| start_char := 0; end_char := 5; ent_text := s "Paris"; label_ := s "GPE" |} ].

(** ** Summaries and facts *)

(** The return of the fallback that joins the chosen sentences and appends
    the facts. *)
Definition fallback_sentences_return (text : pystr) (max_length : Z)
    (r : pystr) : Prop :=
  exists fm, float_of_int max_length = Some fm /\
    let picked := take_sentences (SFmul prec emax fm float_0_7)
                    (by_importance (long_sentences text 20 4)) 0 in
    picked.1 <> [] /\
    r = join (s ". ") picked.1 ++ s "." ++ fallback_facts_text text max_length picked.2.

(** What a fact is: the whitespace-normalized window around the first
    occurrence of a match of one of [patterns], clamped to the text, and
    longer than [min_len]. *)
Definition fact_of_window (text : pystr) (window min_len : Z)
    (patterns : list re) (fact : pystr) : Prop :=
  exists pattern match_,
    pattern ∈ patterns /\ match_ ∈ findall icase pattern text /\
    let match_pos := find text match_ in
    let start := Z.max 0 (match_pos - window) in
    let end_ := Z.min (len text) (match_pos + len match_ + window) in
    0 <= match_pos <= len text /\
    0 <= start <= end_ /\ end_ <= len text /\
    fact = join (s " ") (Py.split (strip (slice text start end_))) /\
    min_len < len fact.

Definition is_fact (text fact : pystr) : Prop :=
  fact_of_window text 50 20 number_patterns fact
  \/ fact_of_window text 40 15 date_patterns fact.

(** The facts gathered so far: no fact twice, and each one a fact of the
    text. *)
Definition facts_ok (text : pystr) (facts : list pystr) : Prop :=
  NoDup facts /\ Forall (is_fact text) facts.

(** ** Chunks *)

(** The sentences of a text as [split_text_into_chunks] reads them: the
    pieces between runs of [.], [!] and [?], stripped, without the empty
    ones. *)
Definition sentences_of (text : pystr) : list pystr :=
  List.filter nonempty (map strip (Re.split no_flags sentence_end text)).

Definition join_run (run : list pystr) : pystr := join (s ". ") run.

(** Every sentence after the first was added to its chunk while the chunk
    so far plus the sentence did not pass the bound. *)
Definition appended_within (bound : Z) (run : list pystr) : Prop :=
  forall init sentence rest,
    run = init ++ sentence :: rest -> init <> [] ->
    len (join_run init) + len sentence <= bound.

(** A chunk was closed because its length plus that of the next sentence
    passed the bound. *)
Fixpoint closed_at_bound (bound : Z) (runs : list (list pystr)) : Prop :=
  match runs with
  | run :: ((next :: _) as runs') =>
      bound < len (join_run run) + len (default [] (head next))
      /\ closed_at_bound bound runs'
  | _ => True
  end.

(** The runs of sentences, chunk by chunk: [cur] is the chunk being
    filled. *)
Fixpoint pack (bound : Z) (cur : list pystr) (sentences : list pystr)
  : list (list pystr) :=
  match sentences with
  | [] => [cur]
  | sentence :: sentences' =>
      if len (join_run cur) + len sentence >? bound
      then cur :: pack bound [sentence] sentences'
      else pack bound (cur ++ [sentence]) sentences'
  end.

(** The last step of [split_text_into_chunks]. *)
Definition finish (state : list pystr * pystr) : list pystr :=
  let '(chunks, current_chunk) := state in
  if nonempty (strip current_chunk) then chunks ++ [strip current_chunk] else chunks.

(** ** Highlighted text *)

(** The text with ["**"] written before the character at [i] when [st i],
    and after the character that ends at [i + 1] when [en (i + 1)]; every
    character of the text is kept, in order. *)
Fixpoint mark_with (st en : Z -> bool) (i : Z) (text : pystr) : pystr :=
  match text with
  | [] => []
  | c :: text' =>
      (if st i then s "**" else []) ++ c ::
      (if en (i + 1) then s "**" else []) ++ mark_with st en (i + 1) text'
  end.

Definition starts_at (spans : list ent) (i : Z) : bool :=
  existsb (fun e => start_char e =? i) spans.

Definition ends_at (spans : list ent) (i : Z) : bool :=
  existsb (fun e => end_char e =? i) spans.

(** The text with the substring of every span wrapped in ["**"], and every
    character outside the spans unchanged. *)
Definition marked (spans : list ent) (text : pystr) : pystr :=
  mark_with (starts_at spans) (ends_at spans) 0 text.

(** A span computed against [text]: inside the text, and carrying the
    text between its offsets. *)
Definition span_of (text : pystr) (e : ent) : Prop :=
  0 <= start_char e <= end_char e /\ end_char e <= len text
  /\ ent_text e = slice text (start_char e) (end_char e).

(** A span that holds at least one character. *)
Definition nonempty_span_of (text : pystr) (e : ent) : Prop :=
  0 <= start_char e < end_char e /\ end_char e <= len text
  /\ ent_text e = slice text (start_char e) (end_char e).

Definition disjoint (e1 e2 : ent) : Prop :=
  end_char e1 <= start_char e2 \/ end_char e2 <= start_char e1.

Fixpoint pairwise_disjoint (spans : list ent) : Prop :=
  match spans with
  | [] => True
  | e :: spans' => Forall (disjoint e) spans' /\ pairwise_disjoint spans'
  end.

(** ** Expressions *)

(** The four reasons for which a cleaned candidate is turned down. *)
Definition rejected (cleaned : pystr) : Prop :=
  (len cleaned < 3 \/ 200 < len cleaned)
  \/ (forall symbol, symbol ∈ math_symbols -> symbol ∉ cleaned)
  \/ len (List.filter isalnum cleaned) < 2
  \/ (exists fp, fp ∈ MathExpressionExtractor.false_positives
                 /\ substring fp (lower cleaned)).

(** The number of whitespace characters at the head of a string. *)
Fixpoint ws_run (rs : pystr) : nat :=
  match rs with
  | c :: rs' => if isspace c then S (ws_run rs') else O
  | [] => O
  end.

(** The cursor after the whitespace at the head of [rs]. *)
Fixpoint after_ws (p : nat) (pv : option char) (rs : pystr) (g : option (nat * nat))
  : cursor :=
  match rs with
  | c :: rs' =>
      if isspace c then after_ws (S p) (Some c) rs' g
      else {| pos := p; prev := pv; rest := rs; grp := g |}
  | [] => {| pos := p; prev := pv; rest := []; grp := g |}
  end.

(** Every run of whitespace replaced by one space. *)
Fixpoint collapse_go (in_run : bool) (x : pystr) : pystr :=
  match x with
  | [] => []
  | c :: x' =>
      if isspace c
      then if in_run then collapse_go true x' else 32%N :: collapse_go true x'
      else c :: collapse_go false x'
  end.

Definition collapse_spaces (x : pystr) : pystr := collapse_go false x.

(** The rest of the text is whitespace followed by the closing [$$]. *)
Definition trailing (rs : pystr) : bool := bool_decide (lstrip rs = s "$$").

(** The text up to the trailing wrapper. *)
Fixpoint trail (rs : pystr) : pystr :=
  if trailing rs then []
  else match rs with
       | [] => []
       | c :: rs' => c :: trail rs'
       end.

(** Without the opening wrapper: the [$$] at the head of the text and the
    whitespace after it. *)
Definition strip_leading_dollars (w : pystr) : pystr :=
  if startswith w (s "$$") then lstrip (drop 2 w) else w.

Definition endswith (x sub : pystr) : bool := startswith (reverse x) (reverse sub).

(** Without the closing wrapper: the [$$] at the end of the text and the
    whitespace before it. *)
Definition strip_trailing_dollars (w : pystr) : pystr :=
  if endswith w (s "$$") then rstrip (take (length w - 2) w) else w.

Definition strip_dollars (w : pystr) : pystr :=
  strip_trailing_dollars (strip_leading_dollars w).

(** A character as it is written after cleaning: [*] (42) for the
    multiplication sign (0xD7), [/] (47) for the division sign (0xF7), and
    every other character unchanged. *)
Definition write_sign (c : char) : char :=
  if (c =? 0xD7)%N then 42%N else if (c =? 0xF7)%N then 47%N else c.

(** Cleaning as the specification words it: trim, collapse every run of
    whitespace to one space, strip the [$$] delimiters, and write [*] for
    the multiplication sign and [/] for the division sign. *)
Definition clean_expression_spec (expr : pystr) : pystr :=
  map write_sign (strip_dollars (collapse_spaces (strip expr))).

(** ** Entity dictionaries *)

(** The entries that [get_entity_statistics] counts. *)
Definition counted (entities : dict (list pystr)) : dict (list pystr) :=
  List.filter (fun kv => negb (str_eqb kv.1 (s "error"))) entities.

Definition sum_lengths (d : dict (list pystr)) : Z :=
  foldr (fun kv n => len kv.2 + n) 0 d.

(** Strictly before, in the order of [sorted]. *)
Definition str_lt (x y : pystr) : Prop := str_leb x y = true /\ x <> y.

(** [x] is the cleaned text of an entity of [ents] that passes
    [is_valid_entity]. *)
Definition cleaned_from (ents : list ent) (x : pystr) : Prop :=
  exists e, e ∈ ents /\ is_valid_entity (ent_text e) (label_ e) = true
            /\ x = clean_entity (ent_text e).

(** The key under which the entities of a tagger label are returned. *)
Definition readable_label (label : pystr) : pystr :=
  default label (dict_get label_mapping label).

(** [x] is the cleaned text of a valid entity of [ents] with the label
    [label], and no valid entity of that label before it in [ents] is
    alike to it: of the entities that are equal up to letter case, [x]
    comes from the first. *)
Definition first_alike (ents : list ent) (label x : pystr) : Prop :=
  exists pre e post,
    ents = pre ++ e :: post
    /\ is_valid_entity (ent_text e) (label_ e) = true
    /\ label_ e = label /\ x = clean_entity (ent_text e)
    /\ forall e', e' ∈ pre -> is_valid_entity (ent_text e') (label_ e') = true ->
                  label_ e' = label -> lower (clean_entity (ent_text e')) <> lower x.

(** A tagger that finds one city twice, in two letter cases. *)
Definition variants_tagger : pystr -> pystr + list ent :=
  fun _ => inr [ {| start_char := 0; end_char := 5; ent_text := s "Paris"; label_ := s "GPE" |};
                 {| start_char := 9; end_char := 14; ent_text := s "PARIS"; label_ := s "GPE" |} ].

(** Every string of every list of a dictionary satisfies [P]. *)
Definition values_all (P : pystr -> Prop) (d : dict (list pystr)) : Prop :=
  Forall (fun kv => Forall P kv.2) d.

(** A tagger that finds two cities, one of them twice. *)
Definition cities_tagger : pystr -> pystr + list ent :=
  fun _ => inr [ {| start_char := 0; end_char := 5; ent_text := s "Paris"; label_ := s "GPE" |};
                 {| start_char := 10; end_char := 16; ent_text := s "Berlin"; label_ := s "GPE" |};
                 {| start_char := 23; end_char := 28; ent_text := s "Paris"; label_ := s "GPE" |} ].

(** A service that reads two words on one page out of every upload. *)
Definition two_word_reader : processors :=
  {| pdf_extractor := Some (fun _ => inr (s "Hello world", 1));
     math_extractor := Some tt;
     ner_processor := None;
     summarizer_ := None |}.

(** ** Extracted expressions *)

(** [e] is the cleaned form of a valid match of one of the patterns. *)
Definition expression_of (text e : pystr) : Prop :=
  exists pattern match_,
    pattern ∈ patterns /\ match_ ∈ findall re_flags pattern text
    /\ is_valid_math_expression match_ = true /\ e = clean_expression match_.

(** What cleaning and validation leave of an expression. *)
Definition well_formed_expression (e : pystr) : Prop :=
  3 <= len e <= 200
  /\ (exists symbol, symbol ∈ math_symbols /\ symbol ∈ e)
  /\ 2 <= len (List.filter isalnum e)
  /\ (0xD7%N ∉ e) /\ (0xF7%N ∉ e).

(** [f] is the item that [extract_formulas_with_context] makes of a match
    of one of the patterns whose text is valid: the cleaned match, its
    offset, and the stripped window of [context_chars] characters on each
    side, clamped to the text. *)
Definition formula_of (text : pystr) (context_chars : Z) (f : formula) : Prop :=
  exists pattern h,
    pattern ∈ patterns /\ h ∈ finditer re_flags pattern text
    /\ is_valid_math_expression (group0 text h) = true
    /\ expression f = clean_expression (group0 text h)
    /\ position f = Z.of_nat (h_start h)
    /\ context f = strip (slice text (Z.max 0 (Z.of_nat (h_start h) - context_chars))
                                    (Z.min (len text) (Z.of_nat (h_end h) + context_chars))).

(** The pattern for mathematical functions, the eighth of [patterns]. *)
Definition function_pattern : re :=
  seq_ [Group (alt_ (map lit ["sin"; "cos"; "tan"; "log"; "ln"; "exp"; "sqrt";
                              "abs"; "max"; "min"; "lim"]%string));
        star ws; lit "("; plus equation_set; lit ")"].

(** Outside ASCII, no symbol of [math_symbols] and neither the
    multiplication nor the division sign has an ASCII character as its
    lower case; in particular none of them matches an ASCII letter when
    case is ignored. *)
Definition symbols_are_caseless : Prop :=
  Forall (fun c => is_ascii c = false -> is_ascii (u_tolower c) = false)
         (0xD7%N :: 0xF7%N :: math_symbols).

(** ** Runs of characters *)

(** The number of characters accepted by [ok] at the head of a string. *)
Fixpoint run_length (ok : char -> bool) (rs : pystr) : nat :=
  match rs with
  | c :: rs' => if ok c then S (run_length ok rs') else O
  | [] => O
  end.

(** Every maximal run of characters accepted by [ok] replaced by [repl]. *)
Fixpoint replace_runs (ok : char -> bool) (repl : pystr) (in_run : bool) (x : pystr)
  : pystr :=
  match x with
  | [] => []
  | c :: x' =>
      if ok c
      then if in_run then replace_runs ok repl true x'
           else repl ++ replace_runs ok repl true x'
      else c :: replace_runs ok repl false x'
  end.

(** [c] put before the first string of a list, and [w] before it. *)
Definition push (c : char) (l : list pystr) : list pystr :=
  match l with f :: fs => (c :: f) :: fs | [] => [[c]] end.
Definition prepend (w : pystr) (l : list pystr) : list pystr :=
  match l with f :: fs => (w ++ f) :: fs | [] => [w] end.

(** The pieces of a string between the maximal runs of characters accepted
    by [ok]; a run at an end of the string leaves an empty piece there. *)
Fixpoint fields (ok : char -> bool) (in_run : bool) (x : pystr) : list pystr :=
  match x with
  | [] => [[]]
  | c :: x' =>
      if ok c
      then if in_run then fields ok true x' else [] :: fields ok true x'
      else push c (fields ok false x')
  end.

(** What a set [[...]] or [[^...]] accepts. *)
Definition set_accepts (fl : flags) (neg : bool) (items : list item) (c : char) : bool :=
  xorb neg (existsb (item_matches fl c) items).

(** ** Words and sentences *)

(** Equal up to the case of the letters. *)
Definition alike (x y : pystr) : Prop := lower x = lower y.

(** [run] stands in [ws], words in a row, and its words are all alike. *)
Definition run_of_alike (ws run : list pystr) : Prop :=
  (exists pre post, ws = pre ++ run ++ post)
  /\ forall x y, x ∈ run -> y ∈ run -> alike x y.

(** A word: not empty, and without whitespace. *)
Definition is_word (w : pystr) : Prop :=
  w <> [] /\ Forall (fun c => isspace c = false) w.

(** The number of words at the head of [ws] that are alike to [p]. *)
Fixpoint lead (p : pystr) (ws : list pystr) : nat :=
  match ws with
  | w :: ws' => if str_eqb (lower w) (lower p) then S (lead p ws') else O
  | [] => O
  end.

(** After each word at most two words alike to it follow in a row. *)
Fixpoint capped (ws : list pystr) : Prop :=
  match ws with
  | [] => True
  | w :: ws' => (lead w ws' <= 2)%nat /\ capped ws'
  end.

(** The number of characters of the strings of a list. *)
Definition total_len (l : list pystr) : Z := foldr (fun x n => len x + n) 0 l.

(** The sum of the boosts of [importance_indicators], and the boosts for a
    number and for a date. *)
Definition all_boosts : Z := foldr Z.add 0 (importance_indicators.*2) + 8 + 5.

(** ** Cursors *)

(** [y] is a cursor further on in the text that [x] reads. *)
Definition further (x y : cursor) : Prop :=
  (pos x <= pos y)%nat /\ (pos y + length (rest y) = pos x + length (rest x))%nat.

(** [y] is the cursor [x] after reading the characters [cs]. *)
Definition reads (x : cursor) (cs : pystr) (y : cursor) : Prop :=
  rest x = cs ++ rest y /\ pos y = (pos x + length cs)%nat.

Definition reaches (x y : cursor) : Prop := exists cs, reads x cs y.

End Vocabulary.

(** * Properties *)

(** ** Lists, lengths and slices *)

Lemma gtb_false (n m : Z) : (n >? m) = false -> n <= m.
Proof. rewrite Z.gtb_ltb. apply Z.ltb_ge. Qed.

Lemma gtb_true (n m : Z) : (n >? m) = true -> m < n.
Proof. rewrite Z.gtb_ltb. apply Z.ltb_lt. Qed.

Lemma len_nonneg {A} (x : list A) : 0 <= len x.
Proof. unfold len. lia. Qed.

Lemma len_app {A} (x y : list A) : len (x ++ y) = len x + len y.
Proof. unfold len. rewrite length_app. lia. Qed.

Lemma len_nil {A} : len (@nil A) = 0.
Proof. reflexivity. Qed.

Lemma len_cons {A} (a : A) (x : list A) : len (a :: x) = 1 + len x.
Proof. unfold len. simpl length. lia. Qed.

Lemma len_take_le {A} (n : nat) (x : list A) : len (take n x) <= Z.of_nat n.
Proof. unfold len. rewrite length_take. lia. Qed.

Lemma slice_index_bounds (n i : Z) : 0 <= n -> 0 <= slice_index n i <= n.
Proof. unfold slice_index. intros Hn. destruct (i <? 0) eqn:E; lia. Qed.

Lemma slice_index_in_range (n i : Z) : 0 <= i <= n -> slice_index n i = i.
Proof.
  unfold slice_index. intros Hi.
  destruct (i <? 0) eqn:E; [apply Z.ltb_lt in E|]; lia.
Qed.

(** With both bounds inside the text a slice is the plain sub-list. *)
Lemma slice_in_range {A} (x : list A) (lo hi : Z) :
  0 <= lo <= len x -> 0 <= hi <= len x ->
  slice x lo hi = drop (Z.to_nat lo) (take (Z.to_nat hi) x).
Proof.
  intros Hlo Hhi. unfold slice. by rewrite !slice_index_in_range.
Qed.

Lemma slice_to_in_range {A} (x : list A) (hi : Z) :
  0 <= hi <= len x -> slice_to x hi = take (Z.to_nat hi) x.
Proof.
  intros Hhi. unfold slice_to. rewrite slice_in_range; [done | |done].
  pose proof (len_nonneg x). lia.
Qed.

Lemma slice_from_in_range {A} (x : list A) (lo : Z) :
  0 <= lo <= len x -> slice_from x lo = drop (Z.to_nat lo) x.
Proof.
  intros Hlo. unfold slice_from. rewrite slice_in_range; [|done|].
  - unfold len. by rewrite Nat2Z.id, firstn_all.
  - pose proof (len_nonneg x). lia.
Qed.

(** [x[:hi]] has at most [hi] characters when [hi] is not negative. *)
Lemma len_slice_to_le {A} (x : list A) (hi : Z) : 0 <= hi -> len (slice_to x hi) <= hi.
Proof.
  intros Hhi. unfold slice_to, slice.
  pose proof (len_nonneg x) as Hx.
  unfold slice_index at 1. simpl (0 <? 0). cbv iota.
  rewrite Z.min_l by done. simpl (Z.to_nat 0). rewrite drop_0.
  etrans; [apply len_take_le|].
  rewrite Z2Nat.id by (apply slice_index_bounds; done).
  unfold slice_index. destruct (hi <? 0) eqn:E; [apply Z.ltb_lt in E|]; lia.
Qed.

Lemma elem_of_slice {A} (x : list A) (lo hi : Z) (a : A) : a ∈ slice x lo hi -> a ∈ x.
Proof.
  unfold slice. intros Ha.
  by eapply subseteq_take, subseteq_drop.
Qed.

(** ** Sorting *)

Section SortFacts.
Context {A : Type} (key : A -> Z).

Lemma insert_desc_perm (x : A) (l : list A) : insert_desc key x l ≡ₚ x :: l.
Proof.
  induction l as [|y l IH]; simpl; [done|].
  destruct (key y <=? key x); [done|].
  rewrite IH. apply Permutation_swap.
Qed.

Lemma sort_desc_perm (l : list A) : sort_desc key l ≡ₚ l.
Proof.
  induction l as [|x l IH]; simpl; [done|].
  by rewrite insert_desc_perm, IH.
Qed.

Lemma insert_asc_perm (x : A) (l : list A) : insert_asc key x l ≡ₚ x :: l.
Proof.
  induction l as [|y l IH]; simpl; [done|].
  destruct (key x <=? key y); [done|].
  rewrite IH. apply Permutation_swap.
Qed.

Lemma sort_asc_perm (l : list A) : sort_asc key l ≡ₚ l.
Proof.
  induction l as [|x l IH]; simpl; [done|].
  by rewrite insert_asc_perm, IH.
Qed.

Lemma insert_desc_hd (x a : A) (l : list A) :
  HdRel (fun a b => key b <= key a) a l -> key x <= key a ->
  HdRel (fun a b => key b <= key a) a (insert_desc key x l).
Proof.
  intros Hl Hx. destruct l as [|y l]; simpl; [by constructor|].
  destruct (key y <=? key x); constructor; [done|].
  by inversion Hl.
Qed.

Lemma insert_desc_sorted (x : A) (l : list A) :
  desc_sorted key l -> desc_sorted key (insert_desc key x l).
Proof.
  unfold desc_sorted. induction 1 as [|y l Hl IH Hhd]; simpl.
  - repeat constructor.
  - destruct (key y <=? key x) eqn:E.
    + apply Z.leb_le in E. constructor; [by constructor|]. by constructor.
    + apply Z.leb_gt in E. constructor; [done|].
      apply insert_desc_hd; [done|lia].
Qed.

Lemma sort_desc_sorted (l : list A) : desc_sorted key (sort_desc key l).
Proof.
  induction l as [|x l IH]; simpl; [constructor|].
  by apply insert_desc_sorted.
Qed.

End SortFacts.

(** ** Entity highlighting and extraction: failures and caps *)

(** C10. When the tagger is unavailable ([nlp] is [None]), or the tagger
    raises on the text, [highlight_entities_in_text] returns the input text
    unchanged. *)
Theorem highlight_failure_returns_text `{Unicode} (self : NERProcessor) (text : pystr) :
  nlp self = None
  \/ (exists tagger message, nlp self = Some tagger /\ tagger text = inl message) ->
  highlight_entities_in_text self text = text.
Proof.
  unfold highlight_entities_in_text.
  intros [Hnone | (tagger & message & Hsome & Hraise)].
  - by rewrite Hnone.
  - by rewrite Hsome, Hraise.
Qed.

Lemma highlight_failure_returns_text_witness :
  let broken := {| nlp := Some (fun _ => inl (s "tagger failed")) |} in
  highlight_entities_in_text {| nlp := None |} (s "Paris is great") = s "Paris is great"
  /\ highlight_entities_in_text broken (s "Paris is great") = s "Paris is great".
Proof.
  split.
  - apply highlight_failure_returns_text. by left.
  - apply highlight_failure_returns_text. right.
    exists (fun _ => inl (s "tagger failed")), (s "tagger failed"). by split.
Defined.

Lemma dict_set_capped (n : nat) (d : dict (list pystr)) (key : pystr) (v : list pystr) :
  values_capped n d -> (length v <= n)%nat -> values_capped n (dict_set d key v).
Proof.
  unfold values_capped. intros Hd Hv.
  induction Hd as [|[k w] d Hw Hd IH]; simpl.
  - by repeat constructor.
  - destruct (str_eqb k key); constructor; auto.
Qed.

Lemma rename_capped (n : nat) (l acc : dict (list pystr)) :
  values_capped n l -> values_capped n acc ->
  values_capped n
    (foldl (fun readable_entities kv =>
              dict_set readable_entities
                (default (fst kv) (dict_get label_mapping (fst kv))) (snd kv))
           acc l).
Proof.
  intros Hl. revert acc.
  induction Hl as [|kv l Hkv Hl IH]; simpl; intros acc Hacc; [done|].
  apply IH. by apply dict_set_capped.
Qed.

Lemma sorted_top20_length (l : list pystr) : (length (sorted_top20 l) <= 20)%nat.
Proof. unfold sorted_top20. rewrite length_take. lia. Qed.

Lemma extract_entities_capped `{Unicode} (self : NERProcessor) (text : pystr) :
  values_capped 20 (extract_entities self text).
Proof.
  unfold extract_entities.
  destruct (nlp self) as [tagger|].
  - destruct (tagger text) as [e|ents].
    + constructor; [simpl; lia | constructor].
    + apply rename_capped; [|constructor].
      apply Forall_map, Forall_forall. intros kv _. apply sorted_top20_length.
  - constructor; [simpl; lia | constructor].
Qed.

(** ** Expression extraction: caps and duplicates *)

(** C7. [extract_expressions] returns at most 50 items,
    [extract_formulas_with_context] at most 30, and every list of the
    dictionary returned by [extract_entities] has at most 20 entries. *)
Theorem output_caps `{Unicode} (self : NERProcessor) (text : pystr) (context_chars : Z) :
  (length (extract_expressions text) <= 50)%nat
  /\ (length (extract_formulas_with_context text context_chars) <= 30)%nat
  /\ values_capped 20 (extract_entities self text).
Proof.
  split; [|split].
  - unfold extract_expressions. rewrite length_take. lia.
  - unfold extract_formulas_with_context. rewrite length_take. lia.
  - apply extract_entities_capped.
Qed.

Lemma extract_expressions_NoDup `{Unicode} (text : pystr) :
  NoDup (extract_expressions text).
Proof.
  unfold extract_expressions.
  eapply sublist_NoDup; [|apply sublist_take].
  rewrite sort_desc_perm. apply NoDup_elements.
Qed.

(** C8 (amended). The list returned by [extract_expressions] never holds
    the same string twice.  For the text ["E = mc^2. E = mc^2."] the greedy
    equation pattern matches the whole text at once, so the output is the
    whole text and the power ["mc^2"], each once; ["E = mc^2"] alone is not
    an element of it. *)
Theorem extract_expressions_no_duplicates :
  (forall (U : Unicode) (text : pystr), NoDup (extract_expressions text))
  /\ extract_expressions (s "E = mc^2. E = mc^2.")
     = [s "E = mc^2. E = mc^2."; s "mc^2"].
Proof.
  split.
  - intros U text. apply extract_expressions_NoDup.
  - by vm_compute.
Qed.

(** C8 as stated fails: ["E = mc^2"] does not appear exactly once in the
    output for ["E = mc^2. E = mc^2."]; it does not appear at all. *)
Lemma emc2_not_in_output :
  length (List.filter (fun e => str_eqb e (s "E = mc^2"))
            (extract_expressions (s "E = mc^2. E = mc^2."))) <> 1%nat.
Proof. by vm_compute. Qed.

(** ** Summaries: the length budget *)

Lemma len_truncated (x : pystr) (max_length : Z) :
  3 <= max_length -> len (slice_to x (max_length - 3) ++ s "...") <= max_length.
Proof.
  intros HM. rewrite len_app.
  pose proof (len_slice_to_le x (max_length - 3)) as Hle.
  change (len (s "...")) with 3. lia.
Qed.

(** The combination cascade stays within [max_length]. *)
Lemma create_comprehensive_summary_budget `{Unicode}
    (summaries key_points facts : list pystr) (max_length : Z) :
  3 <= max_length ->
  len (create_comprehensive_summary summaries key_points facts max_length) <= max_length.
Proof.
  intros HM. unfold create_comprehensive_summary.
  match goal with
  | |- context [join (s " | ") ?parts] => generalize parts as result_parts
  end.
  intros result_parts.
  destruct (len (join (s " | ") result_parts) >? max_length) eqn:Hover.
  - destruct result_parts as [|part0 [|part1 rest]]; try by apply len_truncated.
    clear Hover.
    destruct (len part0 + len part1 <? max_length);
      (match goal with
       | |- len (if ?c then _ else _) <= _ => destruct c eqn:Hlong
       end; [by apply len_truncated|]).
    all: by apply gtb_false.
  - by apply gtb_false.
Qed.

Lemma fallback_cases `{Unicode} (text : pystr) (max_length : Z) (r : pystr) :
  3 <= max_length ->
  _comprehensive_fallback_summary text max_length = Some r ->
  len r <= max_length \/ r = unable_message \/ fallback_sentences_return text max_length r.
Proof.
  intros HM. unfold _comprehensive_fallback_summary, fallback_sentences_return.
  destruct (long_sentences text 20 4) as [|first others] eqn:Hsent.
  - intros [= <-]. auto.
  - destruct (float_of_int max_length) as [fm|]; [|done].
    destruct (take_sentences _ _ 0) as [summary_sentences current_length] eqn:Htake.
    destruct summary_sentences as [|sentence chosen]; simpl nonempty; cbv iota.
    + intros [= <-]. left. by apply len_truncated.
    + intros [= <-]. right; right. exists fm. split; [done|].
      rewrite Htake. simpl. done.
Qed.

(** C1 (amended). For [max_length >= 3] the summary is within the budget
    whenever it comes out of the combination cascade
    ([create_comprehensive_summary]) or is the fallback's truncated first
    sentence.  The two literal messages are returned as they are, whatever
    [max_length] is: they have 44 and 50 characters.  The remaining return,
    the fallback's joined sentences with facts, is not bounded here. *)
Theorem generate_summary_budget `{Unicode} (self : TextSummarizer) (text : pystr)
    (max_length min_length : Z) (r : pystr) :
  3 <= max_length ->
  generate_summary self text max_length min_length = Some r ->
  len r <= max_length
  \/ (r = too_short_message /\ len r = 44)
  \/ (r = unable_message /\ len r = 50)
  \/ fallback_sentences_return text max_length r.
Proof.
  intros HM. unfold generate_summary.
  assert (Hfb : _comprehensive_fallback_summary text max_length = Some r ->
                len r <= max_length
                \/ (r = too_short_message /\ len r = 44)
                \/ (r = unable_message /\ len r = 50)
                \/ fallback_sentences_return text max_length r).
  { intros Hr. destruct (fallback_cases _ _ _ HM Hr) as [?|[->|?]]; auto. }
  destruct (summarizer self) as [model|]; [|done].
  destruct (len (Py.split (clean_text_for_summarization text)) <? 50).
  { intros [= <-]. right; left. done. }
  destruct (len (clean_text_for_summarization text) >? 900).
  - destruct (summarize_chunks _ _ _ _ _) as [chunk_summaries factual_content].
    destruct (nonempty chunk_summaries); [|done].
    intros [= <-]. left. by apply create_comprehensive_summary_budget.
  - destruct (model _ _ _) as [summary_text|]; [|done].
    intros [= <-]. left. by apply create_comprehensive_summary_budget.
Qed.

Lemma generate_summary_budget_witness :
  let r := s "SUMMARY: A fox jumps over a dog near ..." in
  generate_summary fixed_model sixty_words 40 20 = Some r /\ len r <= 40.
Proof.
  intros r.
  assert (Hrun : generate_summary fixed_model sixty_words 40 20 = Some r) by by vm_compute.
  split; [done|].
  destruct (generate_summary_budget fixed_model sixty_words 40 20 r) as [Hle|[Hm|[Hm|Hm]]];
    [lia | exact Hrun | exact Hle | | | ].
  - destruct Hm as [Hm _]. by vm_compute in Hm.
  - destruct Hm as [Hm _]. by vm_compute in Hm.
  - by vm_compute.
Defined.

(** C1 as stated fails: with [max_length = 10] the empty text gets the
    44-character message when a model is loaded, and the 50-character
    message when none is. *)
Lemma literal_messages_over_budget :
  (exists r, generate_summary failing_model [] 10 0 = Some r /\ 10 < len r)
  /\ (exists r, generate_summary no_model [] 10 0 = Some r /\ 10 < len r).
Proof.
  split.
  - exists too_short_message. by vm_compute.
  - exists unable_message. by vm_compute.
Qed.

(** The return left out of C1: the fallback counts the lengths of the
    sentences it chooses, not the [". "] it puts between them.  With eight
    sentences and one fact, [max_length = 292] gives 296 characters. *)
Example fallback_sentences_over_budget :
  exists r, generate_summary no_model eight_sentences 292 100 = Some r
            /\ fallback_sentences_return eight_sentences 292 r
            /\ len r = 296.
Proof.
  eexists. split; [by vm_compute|]. split; [|by vm_compute].
  eexists. split; [by vm_compute|]. split; by vm_compute.
Qed.

(** ** Summaries: the short-text message *)

(** C2 (amended). When a summarization model is loaded, every text whose
    cleaned form has fewer than 50 words gets the literal message
    ["Text too short for meaningful summarization."].  Without a model the
    word count is not looked at: the fallback summary is returned. *)
Theorem short_text_with_model `{Unicode} (model : pystr -> Z -> Z -> option pystr)
    (text : pystr) (max_length min_length : Z) :
  len (Py.split (clean_text_for_summarization text)) < 50 ->
  generate_summary {| summarizer := Some model |} text max_length min_length
  = Some too_short_message.
Proof.
  intros Hshort. unfold generate_summary. simpl summarizer.
  apply Z.ltb_lt in Hshort. by rewrite Hshort.
Qed.

Lemma short_text_with_model_witness :
  len (Py.split (clean_text_for_summarization thirty_words)) < 50
  /\ generate_summary failing_model thirty_words 300 150 = Some too_short_message.
Proof.
  split; [by vm_compute|].
  apply (short_text_with_model (fun _ _ _ => None) thirty_words 300 150).
  by vm_compute.
Defined.

(** C2 as stated fails: the 30-word text, with [max_length = 300],
    [min_length = 150] and no model, does not get the literal message; its
    three sentences come back as the fallback summary. *)
Lemma short_text_without_model :
  len (Py.split thirty_words) = 30
  /\ len (Py.split (clean_text_for_summarization thirty_words)) < 50
  /\ generate_summary no_model thirty_words 300 150 = Some thirty_words
  /\ generate_summary no_model thirty_words 300 150 <> Some too_short_message.
Proof. repeat split; by vm_compute. Qed.

(** ** Fact extraction *)

Lemma find_from_bounds (x sub : pystr) (i : Z) :
  find_from x sub i = -1 \/ i <= find_from x sub i <= i + len x.
Proof.
  revert i. induction x as [|c x IH]; intros i; cbn [find_from].
  - destruct (startswith [] sub); [right|left; done]. rewrite len_nil. lia.
  - destruct (startswith (c :: x) sub).
    + right. pose proof (len_nonneg (c :: x)). lia.
    + destruct (IH (i + 1)) as [->|Hb]; [by left|right].
      rewrite len_cons. lia.
Qed.

Section FactLoop.
Context `{Unicode}.
Variables (text : pystr) (window min_len : Z) (patterns : list re).
Hypothesis window_nonneg : 0 <= window.
Hypothesis window_is_fact :
  forall fact, fact_of_window text window min_len patterns fact -> is_fact text fact.

Lemma add_facts_ok (pattern : re) (matches facts : list pystr) :
  pattern ∈ patterns ->
  (forall match_, match_ ∈ matches -> match_ ∈ findall icase pattern text) ->
  facts_ok text facts -> facts_ok text (add_facts text window min_len facts matches).
Proof.
  intros Hpat. unfold add_facts. revert facts.
  induction matches as [|match_ matches IH]; intros facts Hall Hok; simpl; [done|].
  apply IH; [intros m Hm; apply Hall; by right|].
  destruct (find text match_ =? -1) eqn:Hpos; [done|].
  apply Z.eqb_neq in Hpos.
  destruct (len (fact_context text match_ (find text match_) window) >? min_len) eqn:Hlen;
    simpl; [|done].
  unfold mem. case_bool_decide as Hin; simpl; [done|].
  destruct Hok as [Hnodup Hfacts]. split.
  - apply NoDup_app. split; [done|]. split; [|apply NoDup_singleton].
    intros x Hx ->%list_elem_of_singleton. done.
  - apply Forall_app. split; [done|]. constructor; [|constructor].
    apply window_is_fact. exists pattern, match_.
    split; [done|]. split; [apply Hall; by left|].
    pose proof (find_from_bounds text match_ 0) as [Hb|Hb]; [done|].
    fold (find text match_) in Hb.
    pose proof (len_nonneg match_). pose proof (len_nonneg text).
    cbv zeta. split; [lia|]. split; [lia|]. split; [lia|].
    split; [done|]. by apply gtb_true.
Qed.

Lemma add_patterns_ok (pats : list re) (facts : list pystr) :
  pats ⊆ patterns -> facts_ok text facts ->
  facts_ok text (foldl (fun facts pattern =>
                     add_facts text window min_len facts (findall icase pattern text))
                  facts pats).
Proof.
  revert facts. induction pats as [|pattern pats IH]; intros facts Hsub Hok; simpl; [done|].
  apply IH; [set_solver|].
  apply (add_facts_ok pattern); [set_solver|done|done].
Qed.

End FactLoop.

Lemma all_facts_ok `{Unicode} (text : pystr) : facts_ok text (all_facts text).
Proof.
  unfold all_facts.
  apply (add_patterns_ok text 40 15 date_patterns); [lia|by right|done|].
  apply (add_patterns_ok text 50 20 number_patterns); [lia|by left|done|].
  split; constructor.
Qed.

Lemma facts_clamped `{Unicode} (text : pystr) :
  (length (extract_facts_and_figures text) <= 10)%nat
  /\ NoDup (extract_facts_and_figures text)
  /\ Forall (is_fact text) (extract_facts_and_figures text).
Proof.
  unfold extract_facts_and_figures.
  destruct (all_facts_ok text) as [Hnodup Hfacts].
  split; [rewrite length_take; lia|]. split.
  - eapply sublist_NoDup; [done|apply sublist_take].
  - by apply Forall_take.
Qed.

(** C9. For every text [extract_facts_and_figures] returns a list (no slice
    can fail, whether a match stands at offset 0 or at the end): at most 10
    facts, no fact twice, and each fact is the whitespace-normalized window
    of 50 characters (numbers) or 40 characters (dates) on each side of the
    matched string, clamped to [0, len text], and longer than 20 (numbers)
    or 15 (dates) characters.  So for a text with a year at offset 0 and a
    date at its very end: the windows of both are cut at the ends of the
    text, and both facts are returned. *)
Theorem facts_windows_clamped :
  (forall (U : Unicode) (text : pystr),
     (length (extract_facts_and_figures text) <= 10)%nat
     /\ NoDup (extract_facts_and_figures text)
     /\ Forall (is_fact text) (extract_facts_and_figures text))
  /\ extract_facts_and_figures
       (s "2020 was a very good year and all was over by 12/05/2021")
     = [s "2020 was a very good year and all was over by 12/05/20";
        s "20 was a very good year and all was over by 12/05/2021";
        s "as a very good year and all was over by 12/05/2021"].
Proof.
  split.
  - intros U text. apply facts_clamped.
  - by vm_compute.
Qed.

(** ** Whitespace: [strip] and [split] *)

Section Whitespace.
Context `{Unicode}.

Lemma lstrip_head (x : pystr) (c : char) :
  head x = Some c -> isspace c = false -> lstrip x = x.
Proof. destruct x as [|a x]; simpl; [done|]. by intros [= ->] ->. Qed.

Lemma lstrip_head_nonspace (x : pystr) (c : char) :
  head (lstrip x) = Some c -> isspace c = false.
Proof.
  induction x as [|a x IH]; simpl; [done|].
  destruct (isspace a) eqn:Ha; [done|]. simpl. by intros [= <-].
Qed.

Lemma lstrip_suffix (x : pystr) : exists spaces, x = spaces ++ lstrip x.
Proof.
  induction x as [|a x [spaces IH]]; simpl; [by exists []|].
  destruct (isspace a).
  - exists (a :: spaces). simpl. by rewrite <- IH.
  - by exists [].
Qed.

Lemma rstrip_last (x : pystr) (d : char) :
  last x = Some d -> isspace d = false -> rstrip x = x.
Proof.
  intros Hlast Hd. unfold rstrip.
  rewrite (lstrip_head (reverse x) d); [apply reverse_involutive| |done].
  by rewrite head_reverse.
Qed.

Lemma rstrip_last_nonspace (x : pystr) (d : char) :
  last (rstrip x) = Some d -> isspace d = false.
Proof.
  unfold rstrip. rewrite last_reverse. apply lstrip_head_nonspace.
Qed.

Lemma rstrip_prefix (x : pystr) : exists spaces, x = rstrip x ++ spaces.
Proof.
  unfold rstrip. destruct (lstrip_suffix (reverse x)) as [spaces Hx].
  exists (reverse spaces). rewrite <- reverse_app, <- Hx. by rewrite reverse_involutive.
Qed.

Lemma tidy_strip (x : pystr) : tidy x -> strip x = x.
Proof.
  intros (c & d & Hc & Hd & Hcs & Hds). unfold strip.
  rewrite (lstrip_head x c) by done. by apply (rstrip_last x d).
Qed.

Lemma strip_tidy (x : pystr) : strip x <> [] -> tidy (strip x).
Proof.
  unfold strip. intros Hne.
  destruct (rstrip_prefix (lstrip x)) as [spaces Hx].
  destruct (rstrip (lstrip x)) as [|c y] eqn:Hy; [done|].
  destruct (last (c :: y)) as [d|] eqn:Hd; [|by apply last_None in Hd].
  exists c, d. split; [done|]. split; [done|]. split.
  - apply (lstrip_head_nonspace x). by rewrite Hx.
  - apply (rstrip_last_nonspace (lstrip x)). by rewrite Hy.
Qed.

Lemma tidy_nonempty (x : pystr) : tidy x -> x <> [].
Proof. intros (c & d & Hc & _) ->. done. Qed.

(** Joining two tidy strings around any separator gives a tidy string. *)
Lemma tidy_app (x sep y : pystr) : tidy x -> tidy y -> tidy (x ++ sep ++ y).
Proof.
  intros (c & _ & Hc & _ & Hcs & _) (_ & d & _ & Hd & _ & Hds).
  exists c, d. split; [|split; [|done]].
  - destruct x; [done|]. done.
  - rewrite !last_app, Hd. done.
Qed.

End Whitespace.

(** ** Chunks *)

Section Chunks.
Context `{Unicode}.

Lemma join_run_snoc (cur : list pystr) (sentence : pystr) :
  cur <> [] -> join_run (cur ++ [sentence]) = join_run cur ++ s ". " ++ sentence.
Proof.
  unfold join_run. induction cur as [|x cur IH]; [done|]. intros _.
  destruct cur as [|y cur]; [done|].
  change (join (s ". ") ((x :: y :: cur) ++ [sentence]))
    with (x ++ s ". " ++ join (s ". ") ((y :: cur) ++ [sentence])).
  rewrite IH by done.
  change (join (s ". ") (x :: y :: cur)) with (x ++ s ". " ++ join (s ". ") (y :: cur)).
  by rewrite <- !app_assoc.
Qed.

Lemma join_run_tidy (cur : list pystr) :
  cur <> [] -> Forall tidy cur -> tidy (join_run cur).
Proof.
  unfold join_run. induction cur as [|x cur IH]; [done|]. intros _ Hall.
  apply Forall_cons in Hall as [Hx Hcur].
  destruct cur as [|y cur]; [done|].
  change (join (s ". ") (x :: y :: cur)) with (x ++ s ". " ++ join (s ". ") (y :: cur)).
  apply tidy_app; [done|]. by apply IH.
Qed.

Lemma nonempty_true {A} (l : list A) : l <> [] -> nonempty l = true.
Proof. by destruct l. Qed.

Lemma nonempty_false {A} (l : list A) : nonempty l = false -> l = [].
Proof. by destruct l. Qed.

Lemma sentences_of_cons (raw : pystr) (raws : list pystr) :
  List.filter nonempty (map strip (raw :: raws))
  = if nonempty (strip raw) then strip raw :: List.filter nonempty (map strip raws)
    else List.filter nonempty (map strip raws).
Proof. done. Qed.

(** The loop of the source, once a chunk is open, computes [pack]. *)
Lemma chunk_loop_pack (bound : Z) (raws : list pystr) (cur : list pystr)
    (chunks : list pystr) :
  cur <> [] -> Forall tidy cur ->
  finish (chunk_loop bound raws (join_run cur) chunks)
  = chunks ++ map join_run (pack bound cur (List.filter nonempty (map strip raws))).
Proof.
  revert cur chunks.
  induction raws as [|raw raws IH]; intros cur chunks Hne Htidy.
  - simpl. rewrite (tidy_strip _ (join_run_tidy cur Hne Htidy)).
    rewrite nonempty_true; [done|]. by apply tidy_nonempty, join_run_tidy.
  - rewrite sentences_of_cons. cbn [chunk_loop].
    destruct (nonempty (strip raw)) eqn:Hraw; cbn [negb]; cbv iota; [|by apply IH].
    assert (Hsent : tidy (strip raw)).
    { apply strip_tidy. intros Hnil. by rewrite Hnil in Hraw. }
    cbn [pack].
    rewrite (nonempty_true (join_run cur)) by by apply tidy_nonempty, join_run_tidy.
    rewrite andb_true_r.
    destruct (len (join_run cur) + len (strip raw) >? bound).
    + rewrite (tidy_strip _ (join_run_tidy cur Hne Htidy)).
      change (strip raw) with (join_run [strip raw]) at 1.
      rewrite IH; [|done|by constructor].
      cbn [map]. by rewrite <- app_assoc.
    + rewrite <- join_run_snoc by done.
      apply IH; [by destruct cur|]. apply Forall_app. split; [done|]. by constructor.
Qed.

(** Before the first sentence the loop skips the empty pieces. *)
Lemma chunk_loop_start (bound : Z) (raws : list pystr) :
  finish (chunk_loop bound raws [] [])
  = match List.filter nonempty (map strip raws) with
    | [] => []
    | sentence :: sentences => map join_run (pack bound [sentence] sentences)
    end.
Proof.
  induction raws as [|raw raws IH]; [done|].
  rewrite sentences_of_cons. cbn [chunk_loop].
  destruct (nonempty (strip raw)) eqn:Hraw; cbn [negb]; cbv iota; [|done].
  rewrite andb_false_r. cbn [nonempty]. cbv iota.
  change (strip raw) with (join_run [strip raw]) at 1.
  rewrite chunk_loop_pack; [done|done|].
  constructor; [|constructor]. apply strip_tidy. intros Hnil. by rewrite Hnil in Hraw.
Qed.

Lemma pack_concat (bound : Z) (cur sentences : list pystr) :
  concat (pack bound cur sentences) = cur ++ sentences.
Proof.
  revert cur. induction sentences as [|sentence sentences IH]; intros cur; simpl.
  - by rewrite app_nil_r.
  - destruct (len (join_run cur) + len sentence >? bound); simpl.
    + by rewrite IH.
    + by rewrite IH, <- app_assoc.
Qed.

Lemma pack_head (bound : Z) (cur sentences : list pystr) :
  exists run runs, pack bound cur sentences = run :: runs /\
                   exists more, run = cur ++ more.
Proof.
  revert cur. induction sentences as [|sentence sentences IH]; intros cur; simpl.
  - exists cur, []. split; [done|]. exists []. by rewrite app_nil_r.
  - destruct (len (join_run cur) + len sentence >? bound).
    + exists cur, (pack bound [sentence] sentences). split; [done|].
      exists []. by rewrite app_nil_r.
    + destruct (IH (cur ++ [sentence])) as (run & runs & Hp & more & Hrun).
      exists run, runs. split; [done|]. exists (sentence :: more).
      by rewrite Hrun, <- app_assoc.
Qed.

Lemma appended_within_snoc (bound : Z) (cur : list pystr) (sentence : pystr) :
  appended_within bound cur ->
  len (join_run cur) + len sentence <= bound ->
  appended_within bound (cur ++ [sentence]).
Proof.
  intros Hcur Hle init x rest Heq Hinit.
  destruct (decide (rest = [])) as [->|Hrest].
  - apply app_inj_tail in Heq as [<- <-]. done.
  - destruct (exists_last Hrest) as (rest' & y & ->).
    rewrite app_comm_cons, app_assoc in Heq.
    apply app_inj_tail in Heq as [-> _]. by eapply Hcur.
Qed.

Lemma pack_ok (bound : Z) (cur sentences : list pystr) :
  cur <> [] -> appended_within bound cur ->
  Forall (fun run => run <> [] /\ appended_within bound run) (pack bound cur sentences)
  /\ closed_at_bound bound (pack bound cur sentences).
Proof.
  revert cur. induction sentences as [|sentence sentences IH]; intros cur Hne Hcur.
  - simpl. split; [|done]. by repeat constructor.
  - cbn [pack]. destruct (len (join_run cur) + len sentence >? bound) eqn:Hcut.
    + destruct (IH [sentence]) as [Hall Hclosed]; [done| |].
      { intros init x rest Heq Hinit. destruct init as [|a [|b init]]; [done| |];
          simplify_eq. }
      split; [by constructor|].
      destruct (pack_head bound [sentence] sentences) as (run & runs & Hp & more & Hrun).
      rewrite Hp in *. cbn [closed_at_bound]. split; [|done].
      rewrite Hrun. simpl. by apply gtb_true.
    + apply IH; [by destruct cur|].
      apply appended_within_snoc; [done|]. by apply gtb_false.
Qed.

End Chunks.

(** C4 (amended). The chunks of [split_text_into_chunks] are runs of
    consecutive sentences, each joined by [". "], that together make up the
    sentences of the text in order.  A sentence is added to a non-empty
    chunk only while the chunk's length plus the sentence's length does not
    pass the bound, and a new chunk starts exactly when that sum passes the
    bound.  A sentence that alone is longer than the bound still makes a
    chunk of its own, so a chunk of one sentence can pass the bound. *)
Theorem chunks_are_sentence_runs `{Unicode} (text : pystr) (bound : Z) :
  exists runs : list (list pystr),
    concat runs = sentences_of text
    /\ split_text_into_chunks text bound = map join_run runs
    /\ Forall (fun run => run <> [] /\ appended_within bound run) runs
    /\ closed_at_bound bound runs.
Proof.
  pose proof (chunk_loop_start bound (Re.split no_flags sentence_end text)) as Hloop.
  unfold split_text_into_chunks, sentences_of.
  unfold finish in Hloop. rewrite Hloop. clear Hloop.
  destruct (List.filter nonempty _) as [|sentence sentences].
  - exists []. repeat split; constructor.
  - exists (pack bound [sentence] sentences).
    split; [apply pack_concat|]. split; [done|].
    apply pack_ok; [done|].
    intros init x rest Heq Hinit. destruct init as [|a [|b init]]; [done| |]; simplify_eq.
Qed.

(** C4 as stated fails: a sentence of 801 characters is returned as one
    chunk of 801 characters for the bound 800. *)
Lemma long_sentence_chunk_over_bound :
  split_text_into_chunks (repeat 97%N 801) 800 = [repeat 97%N 801]
  /\ 800 < len (repeat 97%N 801).
Proof. split; by vm_compute. Qed.

(** ** Entity highlighting: offsets *)

Section Highlight.
Context `{Unicode}.

(** No empty string passes [is_valid_entity], so a validated span holds at
    least one character. *)
Lemma valid_entity_nonempty (entity_text entity_label : pystr) :
  is_valid_entity entity_text entity_label = true -> entity_text <> [].
Proof. intros Hvalid ->. by vm_compute in Hvalid. Qed.

Lemma valid_span_nonempty (text : pystr) (e : ent) :
  span_of text e -> is_valid_entity (ent_text e) (label_ e) = true ->
  nonempty_span_of text e.
Proof.
  intros (Hpos & Hend & Htext) Hvalid%valid_entity_nonempty.
  split; [|done]. split; [lia|].
  destruct (decide (start_char e < end_char e)) as [|Hge]; [done|].
  exfalso. apply Hvalid. rewrite Htext, slice_in_range by lia.
  apply drop_ge. rewrite length_take. lia.
Qed.

Lemma mark_with_app (st en : Z -> bool) (i : Z) (x y : pystr) :
  mark_with st en i (x ++ y) = mark_with st en i x ++ mark_with st en (i + len x) y.
Proof.
  revert i. induction x as [|c x IH]; intros i.
  - simpl. rewrite len_nil. by replace (i + 0) with i by lia.
  - cbn [mark_with app]. rewrite IH, len_cons.
    replace (i + 1 + len x) with (i + (1 + len x)) by lia.
    by rewrite <- !app_assoc, <- app_comm_cons, <- app_assoc.
Qed.

Lemma mark_with_ext (st en st' en' : Z -> bool) (i : Z) (x : pystr) :
  (forall j, i <= j < i + len x -> st j = st' j /\ en (j + 1) = en' (j + 1)) ->
  mark_with st en i x = mark_with st' en' i x.
Proof.
  revert i. induction x as [|c x IH]; intros i Hext; [done|].
  cbn [mark_with]. rewrite len_cons in Hext. pose proof (len_nonneg x).
  destruct (Hext i) as [-> ->]; [lia|].
  rewrite IH; [done|]. intros j Hj. apply Hext. lia.
Qed.

Lemma mark_with_plain (st en : Z -> bool) (i : Z) (x : pystr) :
  (forall j, i <= j < i + len x -> st j = false /\ en (j + 1) = false) ->
  mark_with st en i x = x.
Proof.
  revert i. induction x as [|c x IH]; intros i Hnone; [done|].
  cbn [mark_with]. rewrite len_cons in Hnone. pose proof (len_nonneg x).
  destruct (Hnone i) as [-> ->]; [lia|].
  simpl. rewrite IH; [done|]. intros j Hj. apply Hnone. lia.
Qed.

Lemma mark_with_close (st en : Z -> bool) (i : Z) (x : pystr) :
  x <> [] ->
  (forall j, i <= j < i + len x ->
             st j = false /\ en (j + 1) = (j + 1 =? i + len x)) ->
  mark_with st en i x = x ++ s "**".
Proof.
  revert i. induction x as [|c x IH]; intros i Hne Hspan; [done|].
  cbn [mark_with]. rewrite len_cons in Hspan. pose proof (len_nonneg x).
  destruct (Hspan i) as [-> Hen]; [lia|]. rewrite Hen, app_nil_l.
  destruct (decide (x = [])) as [->|Hx].
  - rewrite len_nil. replace (i + 1 =? i + (1 + 0)) with true; [done|].
    symmetry. apply Z.eqb_eq. lia.
  - assert (0 < len x) by (destruct x; [done|rewrite len_cons; pose proof (len_nonneg x); lia]).
    replace (i + 1 =? i + (1 + len x)) with false
      by (symmetry; apply Z.eqb_neq; lia).
    rewrite app_nil_l, IH; [done|done|].
    intros j Hj. destruct (Hspan j) as [Hs He]; [lia|].
    split; [done|]. rewrite He. f_equal. lia.
Qed.

Lemma mark_with_span (st en : Z -> bool) (i : Z) (x : pystr) :
  x <> [] ->
  (forall j, i <= j < i + len x ->
             st j = (j =? i) /\ en (j + 1) = (j + 1 =? i + len x)) ->
  mark_with st en i x = s "**" ++ x ++ s "**".
Proof.
  intros Hne Hspan. destruct x as [|c x]; [done|].
  cbn [mark_with]. rewrite len_cons in Hspan. pose proof (len_nonneg x).
  destruct (Hspan i) as [-> Hen]; [lia|]. rewrite Hen, Z.eqb_refl.
  destruct (decide (x = [])) as [->|Hx].
  - rewrite len_nil. replace (i + 1 =? i + (1 + 0)) with true; [done|].
    symmetry. apply Z.eqb_eq. lia.
  - assert (0 < len x) by (destruct x; [done|rewrite len_cons; pose proof (len_nonneg x); lia]).
    replace (i + 1 =? i + (1 + len x)) with false
      by (symmetry; apply Z.eqb_neq; lia).
    rewrite app_nil_l, mark_with_close; [done|done|].
    intros j Hj. destruct (Hspan j) as [Hs He]; [lia|].
    split.
    + rewrite Hs. apply Z.eqb_neq. lia.
    + rewrite He. f_equal. lia.
Qed.

Lemma existsb_false_Forall {A} (f : A -> bool) (l : list A) :
  Forall (fun a => f a = false) l -> existsb f l = false.
Proof. induction 1 as [|a l Ha _ IH]; simpl; [done|]. by rewrite Ha, IH. Qed.

Lemma existsb_Permutation {A} (f : A -> bool) (l1 l2 : list A) :
  l1 ≡ₚ l2 -> existsb f l1 = existsb f l2.
Proof.
  induction 1 as [|a l1 l2 _ IH|a b l|l1 l2 l3 _ IH1 _ IH2]; simpl.
  - done.
  - by rewrite IH.
  - by destruct (f a), (f b).
  - by rewrite IH1.
Qed.

Lemma marked_Permutation (spans1 spans2 : list ent) (text : pystr) :
  spans1 ≡ₚ spans2 -> marked spans1 text = marked spans2 text.
Proof.
  intros Hperm. unfold marked. apply mark_with_ext. intros j _.
  unfold starts_at, ends_at. split; by apply existsb_Permutation.
Qed.

Lemma pairwise_disjoint_Permutation (spans1 spans2 : list ent) :
  spans1 ≡ₚ spans2 -> pairwise_disjoint spans1 -> pairwise_disjoint spans2.
Proof.
  induction 1 as [|a l1 l2 Hp IH|a b l|l1 l2 l3 _ IH1 _ IH2]; simpl.
  - done.
  - intros [Ha Hl]. split; [by rewrite <- Hp|auto].
  - intros [Hb [Ha Hl]]. apply Forall_cons in Hb as [Hba Hb].
    split; [|done]. constructor; [|done]. unfold disjoint in *. lia.
  - auto.
Qed.

Lemma pairwise_disjoint_filter (f : ent -> bool) (spans : list ent) :
  pairwise_disjoint spans -> pairwise_disjoint (List.filter f spans).
Proof.
  induction spans as [|e spans IH]; simpl; [done|]. intros [He Hs].
  destruct (f e); simpl; [|auto]. split; [|auto].
  apply Forall_forall. intros e' He'%list_elem_of_In%filter_In.
  destruct He' as [He' _]. rewrite Forall_forall in He. apply He.
  by apply list_elem_of_In.
Qed.

(** One step of the loop, on a text of which only the part from [a] on has
    been touched. *)
Lemma highlight_one_untouched (text rest : pystr) (e : ent) (a : nat) :
  nonempty_span_of text e -> end_char e <= Z.of_nat a -> (a <= length text)%nat ->
  highlight_one (take a text ++ rest) e
  = take (Z.to_nat (start_char e)) text
    ++ s "**" ++ seg text (Z.to_nat (start_char e)) (Z.to_nat (end_char e)) ++ s "**"
    ++ seg text (Z.to_nat (end_char e)) a ++ rest.
Proof.
  intros (Hpos & Hend & Htext) Ha Hlen. unfold highlight_one, seg.
  assert (Hcur : len (take a text ++ rest) = Z.of_nat a + len rest).
  { rewrite len_app. unfold len. rewrite length_take. lia. }
  pose proof (len_nonneg rest).
  rewrite slice_to_in_range by lia.
  rewrite slice_from_in_range by lia.
  rewrite Htext, slice_in_range by lia.
  rewrite take_app_le by (rewrite length_take; lia).
  rewrite take_take, Nat.min_l by lia.
  rewrite drop_app_le by (rewrite length_take; lia).
  rewrite !take_drop_commute.
  replace (Z.to_nat (start_char e) + (Z.to_nat (end_char e) - Z.to_nat (start_char e)))%nat
    with (Z.to_nat (end_char e)) by lia.
  replace (Z.to_nat (end_char e) + (a - Z.to_nat (end_char e)))%nat with a by lia.
  done.
Qed.

Lemma starts_at_cons (e : ent) (spans : list ent) (j : Z) :
  starts_at (e :: spans) j = (start_char e =? j) || starts_at spans j.
Proof. done. Qed.

Lemma ends_at_cons (e : ent) (spans : list ent) (j : Z) :
  ends_at (e :: spans) j = (end_char e =? j) || ends_at spans j.
Proof. done. Qed.

(** Spans that lie at or after [a] neither start before [a] nor end at or
    before it. *)
Lemma starts_at_later (spans : list ent) (a j : Z) :
  Forall (fun e => a <= start_char e < end_char e) spans -> j < a ->
  starts_at spans j = false.
Proof.
  intros Hspans Hj. apply existsb_false_Forall.
  eapply Forall_impl; [exact Hspans|]. intros e He. simpl in He. apply Z.eqb_neq. lia.
Qed.

Lemma ends_at_later (spans : list ent) (a j : Z) :
  Forall (fun e => a <= start_char e < end_char e) spans -> j <= a ->
  ends_at spans j = false.
Proof.
  intros Hspans Hj. apply existsb_false_Forall.
  eapply Forall_impl; [exact Hspans|]. intros e He. simpl in He. apply Z.eqb_neq. lia.
Qed.

(** Replaces a comparison that [lia] refutes by [false]. *)
Ltac eqb_false :=
  match goal with
  | |- context [?x =? ?y] =>
      replace (x =? y) with false by (symmetry; apply Z.eqb_neq; lia)
  end.

(** The loop over the spans in descending order of their start: once the
    spans of [done] are in place the text before [a] is untouched, and a
    further span, which ends at or before [a], is put in place without
    moving any of them. *)
Lemma highlight_fold (text : pystr) (l : list ent) :
  forall (done : list ent) (a : nat) (cur : pystr),
    (a <= length text)%nat ->
    cur = take a text
          ++ mark_with (starts_at done) (ends_at done) (Z.of_nat a) (drop a text) ->
    Forall (fun e => Z.of_nat a <= start_char e < end_char e) done ->
    Forall (fun e => nonempty_span_of text e /\ end_char e <= Z.of_nat a) l ->
    StronglySorted (fun e1 e2 => start_char e2 <= start_char e1) l ->
    pairwise_disjoint l ->
    foldl highlight_one cur l = marked (l ++ done) text.
Proof.
  induction l as [|e l IH]; intros done a cur Ha -> Hdone Hl Hsorted Hdisj.
  - simpl. unfold marked.
    rewrite <- (take_drop a text) at 3. rewrite mark_with_app.
    assert (Hlen : len (take a text) = Z.of_nat a)
      by (unfold len; rewrite length_take; lia).
    rewrite Hlen, Z.add_0_l. f_equal.
    symmetry. apply mark_with_plain. intros j Hj. rewrite Hlen in Hj.
    by rewrite (starts_at_later done (Z.of_nat a)), (ends_at_later done (Z.of_nat a))
      by (done || lia).
  - apply Forall_cons in Hl as [[Hspan Hend] Hl].
    apply StronglySorted_inv in Hsorted as [Hsorted Hlater].
    destruct Hdisj as [Hdisj_e Hdisj].
    destruct Hspan as (Hpos & Hin & Htext).
    cbn [foldl].
    rewrite highlight_one_untouched by done.
    rewrite (IH (e :: done) (Z.to_nat (start_char e))).
    + apply marked_Permutation. by rewrite <- Permutation_middle.
    + unfold len in Hin. lia.
    + f_equal.
      set (inside := drop (Z.to_nat (start_char e)) (take (Z.to_nat (end_char e)) text)).
      set (between_ := drop (Z.to_nat (end_char e)) (take a text)).
      assert (Hseg1 : seg text (Z.to_nat (start_char e)) (Z.to_nat (end_char e)) = inside).
      { unfold seg, inside. rewrite take_drop_commute. do 2 f_equal. lia. }
      assert (Hseg2 : seg text (Z.to_nat (end_char e)) a = between_).
      { unfold seg, between_. rewrite take_drop_commute. do 2 f_equal. lia. }
      assert (Hdrop : drop (Z.to_nat (start_char e)) text
                      = inside ++ between_ ++ drop a text).
      { unfold inside, between_. rewrite (drop_take_drop text _ a) by lia.
        by rewrite drop_take_drop by lia. }
      rewrite Hseg1, Hseg2, Hdrop.
      assert (Hinside : len inside = end_char e - start_char e).
      { unfold inside, len. rewrite length_drop, length_take.
        unfold len in Hin. lia. }
      assert (Hbetween : len between_ = Z.of_nat a - end_char e).
      { unfold between_, len. rewrite length_drop, length_take. lia. }
      rewrite !mark_with_app, Hinside, Hbetween, Z2Nat.id by lia.
      replace (start_char e + (end_char e - start_char e)) with (end_char e) by lia.
      replace (end_char e + (Z.of_nat a - end_char e)) with (Z.of_nat a) by lia.
      rewrite (mark_with_span _ _ _ inside).
      * rewrite (mark_with_plain _ _ _ between_).
        -- rewrite <- !app_assoc. do 4 f_equal.
           apply mark_with_ext. intros j Hj. rewrite starts_at_cons, ends_at_cons.
           by do 2 eqb_false.
        -- intros j Hj. rewrite Hbetween in Hj. rewrite starts_at_cons, ends_at_cons.
           do 2 eqb_false.
           by rewrite (starts_at_later done (Z.of_nat a)),
             (ends_at_later done (Z.of_nat a)) by (done || lia).
      * intros Hnil. rewrite Hnil, len_nil in Hinside. lia.
      * intros j Hj. rewrite Hinside in Hj |- *.
        replace (start_char e + (end_char e - start_char e)) with (end_char e) by lia.
        rewrite starts_at_cons, ends_at_cons.
        rewrite (starts_at_later done (Z.of_nat a)), (ends_at_later done (Z.of_nat a))
          by (done || lia).
        rewrite !orb_false_r. split; apply Z.eqb_sym.
    + constructor; [lia|]. eapply Forall_impl; [exact Hdone|].
      intros e' He'. simpl in *. lia.
    + rewrite Forall_forall in Hl, Hlater, Hdisj_e. apply Forall_forall.
      intros e' He'. destruct (Hl e' He') as [Hspan' Hend'].
      split; [done|].
      specialize (Hlater e' He'). specialize (Hdisj_e e' He').
      destruct Hspan' as (Hpos' & _). unfold disjoint in Hdisj_e. lia.
    + done.
    + done.
Qed.

End Highlight.

(** C3. For every text and every list of entity spans that pass
    [is_valid_entity], lie inside the text, carry the text between their
    offsets and do not overlap one another, [highlight_entities_in_text]
    returns the text in which the substring of every span is wrapped as
    [**substring**] and every other character is unchanged; with no span
    the output is the input. *)
Theorem highlight_wraps_spans `{Unicode} (tagger : pystr -> pystr + list ent)
    (text : pystr) (ents : list ent) :
  let spans := List.filter (fun e => is_valid_entity (ent_text e) (label_ e)) ents in
  tagger text = inr ents ->
  Forall (span_of text) spans ->
  pairwise_disjoint spans ->
  highlight_entities_in_text {| nlp := Some tagger |} text = marked spans text
  /\ (spans = [] -> highlight_entities_in_text {| nlp := Some tagger |} text = text).
Proof.
  intros spans Htag Hspans Hdisj.
  assert (Hmain : highlight_entities_in_text {| nlp := Some tagger |} text
                  = marked spans text).
  { unfold highlight_entities_in_text. cbn [nlp]. cbv iota. rewrite Htag. fold spans.
    pose proof (sort_desc_perm start_char spans) as Hperm.
    rewrite (highlight_fold text (sort_desc start_char spans) [] (length text)).
    - rewrite app_nil_r. by apply marked_Permutation.
    - done.
    - by rewrite firstn_all, drop_all, app_nil_r.
    - constructor.
    - rewrite Hperm. apply Forall_forall. intros e He.
      assert (Hvalid : is_valid_entity (ent_text e) (label_ e) = true).
      { apply list_elem_of_In in He. by apply filter_In in He as [_ He]. }
      rewrite Forall_forall in Hspans.
      split; [by apply valid_span_nonempty, Hvalid; apply Hspans|].
      by destruct (Hspans e He) as (_ & Hend & _).
    - apply Sorted_StronglySorted; [|apply sort_desc_sorted].
      intros e1 e2 e3 H12 H23. lia.
    - eapply pairwise_disjoint_Permutation; [|exact Hdisj]. by symmetry. }
  split; [done|].
  intros Hnil. rewrite Hmain, Hnil. unfold marked.
  by apply mark_with_plain.
Qed.

Lemma highlight_wraps_spans_witness :
  highlight_entities_in_text {| nlp := Some paris_tagger |} (s "Paris is great")
  = s "**Paris** is great".
Proof.
  pose proof (highlight_wraps_spans paris_tagger (s "Paris is great")
                [ {| start_char := 0; end_char := 5; ent_text := s "Paris";
                     label_ := s "GPE" |} ]) as Hwrap.
  destruct Hwrap as [Hwrap _].
  - reflexivity.
  - vm_compute. repeat constructor; discriminate.
  - vm_compute. repeat constructor.
  - rewrite Hwrap. by vm_compute.
Defined.

(** ** Substrings *)

Lemma startswith_spec (x sub : pystr) :
  startswith x sub = true <-> exists post, x = sub ++ post.
Proof.
  revert x. induction sub as [|b sub IH]; intros x.
  - split; [intros _; by exists x|by destruct x].
  - destruct x as [|c x]; simpl.
    + split; [done|]. by intros [post Hpost].
    + rewrite andb_true_iff, IH, N.eqb_eq. split.
      * intros [-> [post ->]]. by exists post.
      * intros [post [= -> ->]]. split; [done|]. by exists post.
Qed.

Lemma find_from_found (x sub : pystr) (i : Z) :
  find_from x sub i <> -1 -> substring sub x.
Proof.
  revert i. induction x as [|c x IH]; intros i; cbn [find_from].
  - destruct (startswith [] sub) eqn:Hs; [|done]. intros _.
    apply startswith_spec in Hs as [post Hpost]. by exists [], post.
  - destruct (startswith (c :: x) sub) eqn:Hs.
    + intros _. apply startswith_spec in Hs as [post Hpost]. by exists [], post.
    + intros (pre & post & ->)%IH. by exists (c :: pre), post.
Qed.

Lemma find_from_substring (pre sub post : pystr) (i : Z) :
  0 <= i -> i <= find_from (pre ++ sub ++ post) sub i.
Proof.
  revert i. induction pre as [|c pre IH]; intros i Hi.
  - assert (Hs : startswith ([] ++ sub ++ post) sub = true)
      by (apply startswith_spec; by exists post).
    destruct (sub ++ post) eqn:Hx; simpl in *; rewrite Hs; lia.
  - cbn [find_from app]. destruct (startswith _ sub); [lia|].
    specialize (IH (i + 1)). lia.
Qed.

Lemma contains_spec (x sub : pystr) : contains x sub = true <-> substring sub x.
Proof.
  unfold contains, find. rewrite negb_true_iff, Z.eqb_neq. split.
  - apply find_from_found.
  - intros (pre & post & ->). pose proof (find_from_substring pre sub post 0). lia.
Qed.

Lemma contains_char (x : pystr) (c : char) : contains x [c] = true <-> c ∈ x.
Proof.
  rewrite contains_spec. split.
  - intros (pre & post & ->). set_solver.
  - intros (pre & post & ->)%list_elem_of_split. by exists pre, post.
Qed.

(** ** Regular expressions: what a result is made of *)

Lemma elem_of_seg (text : pystr) (a b : nat) (c : char) : c ∈ seg text a b -> c ∈ text.
Proof. unfold seg. intros Hc. by eapply subseteq_drop, subseteq_take. Qed.

Lemma elem_of_sub_build (text repl : pystr) (hits : list hit) (from : nat) (c : char) :
  c ∈ sub_build text repl from hits -> c ∈ text \/ c ∈ repl.
Proof.
  revert from. induction hits as [|h hits IH]; intros from; simpl.
  - intros Hc. left. by eapply subseteq_drop.
  - rewrite !elem_of_app. intros [Hc|[Hc|Hc]]; [|by right|by eapply IH].
    left. by eapply elem_of_seg.
Qed.

Lemma elem_of_sub `{Unicode} (fl : flags) (r : re) (repl text : pystr) (c : char) :
  c ∈ Re.sub fl r repl text -> c ∈ text \/ c ∈ repl.
Proof. apply elem_of_sub_build. Qed.

(** Every string returned by [findall] is made of characters of the text. *)
Lemma elem_of_findall `{Unicode} (fl : flags) (r : re) (text match_ : pystr) (c : char) :
  match_ ∈ findall fl r text -> c ∈ match_ -> c ∈ text.
Proof.
  unfold findall. intros (h & -> & _)%list_elem_of_fmap.
  destruct (has_group r); [|apply elem_of_seg].
  unfold group1. destruct (h_grp h) as [[a b]|]; [apply elem_of_seg|by intros ?%elem_of_nil].
Qed.

Lemma elem_of_strip `{Unicode} (x : pystr) (c : char) : c ∈ strip x -> c ∈ x.
Proof.
  unfold strip. intros Hc.
  destruct (lstrip_suffix x) as [sp Hx].
  destruct (rstrip_prefix (lstrip x)) as [sp' Hx'].
  rewrite Hx, Hx'. set_solver.
Qed.

Lemma elem_of_replace_char (a : char) (b x : pystr) (c : char) :
  c ∈ replace_char a b x -> (c ∈ x /\ c <> a) \/ (c ∈ b /\ a ∈ x).
Proof.
  unfold replace_char. induction x as [|d x IH]; simpl; [by intros ?%elem_of_nil|].
  rewrite elem_of_app. intros [Hc|Hc].
  - destruct (d =? a)%N eqn:Hd.
    + apply N.eqb_eq in Hd as ->. right. split; [done|]. by left.
    + apply N.eqb_neq in Hd. apply list_elem_of_singleton in Hc as ->.
      left. split; [by left|done].
  - destruct (IH Hc) as [[? ?]|[? ?]]; [left|right]; split; try done; by right.
Qed.

(** ** Validity of expressions *)

Section Validity.
Context `{Unicode}.

Lemma has_symbol_spec (cleaned : pystr) :
  existsb (fun symbol => contains cleaned [symbol]) math_symbols = true
  <-> exists symbol, symbol ∈ math_symbols /\ symbol ∈ cleaned.
Proof.
  rewrite existsb_exists. split; intros (symbol & Hin & Hc); exists symbol.
  - split; [by apply list_elem_of_In|by apply contains_char].
  - split; [by apply list_elem_of_In|by apply contains_char].
Qed.

Lemma has_false_positive_spec (cleaned : pystr) :
  existsb (fun fp => contains (lower cleaned) fp) MathExpressionExtractor.false_positives = true
  <-> exists fp, fp ∈ MathExpressionExtractor.false_positives
                 /\ substring fp (lower cleaned).
Proof.
  rewrite existsb_exists. split; intros (fp & Hin & Hc); exists fp.
  - split; [by apply list_elem_of_In|by apply contains_spec].
  - split; [by apply list_elem_of_In|by apply contains_spec].
Qed.

Lemma is_valid_math_expression_false (expr : pystr) :
  is_valid_math_expression expr = false <-> rejected (clean_expression expr).
Proof.
  unfold is_valid_math_expression, rejected.
  set (cleaned := clean_expression expr).
  destruct ((len cleaned <? 3) || (len cleaned >? 200)) eqn:Hlen.
  { split; [intros _; left|done].
    apply orb_true_iff in Hlen as [Hlen%Z.ltb_lt|Hlen%gtb_true]; auto. }
  apply orb_false_iff in Hlen as [Hlo%Z.ltb_ge Hhi%gtb_false].
  destruct (existsb _ math_symbols) eqn:Hsym; cbn [negb].
  2:{ split; [intros _; right; left|done].
      intros symbol Hin Hc.
      assert (existsb (fun symbol => contains cleaned [symbol]) math_symbols = true)
        as Hyes by (apply has_symbol_spec; eauto).
      congruence. }
  apply has_symbol_spec in Hsym as (symbol & Hin & Hc).
  destruct (len (List.filter isalnum cleaned) <? 2) eqn:Hal.
  { split; [intros _; right; right; left; by apply Z.ltb_lt|done]. }
  apply Z.ltb_ge in Hal.
  destruct (existsb _ MathExpressionExtractor.false_positives) eqn:Hfp.
  { split; [intros _; right; right; right; by apply has_false_positive_spec|done]. }
  split; [done|].
  intros [[?|?]|[Hnone|[?|Hfp']]]; try lia.
  - by destruct (Hnone symbol Hin).
  - apply has_false_positive_spec in Hfp'. congruence.
Qed.

Lemma space_is_no_symbol : 32%N ∉ math_symbols.
Proof. apply (bool_decide_unpack _). by vm_compute. Qed.

(** A candidate made of characters of a text without mathematical symbols,
    multiplication or division signs is not valid. *)
Lemma no_symbol_not_valid (text match_ : pystr) :
  (forall c, c ∈ text -> (c ∉ math_symbols) /\ c <> 0xD7%N /\ c <> 0xF7%N) ->
  (forall c, c ∈ match_ -> c ∈ text) ->
  is_valid_math_expression match_ = false.
Proof.
  intros Htext Hmatch. apply is_valid_math_expression_false. right; left.
  intros symbol Hin Hc. unfold clean_expression in Hc.
  assert (Hsp : symbol ∉ s " ").
  { intros ->%list_elem_of_singleton. by apply space_is_no_symbol. }
  apply elem_of_replace_char in Hc as [[Hc _]|[Hc Hdiv]].
  - apply elem_of_replace_char in Hc as [[Hc _]|[Hc Htimes]].
    + apply elem_of_sub in Hc as [Hc|Hc]; [|by apply elem_of_nil in Hc].
      apply elem_of_sub in Hc as [Hc%elem_of_strip|Hc]; [|done].
      by destruct (Htext symbol (Hmatch _ Hc)).
    + apply elem_of_sub in Htimes as [Htimes|Htimes]; [|by apply elem_of_nil in Htimes].
      apply elem_of_sub in Htimes as [Htimes%elem_of_strip|Htimes];
        [|by vm_compute in Htimes; apply list_elem_of_singleton in Htimes].
      by destruct (Htext _ (Hmatch _ Htimes)) as (_ & ? & _).
  - apply elem_of_replace_char in Hdiv as [[Hdiv _]|[Hdiv _]];
      [|by vm_compute in Hdiv; apply list_elem_of_singleton in Hdiv].
    apply elem_of_sub in Hdiv as [Hdiv|Hdiv]; [|by apply elem_of_nil in Hdiv].
    apply elem_of_sub in Hdiv as [Hdiv%elem_of_strip|Hdiv];
      [|by vm_compute in Hdiv; apply list_elem_of_singleton in Hdiv].
    by destruct (Htext _ (Hmatch _ Hdiv)) as (_ & _ & ?).
Qed.

Lemma add_matches_none (expressions : gset pystr) (matches : list pystr) :
  (forall match_, match_ ∈ matches -> is_valid_math_expression match_ = false) ->
  add_matches expressions matches = expressions.
Proof.
  unfold add_matches. revert expressions.
  induction matches as [|match_ matches IH]; intros expressions Hnone; [done|].
  cbn [foldl]. rewrite (Hnone match_) by by left.
  rewrite andb_false_r. apply IH. intros m Hm. apply Hnone. by right.
Qed.

Lemma extract_expressions_no_symbol (text : pystr) :
  (forall c, c ∈ text -> (c ∉ math_symbols) /\ c <> 0xD7%N /\ c <> 0xF7%N) ->
  extract_expressions text = [].
Proof.
  intros Htext. unfold extract_expressions.
  assert (Hempty : forall pats (expressions : gset pystr),
             foldl (fun expressions pattern =>
                      add_matches expressions (findall re_flags pattern text))
                   expressions pats = expressions).
  { induction pats as [|pattern pats IH]; intros expressions; [done|].
    cbn [foldl]. rewrite add_matches_none; [apply IH|].
    intros match_ Hm. apply (no_symbol_not_valid text); [done|].
    intros c Hc. by eapply elem_of_findall. }
  rewrite Hempty. by rewrite elements_empty.
Qed.

End Validity.

(** C5 (amended). [is_valid_math_expression] returns false exactly when the
    cleaned string has a length outside [3, 200], or holds no symbol of the
    fixed set, or has fewer than 2 alphanumeric characters, or its
    lower-cased form has one of the false-positive words as a substring.
    Consequently [extract_expressions] returns the empty list on a text
    that holds no symbol of the set and neither a multiplication sign nor a
    division sign (cleaning turns these two into [*] and [/]). *)
Theorem valid_math_expression_rejections :
  (forall (U : Unicode) (expr : pystr),
     is_valid_math_expression expr = false <-> rejected (clean_expression expr))
  /\ (forall (U : Unicode) (text : pystr),
        (forall c, c ∈ text -> (c ∉ math_symbols) /\ c <> 0xD7%N /\ c <> 0xF7%N) ->
        extract_expressions text = []).
Proof.
  split.
  - intros U expr. apply is_valid_math_expression_false.
  - intros U text. apply extract_expressions_no_symbol.
Qed.

(** C5 as stated fails: "3x105" written with the multiplication sign
    (code point 0xD7) holds no symbol of the set, and the scientific
    notation pattern yields ["3*105"] from it. *)
Lemma times_sign_yields_expression :
  let text := s "3" ++ [0xD7%N] ++ s "105" in
  (forall c, c ∈ text -> c ∉ math_symbols)
  /\ extract_expressions text = [s "3*105"].
Proof.
  split; [|by vm_compute].
  apply Forall_forall, (bool_decide_unpack _). by vm_compute.
Qed.

(** ** The matcher on runs of whitespace *)

Section WhitespaceRuns.
Context `{Unicode}.

Lemma drop_ws_run (rs : pystr) : drop (ws_run rs) rs = lstrip rs.
Proof. induction rs as [|c rs IH]; simpl; [done|]. by destruct (isspace c). Qed.

Lemma ws_run_le (rs : pystr) : (ws_run rs <= length rs)%nat.
Proof. induction rs as [|c rs IH]; simpl; [done|]. destruct (isspace c); simpl; lia. Qed.

Lemma after_ws_pos p pv rs g : pos (after_ws p pv rs g) = (p + ws_run rs)%nat.
Proof.
  revert p pv. induction rs as [|c rs IH]; intros p pv; simpl; [lia|].
  destruct (isspace c); simpl; [rewrite IH|]; lia.
Qed.

Lemma after_ws_rest p pv rs g : rest (after_ws p pv rs g) = lstrip rs.
Proof.
  revert p pv. induction rs as [|c rs IH]; intros p pv; simpl; [done|].
  by destruct (isspace c).
Qed.

Lemma after_ws_grp p pv rs g : grp (after_ws p pv rs g) = g.
Proof.
  revert p pv. induction rs as [|c rs IH]; intros p pv; simpl; [done|].
  by destruct (isspace c).
Qed.

(** [\s] accepts exactly the whitespace characters. *)
Lemma m_ws (k : cursor -> option outcome) (x : cursor) :
  m no_flags ws k x = one isspace k x.
Proof.
  unfold ws, cls. cbn [m]. unfold one. destruct (rest x) as [|c r]; [done|].
  cbn [existsb item_matches]. by rewrite orb_false_r.
Qed.

(** [\s*] followed by [k]: the longest run is tried first. *)
Lemma star_ws_some (k : cursor -> option outcome) (o : outcome) (rs : pystr) :
  forall p pv g fuel,
    (length rs < fuel)%nat ->
    k (after_ws p pv rs g) = Some o ->
    rep_loop (m no_flags ws) true k fuel 0 None
      {| pos := p; prev := pv; rest := rs; grp := g |} = Some o.
Proof.
  induction rs as [|c rs IH]; intros p pv g fuel Hfuel Hk;
    (destruct fuel as [|fuel]; [simpl in Hfuel; lia|]);
    cbn [rep_loop Nat.eqb andb]; rewrite m_ws; unfold one; cbn [rest].
  - exact Hk.
  - cbn [after_ws] in Hk. destruct (isspace c); [|exact Hk].
    unfold step. cbn [pos grp].
    replace (S p =? p)%nat with false by (symmetry; apply Nat.eqb_neq; lia).
    cbn [Nat.pred fmap option_fmap option_map].
    rewrite IH; [done|simpl in Hfuel; lia|done].
Qed.

(** When [k] cannot start at a whitespace character, giving back
    whitespace does not help. *)
Lemma star_ws_none (k : cursor -> option outcome) (rs : pystr) :
  (forall y c r, rest y = c :: r -> isspace c = true -> k y = None) ->
  forall p pv g fuel,
    (length rs < fuel)%nat ->
    k (after_ws p pv rs g) = None ->
    rep_loop (m no_flags ws) true k fuel 0 None
      {| pos := p; prev := pv; rest := rs; grp := g |} = None.
Proof.
  intros Hspace.
  induction rs as [|c rs IH]; intros p pv g fuel Hfuel Hk;
    (destruct fuel as [|fuel]; [simpl in Hfuel; lia|]);
    cbn [rep_loop Nat.eqb andb]; rewrite m_ws; unfold one; cbn [rest].
  - exact Hk.
  - cbn [after_ws] in Hk. destruct (isspace c) eqn:Hc; [|exact Hk].
    unfold step. cbn [pos grp].
    replace (S p =? p)%nat with false by (symmetry; apply Nat.eqb_neq; lia).
    cbn [Nat.pred fmap option_fmap option_map].
    rewrite IH; [|simpl in Hfuel; lia|done].
    by apply (Hspace _ c rs).
Qed.

(** [\s+] at a cursor: the whole run of whitespace, if there is one. *)
Lemma plus_ws_accept (p : nat) (pv : option char) (rs : pystr) (g : option (nat * nat)) :
  m no_flags (plus ws) accept {| pos := p; prev := pv; rest := rs; grp := g |}
  = match rs with
    | c :: _ => if isspace c then Some ((p + ws_run rs)%nat, g) else None
    | [] => None
    end.
Proof.
  unfold plus. cbn [m rest].
  replace (1 + length rs + 1)%nat with (S (length rs + 1)) by lia.
  cbn [rep_loop Nat.eqb andb]. rewrite m_ws. unfold one. cbn [rest].
  destruct rs as [|c rs]; [done|].
  cbn [ws_run]. destruct (isspace c); [|done].
  unfold step. cbn [pos grp Nat.pred fmap option_fmap option_map].
  rewrite (star_ws_some accept ((S p + ws_run rs)%nat, g)).
  - do 2 f_equal. lia.
  - simpl. lia.
  - unfold accept. by rewrite after_ws_pos, after_ws_grp.
Qed.

Lemma collapse_go_true (x : pystr) : collapse_go true x = collapse_go false (lstrip x).
Proof.
  induction x as [|c x IH]; simpl; [done|].
  destruct (isspace c) eqn:Hc; [done|]. simpl. by rewrite Hc.
Qed.

Lemma seg_before (pre rs : pystr) (from : nat) :
  (from <= length pre)%nat -> seg (pre ++ rs) from (length pre) = drop from pre.
Proof.
  intros Hfrom. unfold seg. rewrite drop_app_le by done.
  rewrite take_app_le by (rewrite length_drop; lia).
  apply take_ge. rewrite length_drop. lia.
Qed.

Lemma cons_middle_snoc (pre : pystr) (c : char) (rs : pystr) :
  pre ++ c :: rs = (pre ++ [c]) ++ rs.
Proof. by rewrite <- app_assoc. Qed.

Lemma length_snoc (pre : pystr) (c : char) : length (pre ++ [c]) = S (length pre).
Proof. rewrite length_app. simpl. lia. Qed.

(** [re.sub(r'\s+', ' ', .)] while scanning: [pre] has been read, the text
    from [from] on is still to be written out, and [n] characters of [rs]
    belong to the match being replaced. *)
Lemma sub_scan_ws (rs : pystr) :
  forall (pre : pystr) (pv : option char) (n from : nat),
    (n = 0%nat /\ (from <= length pre)%nat)
    \/ (from = (length pre + n)%nat /\ (n <= length rs)%nat) ->
    sub_build (pre ++ rs) (s " ") from (scan no_flags (plus ws) (length pre) pv rs n)
    = drop from pre ++ collapse_go false (drop n rs).
Proof.
  induction rs as [|c rs IH]; intros pre pv n from Hmode.
  - assert (n = 0%nat) as -> by (destruct Hmode as [[? _]|[_ Hn]]; simpl in *; lia).
    cbn [scan]. rewrite plus_ws_accept. cbn [sub_build].
    by rewrite !app_nil_r.
  - destruct n as [|n].
    + assert (Hfrom : (from <= length pre)%nat) by (destruct Hmode as [[_ ?]|[? _]]; lia).
      cbn [scan]. rewrite plus_ws_accept. cbn [ws_run collapse_go drop].
      destruct (isspace c) eqn:Hc.
      * cbn [sub_build h_start h_end]. rewrite seg_before by done.
        replace (length pre + S (ws_run rs) - length pre - 1)%nat with (ws_run rs) by lia.
        rewrite cons_middle_snoc, <- (length_snoc pre c).
        rewrite IH.
        -- rewrite (drop_ge (pre ++ [c])) by (rewrite length_snoc; lia).
           rewrite drop_ws_run, collapse_go_true. done.
        -- right. rewrite length_snoc. split; [lia|apply ws_run_le].
      * rewrite cons_middle_snoc, <- (length_snoc pre c).
        rewrite IH by (left; rewrite length_snoc; split; [done|lia]).
        rewrite drop_app_le by done. by rewrite <- app_assoc.
    + destruct Hmode as [[? _]|[-> Hn]]; [done|]. simpl in Hn.
      cbn [scan drop].
      rewrite cons_middle_snoc, <- (length_snoc pre c).
      rewrite IH by (right; rewrite length_snoc; split; lia).
      rewrite (drop_ge (pre ++ [c])) by (rewrite length_snoc; lia).
      by rewrite (drop_ge pre) by lia.
Qed.

(** [re.sub(r'\s+', ' ', x)] collapses every run of whitespace. *)
Lemma sub_ws_collapse (x : pystr) :
  Re.sub no_flags (plus ws) (s " ") x = collapse_spaces x.
Proof.
  unfold Re.sub, finditer, collapse_spaces.
  apply (sub_scan_ws x [] None 0 0). left. simpl. split; [done|lia].
Qed.

End WhitespaceRuns.

(** ** The matcher on the [$$] wrappers *)

Section DollarWrappers.
Context `{Unicode}.

Lemma lstrip_spaces (x : pystr) :
  exists spaces, Forall (fun c => isspace c = true) spaces /\ x = spaces ++ lstrip x.
Proof.
  induction x as [|a x (spaces & Hsp & IH)]; simpl; [by exists []|].
  destruct (isspace a) eqn:Ha.
  - exists (a :: spaces). split; [by constructor|]. simpl. by rewrite <- IH.
  - by exists [].
Qed.

Lemma lstrip_app_spaces (spaces x : pystr) :
  Forall (fun c => isspace c = true) spaces -> lstrip (spaces ++ x) = lstrip x.
Proof. induction 1 as [|c spaces Hc _ IH]; simpl; [done|]. by rewrite Hc. Qed.

Lemma length_lstrip (rs : pystr) : (length rs = ws_run rs + length (lstrip rs))%nat.
Proof.
  rewrite <- drop_ws_run, length_drop. pose proof (ws_run_le rs). lia.
Qed.

(** [\$\$$] at a cursor, in a text without line breaks. *)
Lemma dollars_at_end (p : nat) (pv : option char) (rs : pystr) (g : option (nat * nat)) :
  10%N ∉ rs ->
  m no_flags (seq_ [lit "$$"; Eol]) accept {| pos := p; prev := pv; rest := rs; grp := g |}
  = if bool_decide (rs = s "$$") then Some (S (S p), g) else None.
Proof.
  intros Hnl.
  change (seq_ [lit "$$"; Eol])
    with (Seq (Seq (Lit 36%N) (Seq (Lit 36%N) Eps)) (Seq Eol Eps)).
  cbn [m]. unfold one, char_matches. cbn [rest ignorecase no_flags].
  destruct rs as [|a rs]; [done|].
  destruct (a =? 36)%N eqn:Ha; [apply N.eqb_eq in Ha as ->|].
  2:{ case_bool_decide as Heq; [|done]. apply N.eqb_neq in Ha. by inversion Heq. }
  unfold step. cbn [rest pos grp prev].
  destruct rs as [|b rs]; [by case_bool_decide|].
  destruct (b =? 36)%N eqn:Hb; [apply N.eqb_eq in Hb as ->|].
  2:{ case_bool_decide as Heq; [|done]. apply N.eqb_neq in Hb. by inversion Heq. }
  unfold at_eol. cbn [rest pos grp prev multiline no_flags].
  destruct rs as [|c rs]; [by case_bool_decide|].
  assert (c <> 10%N) as Hc%N.eqb_neq by (intros ->; apply Hnl; set_solver).
  rewrite Hc. cbn [andb]. by case_bool_decide.
Qed.

(** [\s*\$\$$] at a cursor. *)
Lemma closing_wrapper (p : nat) (pv : option char) (rs : pystr) (g : option (nat * nat)) :
  10%N ∉ rs ->
  m no_flags (seq_ [star ws; lit "$$"; Eol]) accept
    {| pos := p; prev := pv; rest := rs; grp := g |}
  = if trailing rs then Some ((p + length rs)%nat, g) else None.
Proof.
  intros Hnl.
  change (seq_ [star ws; lit "$$"; Eol]) with (Seq (star ws) (seq_ [lit "$$"; Eol])).
  unfold star. cbn [m rest].
  assert (Hend : m no_flags (seq_ [lit "$$"; Eol]) accept (after_ws p pv rs g)
                 = if trailing rs then Some ((p + length rs)%nat, g) else None).
  { pose proof (after_ws_pos p pv rs g) as Hpos.
    pose proof (after_ws_rest p pv rs g) as Hrest.
    pose proof (after_ws_grp p pv rs g) as Hgrp.
    destruct (after_ws p pv rs g) as [p' pv' rs' g']. simpl in Hpos, Hrest, Hgrp. subst.
    rewrite dollars_at_end.
    - unfold trailing. case_bool_decide as Heq; [|done].
      do 2 f_equal. rewrite (length_lstrip rs), Heq. simpl. lia.
    - intros Hin. apply Hnl. destruct (lstrip_spaces rs) as (sp & _ & ->). set_solver. }
  destruct (trailing rs).
  - apply star_ws_some; [lia|done].
  - apply star_ws_none; [|lia|done].
    intros [p' pv' rs' g'] c r Hr Hc. simpl in Hr. subst rs'.
    change (seq_ [lit "$$"; Eol])
      with (Seq (Seq (Lit 36%N) (Seq (Lit 36%N) Eps)) (Seq Eol Eps)).
    cbn [m]. unfold one, char_matches. cbn [rest ignorecase no_flags].
    destruct (c =? 36)%N eqn:Hd; [|done].
    apply N.eqb_eq in Hd as ->. done.
Qed.

Lemma startswith_dollars (rs : pystr) :
  startswith rs (s "$$")
  = match rs with
    | a :: b :: _ => (a =? 36)%N && (b =? 36)%N
    | _ => false
    end.
Proof.
  change (s "$$") with [36%N; 36%N].
  destruct rs as [|a [|b rs]]; simpl; [done|by rewrite andb_false_r|].
  destruct rs; by rewrite andb_true_r.
Qed.

(** [^\$\$\s*] at a cursor. *)
Lemma opening_wrapper (p : nat) (pv : option char) (rs : pystr) (g : option (nat * nat)) :
  m no_flags (seq_ [Bol; lit "$$"; star ws]) accept
    {| pos := p; prev := pv; rest := rs; grp := g |}
  = match pv with
    | None => if startswith rs (s "$$")
              then Some ((p + 2 + ws_run (drop 2 rs))%nat, g) else None
    | Some _ => None
    end.
Proof.
  change (seq_ [Bol; lit "$$"; star ws])
    with (Seq Bol (Seq (Seq (Lit 36%N) (Seq (Lit 36%N) Eps)) (Seq (star ws) Eps))).
  rewrite startswith_dollars.
  cbn [m]. unfold at_bol. cbn [prev multiline no_flags andb].
  destruct pv as [c0|]; [done|].
  unfold one, char_matches. cbn [rest ignorecase no_flags].
  destruct rs as [|a rs]; [done|].
  destruct (a =? 36)%N; [|by destruct rs].
  unfold step. cbn [rest pos grp prev andb].
  destruct rs as [|b rs]; [done|].
  destruct (b =? 36)%N; [|done].
  unfold star. cbn [m rest andb drop].
  rewrite (star_ws_some _ ((p + 2 + ws_run rs)%nat, g)); [done|lia|].
  unfold accept. rewrite after_ws_pos, after_ws_grp. do 2 f_equal. lia.
Qed.

Lemma wrappers_at (p : nat) (pv : option char) (rs : pystr) :
  10%N ∉ rs -> pv <> None \/ startswith rs (s "$$") = false ->
  m no_flags dollar_wrappers accept {| pos := p; prev := pv; rest := rs; grp := None |}
  = if trailing rs then Some ((p + length rs)%nat, None) else None.
Proof.
  intros Hnl Hopen. unfold dollar_wrappers. cbn [m].
  rewrite opening_wrapper, closing_wrapper by done.
  destruct pv as [c0|]; [done|].
  destruct Hopen as [?| ->]; done.
Qed.

Lemma trailing_nil : trailing [] = false.
Proof. done. Qed.

(** [re.sub(r'^\$\$\s*|\s*\$\$$', '', .)] while scanning, once the opening
    wrapper can no longer match. *)
Lemma sub_scan_wrappers (rs : pystr) :
  forall (pre : pystr) (pv : option char) (n from : nat),
    10%N ∉ rs ->
    pv <> None \/ (0 < n)%nat \/ startswith rs (s "$$") = false ->
    (n = 0%nat /\ (from <= length pre)%nat)
    \/ (from = (length pre + n)%nat /\ (n <= length rs)%nat) ->
    sub_build (pre ++ rs) [] from (scan no_flags dollar_wrappers (length pre) pv rs n)
    = drop from pre ++ trail (drop n rs).
Proof.
  induction rs as [|c rs IH]; intros pre pv n from Hnl Hopen Hmode.
  - assert (n = 0%nat) as -> by (destruct Hmode as [[? _]|[_ Hn]]; simpl in *; lia).
    cbn [scan].
    rewrite wrappers_at;
      [|done|destruct Hopen as [?|[?|?]]; [by left|lia|by right]].
    rewrite trailing_nil. cbn [sub_build drop trail]. rewrite trailing_nil.
    by rewrite !app_nil_r.
  - assert (Hnl' : 10%N ∉ rs) by (intros Hin; apply Hnl; by right).
    destruct n as [|n].
    + assert (Hfrom : (from <= length pre)%nat) by (destruct Hmode as [[_ ?]|[? _]]; lia).
      cbn [scan].
      rewrite wrappers_at;
        [|done|destruct Hopen as [?|[?|?]]; [by left|lia|by right]].
      cbn [drop trail].
      destruct (trailing (c :: rs)) eqn:Htr.
      * cbn [sub_build h_start h_end app]. rewrite seg_before by done.
        replace (length pre + length (c :: rs) - length pre - 1)%nat with (length rs)
          by (simpl; lia).
        rewrite cons_middle_snoc, <- (length_snoc pre c).
        rewrite IH; [|done|by left|].
        -- rewrite (drop_ge (pre ++ [c])) by (rewrite length_snoc; simpl; lia).
           rewrite drop_all. cbn [trail]. by rewrite trailing_nil.
        -- right. rewrite length_snoc. simpl. split; lia.
      * rewrite cons_middle_snoc, <- (length_snoc pre c).
        rewrite IH; [|done|by left|left; rewrite length_snoc; split; [done|lia]].
        rewrite drop_app_le by done. by rewrite <- app_assoc.
    + destruct Hmode as [[? _]|[-> Hn]]; [done|]. simpl in Hn.
      cbn [scan drop].
      rewrite cons_middle_snoc, <- (length_snoc pre c).
      rewrite IH; [|done|by left|right; rewrite length_snoc; split; lia].
      rewrite (drop_ge (pre ++ [c])) by (rewrite length_snoc; lia).
      by rewrite (drop_ge pre) by lia.
Qed.

Lemma sub_wrappers (w : pystr) :
  10%N ∉ w ->
  Re.sub no_flags dollar_wrappers [] w = trail (strip_leading_dollars w).
Proof.
  intros Hnl. unfold Re.sub, finditer, strip_leading_dollars.
  destruct (startswith w (s "$$")) eqn:Hstart.
  - pose proof Hstart as [w' ->]%startswith_spec.
    change (s "$$" ++ w') with (36%N :: 36%N :: w') in *.
    cbn [scan]. unfold dollar_wrappers at 1. cbn [m].
    rewrite opening_wrapper, Hstart.
    cbn [sub_build h_start h_end drop].
    replace (0 + 2 + ws_run w' - 0 - 1)%nat with (S (ws_run w')) by lia.
    cbn [scan].
    pose proof (sub_scan_wrappers w' [36%N; 36%N] (Some 36%N) (ws_run w')
                  (2 + ws_run w')) as Hscan.
    cbn [app length] in Hscan.
    replace (0 + 2 + ws_run w')%nat with (2 + ws_run w')%nat by lia.
    change (seg (36%N :: 36%N :: w') 0 0) with (@nil char). rewrite !app_nil_l.
    etrans; [apply Hscan|].
    + intros Hin. apply Hnl. by do 2 right.
    + by left.
    + right. split; [lia|apply ws_run_le].
    + rewrite drop_ge by (simpl; lia). by rewrite drop_ws_run.
  - apply (sub_scan_wrappers w [] None 0 0); [done|by right; right|].
    left. simpl. split; [done|lia].
Qed.

End DollarWrappers.

(** ** Cleaning an expression *)

Section Cleaning.
Context `{Unicode}.

Lemma endswith_spec (x sub : pystr) :
  endswith x sub = true <-> exists pre, x = pre ++ sub.
Proof.
  unfold endswith. rewrite startswith_spec. split.
  - intros [post Hpost]. exists (reverse post).
    by rewrite <- (reverse_involutive x), Hpost, reverse_app, reverse_involutive.
  - intros [pre ->]. exists (reverse pre). by rewrite reverse_app.
Qed.

Lemma rstrip_spaces (x : pystr) :
  exists spaces, Forall (fun c => isspace c = true) spaces /\ x = rstrip x ++ spaces.
Proof.
  unfold rstrip. destruct (lstrip_spaces (reverse x)) as (spaces & Hsp & Hx).
  exists (reverse spaces). split; [by apply Forall_reverse|].
  by rewrite <- reverse_app, <- Hx, reverse_involutive.
Qed.

Lemma trail_unfold (rs : pystr) :
  trail rs = if trailing rs then []
             else match rs with [] => [] | c :: rs' => c :: trail rs' end.
Proof. by destruct rs. Qed.

Lemma trailing_spec (rs : pystr) :
  trailing rs = true
  <-> exists spaces, Forall (fun c => isspace c = true) spaces /\ rs = spaces ++ s "$$".
Proof.
  unfold trailing. rewrite bool_decide_eq_true. split.
  - intros Heq. destruct (lstrip_spaces rs) as (spaces & Hsp & Hrs).
    exists spaces. by rewrite <- Heq.
  - intros (spaces & Hsp & ->). by rewrite lstrip_app_spaces.
Qed.

(** Up to the closing wrapper, [trail] keeps what [rstrip] keeps. *)
Lemma trail_prefix (kept spaces : pystr) :
  (forall d, last kept = Some d -> isspace d = false) ->
  Forall (fun c => isspace c = true) spaces ->
  trail (kept ++ spaces ++ s "$$") = kept.
Proof.
  intros Hlast Hsp. induction kept as [|c kept IH]; rewrite trail_unfold.
  - replace (trailing ([] ++ spaces ++ s "$$")) with true; [done|].
    symmetry. apply trailing_spec. by exists spaces.
  - replace (trailing ((c :: kept) ++ spaces ++ s "$$")) with false.
    + cbn [app]. rewrite IH; [done|].
      intros d Hd. apply Hlast. rewrite last_cons, Hd. done.
    + symmetry. apply not_true_is_false.
      intros (spaces' & Hsp' & Heq)%trailing_spec.
      rewrite app_assoc in Heq. apply app_inv_tail in Heq.
      destruct (last (c :: kept)) as [d|] eqn:Hd; [|by apply last_None in Hd].
      assert (isspace d = true) as Hyes.
      { rewrite Forall_forall in Hsp'. apply Hsp'. rewrite <- Heq.
        apply last_Some in Hd as [kept' ->]. set_solver. }
      by rewrite (Hlast d eq_refl) in Hyes.
Qed.

Lemma trail_without_wrapper (w : pystr) : endswith w (s "$$") = false -> trail w = w.
Proof.
  induction w as [|c w IH]; intros Hend; rewrite trail_unfold.
  - done.
  - replace (trailing (c :: w)) with false.
    + rewrite IH; [done|]. apply not_true_is_false.
      intros [pre ->]%endswith_spec.
      assert (endswith (c :: pre ++ s "$$") (s "$$") = true) as Hyes
        by (apply endswith_spec; by exists (c :: pre)).
      congruence.
    + symmetry. apply not_true_is_false.
      intros (spaces & _ & Heq)%trailing_spec.
      assert (endswith (c :: w) (s "$$") = true) as Hyes
        by (apply endswith_spec; by exists spaces).
      congruence.
Qed.

Lemma trail_spec (w : pystr) : trail w = strip_trailing_dollars w.
Proof.
  unfold strip_trailing_dollars.
  destruct (endswith w (s "$$")) eqn:Hend; [|by apply trail_without_wrapper].
  apply endswith_spec in Hend as [v ->].
  replace (take (length (v ++ s "$$") - 2) (v ++ s "$$")) with v.
  2:{ rewrite length_app. simpl length.
      replace (length v + 2 - 2)%nat with (length v) by lia.
      by rewrite take_app_length. }
  destruct (rstrip_spaces v) as (spaces & Hsp & Hv).
  rewrite Hv at 1. rewrite <- app_assoc.
  apply trail_prefix; [|done].
  intros d Hd. by apply (rstrip_last_nonspace v).
Qed.

Lemma collapse_no_newline (in_run : bool) (x : pystr) : 10%N ∉ collapse_go in_run x.
Proof.
  revert in_run. induction x as [|c x IH]; intros in_run; simpl; [apply not_elem_of_nil|].
  destruct (isspace c) eqn:Hc.
  - destruct in_run; [apply IH|].
    apply not_elem_of_cons. split; [done|apply IH].
  - apply not_elem_of_cons. split; [|apply IH]. by intros <-.
Qed.

(** The two [str.replace] calls, one after the other, write every
    character of the string as [write_sign] says. *)
Lemma replace_signs (x : pystr) :
  replace_char 0xF7%N (s "/") (replace_char 0xD7%N (s "*") x) = map write_sign x.
Proof.
  induction x as [|c x IH]; [done|].
  unfold replace_char in *. cbn [flat_map map]. rewrite flat_map_app.
  change (write_sign c :: map write_sign x) with ([write_sign c] ++ map write_sign x).
  f_equal; [|exact IH].
  unfold write_sign. destruct (c =? 0xD7)%N; [done|].
  cbn [flat_map]. by destruct (c =? 0xF7)%N.
Qed.

(** The two [re.sub] calls and the two replacements of [clean_expression]
    do what the specification says. *)
Lemma clean_expression_refines (expr : pystr) :
  clean_expression expr = clean_expression_spec expr.
Proof.
  unfold clean_expression, clean_expression_spec, strip_dollars.
  rewrite sub_ws_collapse, sub_wrappers by apply collapse_no_newline.
  by rewrite trail_spec, replace_signs.
Qed.

End Cleaning.

(** C6. For every expression string [clean_expression] trims it, collapses
    every run of whitespace to a single space, strips the leading and the
    trailing [$$] delimiter, and replaces the multiplication sign by [*]
    and the division sign by [/]: the result is [clean_expression_spec],
    which writes every character of the stripped string by [write_sign], so
    the result holds neither of the two signs.  So a wrapped expression
    with a division and a multiplication sign is cleaned to ["6 / 2 * 3"],
    and [extract_expressions] on the text ["$$ x + y = z $$"] returns the
    one-element list [["x + y = z"]]. *)
Theorem clean_expression_normalizes :
  (forall (U : Unicode) (expr : pystr),
     clean_expression expr = clean_expression_spec expr
     /\ (0xD7%N ∉ clean_expression expr) /\ (0xF7%N ∉ clean_expression expr))
  /\ clean_expression (s "$$  6 " ++ [0xF7%N] ++ s "  2 " ++ [0xD7%N; 9%N] ++ s "3 $$")
     = s "6 / 2 * 3"
  /\ extract_expressions (s "$$ x + y = z $$") = [s "x + y = z"].
Proof.
  split; [|split].
  - intros U expr. split; [apply clean_expression_refines|].
    rewrite clean_expression_refines. unfold clean_expression_spec.
    split; intros (c & Hc & _)%list_elem_of_fmap; revert Hc; unfold write_sign;
      destruct (c =? 0xD7)%N eqn:Htimes; try done;
      destruct (c =? 0xF7)%N eqn:Hdiv; try done;
      intros <-; by vm_compute in Htimes, Hdiv.
  - by vm_compute.
  - by vm_compute.
Qed.

(** Cleaning on a few strings: inner runs, the wrappers, the two signs
    (0xD7 and 0xF7). *)
Example clean_expression_samples :
  clean_expression (s "  $$  a   +  b $$ ") = s "a + b"
  /\ clean_expression (s "x" ++ [9%N; 10%N] ++ s "=  1") = s "x = 1"
  /\ clean_expression (s "6 " ++ [0xF7%N] ++ s " 2 " ++ [0xD7%N] ++ s " 3") = s "6 / 2 * 3"
  /\ clean_expression (s "$$$") = s "$".
Proof. repeat split; by vm_compute. Qed.

(** ** The matcher never runs out of fuel *)

Section Fuel.
Context `{Unicode}.
Variable fl : flags.

Lemma further_refl (x : cursor) : further x x.
Proof. unfold further. lia. Qed.

Lemma further_trans (x y z : cursor) : further x y -> further y z -> further x z.
Proof. unfold further. lia. Qed.

Lemma one_local (ok : char -> bool) (k1 k2 : cursor -> option outcome) (x : cursor) :
  (forall y, further x y -> k1 y = k2 y) -> one ok k1 x = one ok k2 x.
Proof.
  intros Hk. unfold one. destruct (rest x) as [|c r] eqn:Hr; [done|].
  destruct (ok c); [|done]. apply Hk.
  unfold further, step. simpl. rewrite Hr. simpl. lia.
Qed.

(** The loop of a quantifier looks at its continuation only further on in
    the text, when the body does. *)
Lemma rep_loop_local (ma : (cursor -> option outcome) -> cursor -> option outcome)
    (greedy : bool) (k1 k2 : cursor -> option outcome) :
  (forall k k' x, (forall y, further x y -> k y = k' y) -> ma k x = ma k' x) ->
  forall fuel lo hi x,
    (forall y, further x y -> k1 y = k2 y) ->
    rep_loop ma greedy k1 fuel lo hi x = rep_loop ma greedy k2 fuel lo hi x.
Proof.
  intros Hma. induction fuel as [|fuel IH]; intros lo hi x Hk; [done|].
  cbn [rep_loop].
  assert (Hagain :
    ma (fun y => if (lo =? 0)%nat && (pos y =? pos x)%nat then None
                 else rep_loop ma greedy k1 fuel (Nat.pred lo) (Nat.pred <$> hi) y) x
    = ma (fun y => if (lo =? 0)%nat && (pos y =? pos x)%nat then None
                   else rep_loop ma greedy k2 fuel (Nat.pred lo) (Nat.pred <$> hi) y) x).
  { apply Hma. intros y Hy. destruct (_ && _); [done|].
    apply IH. intros z Hz. apply Hk. by eapply further_trans. }
  rewrite Hagain, (Hk x (further_refl x)). done.
Qed.

Lemma m_local (r : re) :
  forall k1 k2 x,
    (forall y, further x y -> k1 y = k2 y) -> m fl r k1 x = m fl r k2 x.
Proof.
  induction r as [|a| |neg items|a IHa b IHb|a IHa b IHb|greedy lo hi a IHa|a IHa| | |];
    intros k1 k2 x Hk; cbn [m];
    try (by apply one_local); try (by rewrite (Hk x (further_refl x))).
  - apply IHa. intros y Hy. apply IHb. intros z Hz. apply Hk. by eapply further_trans.
  - by rewrite (IHa k1 k2 x Hk), (IHb k1 k2 x Hk).
  - by apply rep_loop_local.
  - apply IHa. intros y Hy. apply Hk. unfold further in *. simpl. lia.
Qed.

(** Any fuel above [lo + length (rest x)] gives the same outcome, so the
    fuel that [m] hands to the loop is never used up. *)
Lemma rep_loop_fuel (a : re) (greedy : bool) (k : cursor -> option outcome) :
  forall fuel1 fuel2 lo hi x,
    (lo + length (rest x) < fuel1)%nat -> (lo + length (rest x) < fuel2)%nat ->
    rep_loop (m fl a) greedy k fuel1 lo hi x = rep_loop (m fl a) greedy k fuel2 lo hi x.
Proof.
  induction fuel1 as [|fuel1 IH]; intros fuel2 lo hi x H1 H2; [lia|].
  destruct fuel2 as [|fuel2]; [lia|]. cbn [rep_loop].
  assert (Hagain :
    m fl a (fun y => if (lo =? 0)%nat && (pos y =? pos x)%nat then None
                     else rep_loop (m fl a) greedy k fuel1 (Nat.pred lo) (Nat.pred <$> hi) y) x
    = m fl a (fun y => if (lo =? 0)%nat && (pos y =? pos x)%nat then None
                       else rep_loop (m fl a) greedy k fuel2 (Nat.pred lo) (Nat.pred <$> hi) y) x).
  { apply m_local. intros y [Hpos Hlen].
    destruct (lo =? 0)%nat eqn:Hlo; cbn [andb].
    - apply Nat.eqb_eq in Hlo as ->.
      destruct (pos y =? pos x)%nat eqn:Hstay; [done|].
      apply Nat.eqb_neq in Hstay. apply IH; simpl; lia.
    - apply Nat.eqb_neq in Hlo. apply IH; lia. }
  by rewrite Hagain.
Qed.

End Fuel.

(** * Further properties *)

(** ** Dictionaries *)

Lemma str_eqb_eq (x y : pystr) : str_eqb x y = true <-> x = y.
Proof. unfold str_eqb. apply bool_decide_eq_true. Qed.

Lemma dict_get_set {V} (d : dict V) (k k' : pystr) (v : V) :
  dict_get (dict_set d k v) k' = if str_eqb k k' then Some v else dict_get d k'.
Proof.
  induction d as [|[a w] d IH]; simpl; [done|].
  unfold str_eqb in *. destruct (decide (a = k)) as [->|Hak].
  - rewrite (bool_decide_eq_true_2 (k = k)) by done. simpl. unfold str_eqb.
    by case_bool_decide.
  - rewrite (bool_decide_eq_false_2 (a = k)) by done. simpl. unfold str_eqb.
    rewrite IH. repeat case_bool_decide; congruence.
Qed.

Lemma elem_of_dict_set {V} (d : dict V) (k : pystr) (v : V) (kv : pystr * V) :
  kv ∈ dict_set d k v -> kv = (k, v) \/ kv ∈ d.
Proof.
  induction d as [|[a w] d IH]; simpl.
  - intros ->%list_elem_of_singleton. by left.
  - unfold str_eqb. case_bool_decide as Hak.
    + subst a. intros [->|?]%elem_of_cons; [by left|right; by right].
    + intros [->|[->|?]%IH]%elem_of_cons; [right; by left|by left|right; by right].
Qed.

Lemma dict_get_Some {V} (d : dict V) (k : pystr) (v : V) :
  dict_get d k = Some v -> (k, v) ∈ d.
Proof.
  induction d as [|[a w] d IH]; simpl; [done|].
  unfold str_eqb. case_bool_decide as Hak.
  - intros [= ->]. subst a. by left.
  - intros ?%IH. by right.
Qed.

Lemma dict_get_None {V} (d : dict V) (k : pystr) :
  dict_get d k = None <-> k ∉ d.*1.
Proof.
  induction d as [|[a w] d IH]; simpl.
  - split; [intros _; apply not_elem_of_nil|done].
  - unfold str_eqb. rewrite not_elem_of_cons. case_bool_decide as Hak.
    + split; [done|]. by intros [? _].
    + rewrite IH. split; [by split|by intros [_ ?]].
Qed.

(** ** Entity statistics *)

Section Statistics.
Context `{Unicode}.

Lemma counted_cons (kv : pystr * list pystr) (d : dict (list pystr)) :
  counted (kv :: d)
  = if negb (str_eqb kv.1 (s "error")) then kv :: counted d else counted d.
Proof. done. Qed.

(** The loop of [get_entity_statistics]: the total grows by the length of
    every counted list, and every count is the length of a counted list. *)
Lemma statistics_loop (entities : dict (list pystr)) :
  forall (stats : dict Z) (total : Z),
    let r :=
      foldl (fun '(stats, total_entities) kv =>
               if negb (str_eqb (fst kv) (s "error")) then
                 let count := len (snd kv) in
                 (dict_set stats (fst kv) count, total_entities + count)
               else (stats, total_entities))
            (stats, total) entities in
    r.2 = total + sum_lengths (counted entities)
    /\ forall k v, (k, v) ∈ r.1 ->
         (k, v) ∈ stats \/ exists l, (k, l) ∈ counted entities /\ v = len l.
Proof.
  induction entities as [|[key l] entities IH]; intros stats total.
  - simpl. split; [lia|auto].
  - cbn [foldl]. rewrite counted_cons. cbn [fst snd].
    destruct (negb (str_eqb key (s "error"))).
    + destruct (IH (dict_set stats key (len l)) (total + len l)) as [Htotal Hstats].
      cbv zeta in *. split.
      * rewrite Htotal. simpl. lia.
      * intros k v [Hin|(l' & Hin & ->)]%Hstats.
        -- apply elem_of_dict_set in Hin as [[= -> ->]|Hin]; [|by left].
           right. exists l. split; [by left|done].
        -- right. exists l'. split; [by right|done].
    + apply IH.
Qed.

Lemma sum_lengths_capped (d : dict (list pystr)) :
  values_capped 20 d -> 0 <= sum_lengths d <= 20 * len d.
Proof.
  induction 1 as [|kv d Hkv _ IH]; cbn [sum_lengths foldr].
  - unfold len. simpl. lia.
  - fold (sum_lengths d). rewrite len_cons.
    assert (len kv.2 <= 20) by (unfold len; lia).
    pose proof (len_nonneg kv.2). lia.
Qed.

Lemma counted_capped (d : dict (list pystr)) :
  values_capped 20 d -> values_capped 20 (counted d).
Proof.
  unfold values_capped, counted. intros Hd. apply Forall_forall.
  intros kv [Hkv _]%list_elem_of_In%filter_In. rewrite Forall_forall in Hd.
  by apply Hd, list_elem_of_In.
Qed.

End Statistics.

(** X1. Without a model [get_entity_statistics] answers [{"error": 1}].
    When the model is loaded and the tagger raises on the text, the failure
    has already been turned into an ["error"] entry by [extract_entities],
    which the count skips: the answer is [{"Total": 0}], not an error. *)
Theorem statistics_of_failure `{Unicode} (self : NERProcessor) (text : pystr) :
  (nlp self = None -> get_entity_statistics self text = [(s "error", 1)])
  /\ (forall tagger message,
        nlp self = Some tagger -> tagger text = inl message ->
        get_entity_statistics self text = [(s "Total", 0)]).
Proof.
  unfold get_entity_statistics, extract_entities. split.
  - by intros ->.
  - intros tagger message -> ->. done.
Qed.

(** X2. With a model loaded, the entry ["Total"] of the statistics is the
    sum of the lengths of all lists of [extract_entities] except the one
    under ["error"]; it is at most 20 times their number; and every other
    entry is the length of one of these lists, so at most 20. *)
Theorem statistics_total `{Unicode} (self : NERProcessor) (text : pystr) :
  is_Some (nlp self) ->
  let entities := counted (extract_entities self text) in
  let stats := get_entity_statistics self text in
  dict_get stats (s "Total") = Some (sum_lengths entities)
  /\ 0 <= sum_lengths entities <= 20 * len entities
  /\ forall k v, (k, v) ∈ stats ->
       k = s "Total" \/ exists l, (k, l) ∈ entities /\ v = len l /\ v <= 20.
Proof.
  intros [tagger Hnlp] entities stats.
  pose proof (counted_capped _ (extract_entities_capped self text)) as Hcap.
  fold entities in Hcap.
  pose proof (statistics_loop (extract_entities self text) [] 0) as Hloop.
  cbv zeta in Hloop. fold entities in Hloop.
  subst stats. unfold get_entity_statistics. rewrite Hnlp.
  destruct (foldl _ _ _) as [stats total]. destruct Hloop as [Htotal Hstats].
  simpl in Htotal. subst total. split; [|split].
  - rewrite dict_get_set. by rewrite (proj2 (str_eqb_eq _ _) eq_refl).
  - by apply sum_lengths_capped.
  - intros k v [[= -> ->]|Hin]%elem_of_dict_set; [by left|right].
    apply Hstats in Hin as [Hin|(l & Hin & ->)]; [by apply elem_of_nil in Hin|].
    exists l. split; [done|]. split; [done|].
    unfold values_capped in Hcap. rewrite Forall_forall in Hcap.
    specialize (Hcap _ Hin). simpl in Hcap. unfold len. lia.
Qed.

Lemma statistics_total_witness :
  dict_get (get_entity_statistics {| nlp := Some paris_tagger |} (s "Paris is great"))
           (s "Total") = Some 1.
Proof.
  destruct (statistics_total {| nlp := Some paris_tagger |} (s "Paris is great"))
    as (Htotal & _ & _); [by eexists|].
  rewrite Htotal. by vm_compute.
Defined.

(** ** The dictionary of entities *)

Lemma str_leb_total (x y : pystr) : str_leb x y = false -> str_leb y x = true.
Proof.
  revert y. induction x as [|a x IH]; intros [|b y]; simpl; try done.
  rewrite orb_false_iff, andb_false_iff, orb_true_iff, andb_true_iff.
  rewrite N.ltb_ge, N.ltb_lt, N.eqb_neq, N.eqb_eq.
  intros [Hle [Hne|Hxy]]; [left; lia|].
  destruct (decide (a = b)) as [->|Hne]; [right; auto|left; lia].
Qed.

Lemma str_leb_trans (x y z : pystr) :
  str_leb x y = true -> str_leb y z = true -> str_leb x z = true.
Proof.
  revert y z. induction x as [|a x IH]; intros [|b y] [|c z]; simpl; try done.
  rewrite !orb_true_iff, !andb_true_iff, !N.ltb_lt, !N.eqb_eq.
  intros [Hab|[-> Hxy]] [Hbc|[-> Hyz]]; [left; lia|by left|by left|right].
  split; [done|by eapply IH].
Qed.

Lemma insert_str_perm (x : pystr) (l : list pystr) : insert_str x l ≡ₚ x :: l.
Proof.
  induction l as [|y l IH]; simpl; [done|].
  destruct (str_leb x y); [done|]. rewrite IH. apply Permutation_swap.
Qed.

Lemma sorted_strs_perm (l : list pystr) : sorted_strs l ≡ₚ l.
Proof.
  unfold sorted_strs. induction l as [|x l IH]; simpl; [done|].
  by rewrite insert_str_perm, IH.
Qed.

Lemma insert_str_sorted (x : pystr) (l : list pystr) :
  StronglySorted (fun a b => str_leb a b = true) l ->
  StronglySorted (fun a b => str_leb a b = true) (insert_str x l).
Proof.
  induction 1 as [|y l Hl IH Hy]; simpl; [by repeat constructor|].
  destruct (str_leb x y) eqn:Hxy.
  - constructor; [by constructor|]. constructor; [done|].
    eapply Forall_impl; [exact Hy|]. intros z Hz. by eapply str_leb_trans.
  - constructor; [done|]. rewrite insert_str_perm.
    constructor; [by apply str_leb_total|done].
Qed.

Lemma sorted_strs_sorted (l : list pystr) :
  StronglySorted (fun a b => str_leb a b = true) (sorted_strs l).
Proof.
  unfold sorted_strs. induction l as [|x l IH]; simpl; [constructor|].
  by apply insert_str_sorted.
Qed.

(** Sorted and without repetition is strictly ascending. *)
Lemma sorted_NoDup_strict (l : list pystr) :
  StronglySorted (fun a b => str_leb a b = true) l -> NoDup l ->
  StronglySorted str_lt l.
Proof.
  induction 1 as [|a l Hl IH Ha]; intros Hnodup; [constructor|].
  apply NoDup_cons in Hnodup as [Hnotin Hnodup].
  constructor; [by apply IH|].
  rewrite Forall_forall in Ha. apply Forall_forall. intros b Hb.
  split; [by apply Ha|]. by intros ->.
Qed.

Lemma sorted_top20_ascending (l : list pystr) : StronglySorted str_lt (sorted_top20 l).
Proof.
  unfold sorted_top20.
  set (sorted := sorted_strs (elements (list_to_set l : gset pystr))).
  apply (StronglySorted_app_1_l _ _ (drop 20 sorted)). rewrite take_drop.
  apply sorted_NoDup_strict; [apply sorted_strs_sorted|].
  unfold sorted. rewrite sorted_strs_perm. apply NoDup_elements.
Qed.

Lemma sorted_top20_subseteq (l : list pystr) (x : pystr) : x ∈ sorted_top20 l -> x ∈ l.
Proof.
  unfold sorted_top20. intros Hx%subseteq_take.
  rewrite sorted_strs_perm in Hx. set_solver.
Qed.

Section EntityDictionary.
Context `{Unicode}.

Lemma dict_set_Forall {V} (R : pystr * V -> Prop) (d : dict V) (k : pystr) (v : V) :
  Forall R d -> R (k, v) -> Forall R (dict_set d k v).
Proof.
  intros Hd Hv. apply Forall_forall. intros kv [->|Hin]%elem_of_dict_set; [done|].
  rewrite Forall_forall in Hd. by apply Hd.
Qed.

(** The loop that renames the keys. *)
Lemma rename_Forall (R : pystr * list pystr -> Prop) (l acc : dict (list pystr)) :
  Forall (fun kv => R (default kv.1 (dict_get label_mapping kv.1), kv.2)) l ->
  Forall R acc ->
  Forall R (foldl (fun readable_entities kv =>
                     let readable_label := default (fst kv) (dict_get label_mapping (fst kv)) in
                     dict_set readable_entities readable_label (snd kv))
                  acc l).
Proof.
  intros Hl. revert acc.
  induction Hl as [|kv l Hkv Hl IH]; simpl; intros acc Hacc; [done|].
  apply IH. by apply dict_set_Forall.
Qed.

Lemma collect_values (P : pystr -> Prop) (ents : list ent) :
  forall (seen : gset (pystr * pystr)) (d : dict (list pystr)),
    (forall e, e ∈ ents -> is_valid_entity (ent_text e) (label_ e) = true ->
               P (clean_entity (ent_text e))) ->
    values_all P d -> values_all P (collect ents seen d).
Proof.
  induction ents as [|e ents IH]; intros seen d Hents Hd; [done|].
  assert (Hrest : forall e', e' ∈ ents ->
            is_valid_entity (ent_text e') (label_ e') = true ->
            P (clean_entity (ent_text e')))
    by (intros e' He'; apply Hents; by right).
  cbn [collect].
  destruct (is_valid_entity (ent_text e) (label_ e)) eqn:Hvalid; [|by apply IH].
  case_bool_decide; [by apply IH|].
  apply IH; [done|].
  set (d1 := match dict_get d (label_ e) with
             | Some _ => d
             | None => dict_set d (label_ e) []
             end).
  assert (Hd1 : values_all P d1).
  { unfold d1. destruct (dict_get d (label_ e)); [done|].
    apply (dict_set_Forall (fun kv => Forall P kv.2)); [done|constructor]. }
  apply (dict_set_Forall (fun kv => Forall P kv.2)); [done|]. simpl.
  apply Forall_app. split.
  - destruct (dict_get d1 (label_ e)) as [old|] eqn:Hold; simpl; [|constructor].
    apply dict_get_Some in Hold. unfold values_all in Hd1.
    rewrite Forall_forall in Hd1. by apply (Hd1 _ Hold).
  - constructor; [|constructor]. apply Hents; [by left|done].
Qed.

Lemma valid_entity_length (entity_text entity_label : pystr) :
  is_valid_entity entity_text entity_label = true ->
  2 <= len (clean_entity entity_text) <= 100.
Proof.
  unfold is_valid_entity.
  destruct ((len (clean_entity entity_text) <? 2)
            || (len (clean_entity entity_text) >? 100)) eqn:Hlen; [done|].
  apply orb_false_iff in Hlen as [Hlo%Z.ltb_ge Hhi%gtb_false]. done.
Qed.

End EntityDictionary.

(** X3. Every list of the dictionary returned by [extract_entities] is in
    strictly ascending order of code points: sorted, and without a string
    twice. *)
Theorem entity_lists_ascending `{Unicode} (self : NERProcessor) (text : pystr)
    (k : pystr) (l : list pystr) :
  (k, l) ∈ extract_entities self text -> StronglySorted str_lt l.
Proof.
  unfold extract_entities.
  assert (Hone : forall msg : pystr, (k, l) ∈ [(s "error", [msg])] ->
                                     StronglySorted str_lt l).
  { intros msg [= _ ->]%list_elem_of_singleton. by repeat constructor. }
  destruct (nlp self) as [tagger|]; [|apply Hone].
  destruct (tagger text) as [e|ents]; [apply Hone|].
  intros Hin.
  eapply (proj1 (Forall_forall (fun kv => StronglySorted str_lt kv.2) _)) in Hin;
    [exact Hin|].
  apply rename_Forall; [|constructor].
  apply Forall_map, Forall_forall. intros kv _. apply sorted_top20_ascending.
Qed.

Lemma entity_lists_ascending_witness : StronglySorted str_lt [s "Berlin"; s "Paris"].
Proof.
  apply (entity_lists_ascending {| nlp := Some cities_tagger |}
           (s "Paris and Berlin, then Paris") (s "Locations")).
  vm_compute. by left.
Defined.

(** X4. When the tagger answers, every string of the dictionary returned by
    [extract_entities] is the cleaned text of an entity of the tagger that
    passes [is_valid_entity]; it has between 2 and 100 characters. *)
Theorem entities_are_cleaned_valid `{Unicode} (tagger : pystr -> pystr + list ent)
    (text : pystr) (ents : list ent) (k : pystr) (l : list pystr) (x : pystr) :
  tagger text = inr ents ->
  (k, l) ∈ extract_entities {| nlp := Some tagger |} text -> x ∈ l ->
  cleaned_from ents x /\ 2 <= len x <= 100.
Proof.
  intros Htag Hin Hx. unfold extract_entities in Hin. cbn [nlp] in Hin.
  rewrite Htag in Hin.
  set (P := fun x => cleaned_from ents x /\ 2 <= len x <= 100).
  eapply (proj1 (Forall_forall (fun kv => Forall P kv.2) _)) in Hin.
  - rewrite Forall_forall in Hin. by apply Hin.
  - apply rename_Forall; [|constructor].
    apply Forall_map.
    pose proof (collect_values P ents ∅ []) as Hcollect.
    eapply Forall_impl; [apply Hcollect|].
    + intros e He Hvalid. split; [by exists e|by eapply valid_entity_length].
    + constructor.
    + intros kv Hkv. simpl. apply Forall_forall. intros y Hy%sorted_top20_subseteq.
      rewrite Forall_forall in Hkv. by apply Hkv.
Qed.

Lemma entities_are_cleaned_valid_witness :
  cleaned_from [ {| start_char := 0; end_char := 5; ent_text := s "Paris";
                    label_ := s "GPE" |} ] (s "Paris")
  /\ 2 <= len (s "Paris") <= 100.
Proof.
  apply (entities_are_cleaned_valid paris_tagger (s "Paris is great") _
           (s "Locations") [s "Paris"]).
  - reflexivity.
  - vm_compute. by left.
  - by left.
Defined.

(** X5. No key of the dictionary returned by [extract_entities] is one of
    the 17 tagger labels of [label_mapping]: each of them has been replaced
    by its readable name. *)
Theorem entity_keys_renamed `{Unicode} (self : NERProcessor) (text : pystr)
    (k : pystr) (l : list pystr) :
  (k, l) ∈ extract_entities self text -> k ∉ label_mapping.*1.
Proof.
  unfold extract_entities.
  assert (Hone : forall msg : pystr, (k, l) ∈ [(s "error", [msg])] ->
                                     k ∉ label_mapping.*1).
  { intros msg [= -> _]%list_elem_of_singleton. apply dict_get_None. by vm_compute. }
  destruct (nlp self) as [tagger|]; [|apply Hone].
  destruct (tagger text) as [e|ents]; [apply Hone|].
  intros Hin.
  eapply (proj1 (Forall_forall (fun kv => kv.1 ∉ label_mapping.*1) _)) in Hin;
    [exact Hin|].
  apply rename_Forall; [|constructor].
  apply Forall_forall. intros kv _. cbn [fst].
  destruct (dict_get label_mapping kv.1) as [readable|] eqn:Hget; cbn [from_option id].
  - apply dict_get_Some in Hget.
    assert (Hnames : Forall (fun kv => dict_get label_mapping kv.2 = None) label_mapping)
      by (apply (bool_decide_unpack _); by vm_compute).
    rewrite Forall_forall in Hnames. apply dict_get_None. by apply (Hnames _ Hget).
  - by apply dict_get_None.
Qed.

Lemma entity_keys_renamed_witness : s "Locations" ∉ label_mapping.*1.
Proof.
  apply (entity_keys_renamed {| nlp := Some paris_tagger |} (s "Paris is great")
           (s "Locations") [s "Paris"]).
  vm_compute. by left.
Defined.

(** ** The list of expressions *)

Section Expressions.
Context `{Unicode}.

Lemma desc_sorted_strongly {A : Type} (key : A -> Z) (l : list A) :
  desc_sorted key l -> StronglySorted (fun a b => key b <= key a) l.
Proof. apply Sorted_StronglySorted. intros a b c Hab Hbc. lia. Qed.

Lemma StronglySorted_take {A : Type} (R : relation A) (n : nat) (l : list A) :
  StronglySorted R l -> StronglySorted R (take n l).
Proof.
  intros Hl. apply (StronglySorted_app_1_l _ _ (drop n l)). by rewrite take_drop.
Qed.

(** What [is_valid_math_expression] accepts. *)
Lemma valid_math_expression_accepts (expr : pystr) :
  is_valid_math_expression expr = true ->
  3 <= len (clean_expression expr) <= 200
  /\ (exists symbol, symbol ∈ math_symbols /\ symbol ∈ clean_expression expr)
  /\ 2 <= len (List.filter isalnum (clean_expression expr)).
Proof.
  unfold is_valid_math_expression.
  set (cleaned := clean_expression expr).
  destruct ((len cleaned <? 3) || (len cleaned >? 200)) eqn:Hlen; [done|].
  apply orb_false_iff in Hlen as [Hlo%Z.ltb_ge Hhi%gtb_false].
  destruct (existsb _ math_symbols) eqn:Hsym; cbn [negb]; [|done].
  apply has_symbol_spec in Hsym.
  destruct (len (List.filter isalnum cleaned) <? 2) eqn:Hal; [done|].
  apply Z.ltb_ge in Hal. done.
Qed.

(** Cleaning leaves neither a multiplication nor a division sign. *)
Lemma clean_expression_signs (expr : pystr) :
  (0xD7%N ∉ clean_expression expr) /\ (0xF7%N ∉ clean_expression expr).
Proof.
  unfold clean_expression. split.
  - intros [[[[_ ?]|[Hstar _]]%elem_of_replace_char _]|[Hslash _]]%elem_of_replace_char.
    + done.
    + by apply list_elem_of_singleton in Hstar.
    + by apply list_elem_of_singleton in Hslash.
  - intros [[_ ?]|[Hslash _]]%elem_of_replace_char; [done|].
    by apply list_elem_of_singleton in Hslash.
Qed.

Lemma add_matches_from (expressions : gset pystr) (matches : list pystr) (e : pystr) :
  e ∈ add_matches expressions matches ->
  e ∈ expressions
  \/ exists match_, match_ ∈ matches /\ is_valid_math_expression match_ = true
                    /\ e = clean_expression match_.
Proof.
  unfold add_matches. revert expressions.
  induction matches as [|match_ matches IH]; intros expressions; cbn [foldl]; [auto|].
  intros [He|(m' & Hm' & Hvalid & ->)]%IH.
  - cbv beta in He.
    match type of He with
    | context [if ?c then _ else _] => destruct c eqn:Hok
    end; [|auto].
    apply andb_true_iff in Hok as [_ Hvalid].
    apply elem_of_union in He as [->%elem_of_singleton|He]; [|auto].
    right. exists match_. split; [by left|done].
  - right. exists m'. split; [by right|done].
Qed.

Lemma patterns_from (text : pystr) (pats : list re) (expressions : gset pystr) (e : pystr) :
  e ∈ foldl (fun expressions pattern =>
               add_matches expressions (findall re_flags pattern text))
            expressions pats ->
  e ∈ expressions
  \/ exists pattern match_,
       pattern ∈ pats /\ match_ ∈ findall re_flags pattern text
       /\ is_valid_math_expression match_ = true /\ e = clean_expression match_.
Proof.
  revert expressions.
  induction pats as [|pattern pats IH]; intros expressions; cbn [foldl]; [auto|].
  intros [[He|(match_ & Hm & Hvalid & ->)]%add_matches_from
         |(pattern' & match_ & Hp & Hm & Hvalid & ->)]%IH.
  - by left.
  - right. exists pattern, match_. split; [by left|done].
  - right. exists pattern', match_. split; [by right|done].
Qed.

End Expressions.

(** X6. [extract_expressions] lists the longer expressions first: every
    expression is at least as long as each one after it. *)
Theorem expressions_longest_first `{Unicode} (text : pystr) :
  StronglySorted (fun a b => len b <= len a) (extract_expressions text).
Proof.
  unfold extract_expressions. apply StronglySorted_take, desc_sorted_strongly.
  apply sort_desc_sorted.
Qed.

(** X7. Every string returned by [extract_expressions] is the cleaned form
    of a match of one of the patterns that [is_valid_math_expression]
    accepts; so it has between 3 and 200 characters, holds a symbol of
    [math_symbols] and at least two alphanumeric characters, and holds
    neither a multiplication sign (0xD7) nor a division sign (0xF7). *)
Theorem expressions_are_valid `{Unicode} (text e : pystr) :
  e ∈ extract_expressions text ->
  expression_of text e /\ well_formed_expression e.
Proof.
  unfold extract_expressions. intros He%subseteq_take.
  rewrite sort_desc_perm in He. apply elem_of_elements in He.
  apply patterns_from in He as [He|(pattern & match_ & Hp & Hm & Hvalid & ->)];
    [by apply elem_of_empty in He|].
  split; [by exists pattern, match_|].
  destruct (valid_math_expression_accepts _ Hvalid) as (Hlen & Hsym & Hal).
  destruct (clean_expression_signs match_) as [Htimes Hdiv].
  done.
Qed.

Lemma expressions_are_valid_witness :
  expression_of (s "$$ x + y = z $$") (s "x + y = z")
  /\ well_formed_expression (s "x + y = z").
Proof.
  apply expressions_are_valid. vm_compute. by left.
Defined.

(** ** The matcher: where a match ends *)

Section Reaching.
Context `{Unicode}.
Variable fl : flags.

Lemma reaches_refl (x : cursor) : reaches x x.
Proof. exists []. split; [done|simpl; lia]. Qed.

Lemma reaches_trans (x y z : cursor) : reaches x y -> reaches y z -> reaches x z.
Proof.
  intros (cs1 & Hr1 & Hp1) (cs2 & Hr2 & Hp2). exists (cs1 ++ cs2). split.
  - by rewrite Hr1, Hr2, app_assoc.
  - rewrite length_app. lia.
Qed.

Lemma one_inv (ok : char -> bool) (k : cursor -> option outcome) (x : cursor) (o : outcome) :
  one ok k x = Some o ->
  exists c r, rest x = c :: r /\ ok c = true /\ k (step c r x) = Some o.
Proof.
  unfold one. destruct (rest x) as [|c r]; [done|].
  destruct (ok c) eqn:Hc; [|done]. intros Hk. by exists c, r.
Qed.

Lemma reaches_step (c : char) (r : pystr) (x : cursor) :
  rest x = c :: r -> reaches x (step c r x).
Proof. intros Hr. exists [c]. split; [done|]. unfold step. simpl. lia. Qed.

(** A loop that succeeds has called its continuation, at a cursor that the
    body relates to the start. *)
Lemma rep_loop_inv (P : cursor -> cursor -> Prop)
    (ma : (cursor -> option outcome) -> cursor -> option outcome)
    (greedy : bool) (k : cursor -> option outcome) :
  (forall x, P x x) -> (forall x y z, P x y -> P y z -> P x z) ->
  (forall k' x o, ma k' x = Some o -> exists y, P x y /\ k' y = Some o) ->
  forall fuel lo hi x o,
    rep_loop ma greedy k fuel lo hi x = Some o -> exists y, P x y /\ k y = Some o.
Proof.
  intros Hrefl Htrans Hma.
  induction fuel as [|fuel IH]; intros lo hi x o; [done|].
  cbn [rep_loop].
  assert (Hstop : (if (lo =? 0)%nat then k x else None) = Some o ->
                  exists y, P x y /\ k y = Some o).
  { destruct (lo =? 0)%nat; [|done]. intros Hk. by exists x. }
  assert (Hagain :
    match hi with
    | Some O => None
    | _ => ma (fun y => if (lo =? 0)%nat && (pos y =? pos x)%nat then None
                        else rep_loop ma greedy k fuel (Nat.pred lo) (Nat.pred <$> hi) y) x
    end = Some o -> exists y, P x y /\ k y = Some o).
  { intros Hsome.
    assert (exists y, P x y /\
              (if (lo =? 0)%nat && (pos y =? pos x)%nat then None
               else rep_loop ma greedy k fuel (Nat.pred lo) (Nat.pred <$> hi) y) = Some o)
      as (y & Hxy & Hy).
    { destruct hi as [[|n]|]; [done| |]; by apply Hma in Hsome. }
    destruct (_ && _); [done|].
    apply IH in Hy as (z & Hyz & Hz). exists z. split; [by eapply Htrans|done]. }
  destruct greedy.
  - destruct (match hi with Some O => None | _ => _ end) as [o'|];
      [intros [= ->]; by apply Hagain|exact Hstop].
  - destruct (if (lo =? 0)%nat then k x else None) as [o'|];
      [intros [= ->]; by apply Hstop|exact Hagain].
Qed.

(** A match that succeeds has called its continuation further on in the
    text; a pattern without a group leaves the captured span as it was. *)
Lemma m_inv (r : re) :
  forall k x o,
    m fl r k x = Some o ->
    exists y, (reaches x y /\ (has_group r = false -> grp y = grp x)) /\ k y = Some o.
Proof.
  induction r as [|a| |neg items|a IHa b IHb|a IHa b IHb|greedy lo hi a IHa|a IHa| | |];
    intros k x o; cbn [m has_group].
  - intros Hk. exists x. split; [split; [apply reaches_refl|done]|done].
  - intros (c & r & Hr & _ & Hk)%one_inv. exists (step c r x).
    split; [split; [by apply reaches_step|done]|done].
  - intros (c & r & Hr & _ & Hk)%one_inv. exists (step c r x).
    split; [split; [by apply reaches_step|done]|done].
  - intros (c & r & Hr & _ & Hk)%one_inv. exists (step c r x).
    split; [split; [by apply reaches_step|done]|done].
  - intros (y & [Hxy Hgy] & (z & [Hyz Hgz] & Hk)%IHb)%IHa. exists z.
    split; [split; [by eapply reaches_trans|]|done].
    intros [Ha Hb]%orb_false_iff. by rewrite Hgz, Hgy.
  - destruct (m fl a k x) as [o'|] eqn:Ha.
    + intros [= ->]. apply IHa in Ha as (y & [Hxy Hgy] & Hk). exists y.
      split; [split; [done|]|done]. by intros [? _]%orb_false_iff; auto.
    + intros (y & [Hxy Hgy] & Hk)%IHb. exists y.
      split; [split; [done|]|done]. by intros [_ ?]%orb_false_iff; auto.
  - apply (rep_loop_inv
             (fun x y => reaches x y /\ (has_group a = false -> grp y = grp x))).
    + intros y. split; [apply reaches_refl|done].
    + intros x1 x2 x3 [H12 G12] [H23 G23].
      split; [by eapply reaches_trans|]. intros Hg. by rewrite G23, G12.
    + apply IHa.
  - intros (y & [Hxy _] & Hk)%IHa.
    exists {| pos := pos y; prev := prev y; rest := rest y; grp := Some (pos x, pos y) |}.
    split; [split; [exact Hxy|done]|done].
  - destruct (at_bol fl x); [|done]. intros Hk. exists x.
    split; [split; [apply reaches_refl|done]|done].
  - destruct (at_eol fl x); [|done]. intros Hk. exists x.
    split; [split; [apply reaches_refl|done]|done].
  - destruct (at_word_boundary x); [|done]. intros Hk. exists x.
    split; [split; [apply reaches_refl|done]|done].
Qed.

(** Every hit of a scan is a successful match at some offset of the text. *)
Lemma scan_hit (r : re) (rs : pystr) :
  forall p pv skip h,
    h ∈ scan fl r p pv rs skip ->
    exists pre rs' pv',
      rs = pre ++ rs' /\ h_start h = (p + length pre)%nat
      /\ m fl r accept {| pos := h_start h; prev := pv'; rest := rs'; grp := None |}
         = Some (h_end h, h_grp h).
Proof.
  induction rs as [|c rs IH]; intros p pv skip h.
  - destruct skip as [|skip]; cbn [scan]; [|by intros ?%elem_of_nil].
    destruct (m fl r accept _) as [[e g]|] eqn:Hm; [|by intros ?%elem_of_nil].
    intros ->%list_elem_of_singleton. exists [], [], pv. cbn [h_start h_end h_grp].
    split; [done|]. split; [simpl; lia|done].
  - assert (Hlater : forall skip', h ∈ scan fl r (S p) (Some c) rs skip' ->
              exists pre rs' pv',
                c :: rs = pre ++ rs' /\ h_start h = (p + length pre)%nat
                /\ m fl r accept {| pos := h_start h; prev := pv'; rest := rs'; grp := None |}
                   = Some (h_end h, h_grp h)).
    { intros skip' (pre & rs' & pv' & -> & Hstart & Hm)%IH.
      exists (c :: pre), rs', pv'. split; [done|]. split; [simpl; lia|done]. }
    destruct skip as [|skip]; cbn [scan]; [|apply Hlater].
    destruct (m fl r accept _) as [[e g]|] eqn:Hm; [|apply Hlater].
    intros [->|Hin]%elem_of_cons; [|by eapply Hlater].
    exists [], (c :: rs), pv. cbn [h_start h_end h_grp].
    split; [done|]. split; [simpl; lia|done].
Qed.

(** A hit of [finditer] lies inside the text, and [group(0)] is what the
    match read. *)
Lemma finditer_hit (r : re) (text : pystr) (h : hit) :
  h ∈ finditer fl r text ->
  exists pre cs post pv,
    text = pre ++ cs ++ post
    /\ h_start h = length pre /\ h_end h = (length pre + length cs)%nat
    /\ group0 text h = cs
    /\ m fl r accept {| pos := length pre; prev := pv; rest := cs ++ post; grp := None |}
       = Some (h_end h, h_grp h).
Proof.
  unfold finditer. intros (pre & rs' & pv & -> & Hstart & Hm)%scan_hit.
  simpl in Hstart.
  pose proof Hm as (y & [(cs & Hrest & Hpos) _] & Hacc)%m_inv.
  unfold accept in Hacc. injection Hacc as Hend _. simpl in Hrest, Hpos.
  exists pre, cs, (rest y), pv. rewrite <- Hrest, <- Hstart.
  split; [done|]. split; [done|]. split; [lia|]. split; [|done].
  unfold group0, seg. rewrite <- Hend, Hpos, Hstart, Hrest.
  rewrite drop_app_length.
  replace (length pre + length cs - length pre)%nat with (length cs) by lia.
  by rewrite take_app_length.
Qed.

End Reaching.

(** ** Expressions with their context *)

Section Formulas.
Context `{Unicode}.

Lemma insert_asc_hd {A : Type} (key : A -> Z) (x a : A) (l : list A) :
  HdRel (fun a b => key a <= key b) a l -> key a <= key x ->
  HdRel (fun a b => key a <= key b) a (insert_asc key x l).
Proof.
  intros Hl Hx. destruct l as [|y l]; simpl; [by constructor|].
  destruct (key x <=? key y); constructor; [done|]. by inversion Hl.
Qed.

Lemma sort_asc_sorted {A : Type} (key : A -> Z) (l : list A) :
  Sorted (fun a b => key a <= key b) (sort_asc key l).
Proof.
  induction l as [|x l IH]; simpl; [constructor|].
  induction IH as [|y l' Hl' IH' Hhd]; simpl; [by repeat constructor|].
  destruct (key x <=? key y) eqn:E.
  - apply Z.leb_le in E. constructor; [by constructor|]. by constructor.
  - apply Z.leb_gt in E. constructor; [done|]. apply insert_asc_hd; [done|lia].
Qed.

Lemma unique_expressions_spec (items : list formula) :
  forall seen : gset pystr,
    NoDup (map expression (unique_expressions items seen))
    /\ forall f, f ∈ unique_expressions items seen -> f ∈ items /\ expression f ∉ seen.
Proof.
  induction items as [|item items IH]; intros seen; cbn [unique_expressions].
  - split; [constructor|]. by intros f ?%elem_of_nil.
  - case_bool_decide as Hseen.
    + destruct (IH seen) as [Hnodup Hin]. split; [done|].
      intros f [? ?]%Hin. split; [by right|done].
    + destruct (IH ({[ expression item ]} ∪ seen)) as [Hnodup Hin]. split.
      * cbn [map]. apply NoDup_cons. split; [|done].
        intros (f & Heq & [_ Hnot]%Hin)%list_elem_of_fmap.
        apply Hnot. rewrite <- Heq. by apply elem_of_union_l, elem_of_singleton.
      * intros f [->|[? Hnot]%Hin]%elem_of_cons; [split; [by left|done]|].
        split; [by right|]. intros Hs. apply Hnot. by apply elem_of_union_r.
Qed.

Lemma formulas_of_spec (text : pystr) (context_chars : Z) (pattern : re) (f : formula) :
  f ∈ formulas_of text context_chars pattern ->
  exists h, h ∈ finditer re_flags pattern text
    /\ is_valid_math_expression (group0 text h) = true
    /\ expression f = clean_expression (group0 text h)
    /\ position f = Z.of_nat (h_start h)
    /\ context f = strip (slice text (Z.max 0 (Z.of_nat (h_start h) - context_chars))
                                    (Z.min (len text) (Z.of_nat (h_end h) + context_chars))).
Proof.
  unfold formulas_of. intros (h & Hh & Hf)%list_elem_of_In%in_flat_map.
  apply list_elem_of_In in Hh. exists h. split; [done|].
  destruct (is_valid_math_expression (group0 text h)) eqn:Hvalid; [|by destruct Hf].
  destruct Hf as [<-|[]]. done.
Qed.

End Formulas.

(** X8. The items returned by [extract_formulas_with_context] are in the
    order of their offsets in the text and no two of them carry the same
    expression; each is made of a valid match of one of the patterns, with
    its offset inside the text. *)
Theorem formulas_in_reading_order `{Unicode} (text : pystr) (context_chars : Z) :
  let formulas := extract_formulas_with_context text context_chars in
  StronglySorted (fun a b => position a <= position b) formulas
  /\ NoDup (map expression formulas)
  /\ Forall (fun f => formula_of text context_chars f /\ 0 <= position f <= len text)
            formulas.
Proof.
  unfold extract_formulas_with_context. cbv zeta.
  set (found := flat_map (formulas_of text context_chars) patterns).
  destruct (unique_expressions_spec found ∅) as [Hnodup Hin].
  split; [|split].
  - apply StronglySorted_take, Sorted_StronglySorted; [|apply sort_asc_sorted].
    intros a b c Hab Hbc. lia.
  - rewrite fmap_take. eapply sublist_NoDup; [|apply sublist_take].
    by rewrite sort_asc_perm.
  - apply Forall_take. rewrite sort_asc_perm. apply Forall_forall.
    intros f [Hf _]%Hin. unfold found in Hf.
    apply list_elem_of_In, in_flat_map in Hf as (pattern & Hp & Hf).
    apply list_elem_of_In in Hp, Hf.
    apply formulas_of_spec in Hf as (h & Hh & Hvalid & Hexpr & Hpos & Hctx).
    split; [by exists pattern, h|].
    apply finditer_hit in Hh as (pre & cs & post & pv & -> & Hstart & _).
    rewrite Hpos, Hstart. unfold len. rewrite length_app. lia.
Qed.

(** ** Inline mathematics *)

Section InlineMath.
Context `{Unicode}.

Lemma m_seq (fl : flags) (a b : re) (k : cursor -> option outcome) (x : cursor) :
  m fl (Seq a b) k x = m fl a (m fl b k) x.
Proof. done. Qed.

Lemma m_group (fl : flags) (a : re) (k : cursor -> option outcome) (x : cursor) :
  m fl (Group a) k x
  = m fl a (fun y => k {| pos := pos y; prev := prev y; rest := rest y;
                          grp := Some (pos x, pos y) |}) x.
Proof. done. Qed.

(** A match of [math_pattern] reads an equals sign. *)
Lemma math_pattern_reads_equals (x : cursor) (o : outcome) :
  m no_flags math_pattern accept x = Some o -> 61%N ∈ rest x.
Proof.
  unfold math_pattern. rewrite m_group.
  change (seq_ [plus inline_set; lit "="; plus inline_set])
    with (Seq (plus inline_set) (Seq (Seq (Lit 61%N) Eps) (Seq (plus inline_set) Eps))).
  rewrite m_seq. intros (y & [(cs & Hrest & _) _] & Hk)%m_inv.
  rewrite !m_seq in Hk. cbn [m] in Hk.
  apply one_inv in Hk as (c & r & Hr & Hc & _).
  unfold char_matches in Hc. cbn [ignorecase no_flags] in Hc.
  apply N.eqb_eq in Hc as ->. rewrite Hrest, Hr. apply elem_of_app. right. by left.
Qed.

Lemma no_equals_no_match (text : pystr) :
  61%N ∉ text -> findall no_flags math_pattern text = [].
Proof.
  intros Hnone. unfold findall.
  destruct (finditer no_flags math_pattern text) as [|h hits] eqn:Hhits; [done|].
  assert (h ∈ finditer no_flags math_pattern text) as Hh by (rewrite Hhits; by left).
  apply finditer_hit in Hh as (pre & cs & post & pv & -> & _ & _ & _ & Hm).
  apply math_pattern_reads_equals in Hm. simpl in Hm.
  exfalso. apply Hnone, elem_of_app. by right.
Qed.

End InlineMath.

(** X9. [preserve_inline_math] returns a text without an equals sign as it
    is: the pattern needs an equals sign, so nothing is wrapped. *)
Theorem preserve_inline_math_needs_equals `{Unicode} (text : pystr) :
  61%N ∉ text -> preserve_inline_math text = text.
Proof.
  intros Hnone. unfold preserve_inline_math. by rewrite no_equals_no_match.
Qed.

Lemma preserve_inline_math_needs_equals_witness :
  preserve_inline_math (s "no formula on this page") = s "no formula on this page".
Proof.
  apply preserve_inline_math_needs_equals.
  apply (bool_decide_unpack _). by vm_compute.
Defined.

(** ** The pattern for mathematical functions *)

Section FunctionPattern.
Context `{Unicode}.

(** A literal reads as many characters as it has, each matching its own. *)
Lemma lit_inv (fl : flags) (w : pystr) :
  forall (k : cursor -> option outcome) (x : cursor) (o : outcome),
    m fl (seq_ (map Lit w)) k x = Some o ->
    exists cs y,
      reads x cs y /\ Forall2 (fun c a => char_matches fl a c = true) cs w
      /\ grp y = grp x /\ k y = Some o.
Proof.
  induction w as [|a w IH]; intros k x o.
  - intros Hk. exists [], x. split; [split; [done|simpl; lia]|]. by split; [constructor|].
  - change (seq_ (map Lit (a :: w))) with (Seq (Lit a) (seq_ (map Lit w))).
    rewrite m_seq. cbn [m].
    intros (c & r & Hr & Hc & (cs & y & [Hrest Hpos] & Hall & Hg & Hk)%IH)%one_inv.
    exists (c :: cs), y. split; [|split; [by constructor|done]].
    cbn [step rest pos] in Hrest, Hpos.
    split; [by rewrite Hr, Hrest|]. rewrite Hpos. simpl. lia.
Qed.

Lemma alt_inv (fl : flags) (l : list re) (k : cursor -> option outcome)
    (x : cursor) (o : outcome) :
  l <> [] -> m fl (alt_ l) k x = Some o -> exists r, r ∈ l /\ m fl r k x = Some o.
Proof.
  induction l as [|a l IH]; [done|]. intros _.
  destruct l as [|b l]; [intros Hm; exists a; split; [by left|done]|].
  change (alt_ (a :: b :: l)) with (Alt a (alt_ (b :: l))). cbn [m].
  destruct (m fl a k x) as [o'|] eqn:Ha.
  - intros [= ->]. exists a. split; [by left|done].
  - intros (r & Hr & Hm)%IH; [|done]. exists r. split; [by right|done].
Qed.

Lemma seg_middle (pre cs post : pystr) :
  seg (pre ++ cs ++ post) (length pre) (length pre + length cs) = cs.
Proof.
  unfold seg. rewrite drop_app_length.
  replace (length pre + length cs - length pre)%nat with (length cs) by lia.
  by rewrite take_app_length.
Qed.

(** The group of a match of [function_pattern] holds the name of a
    function, letter by letter, in any case. *)
Lemma function_pattern_group (x : cursor) (e : nat) (g : option (nat * nat)) :
  m re_flags function_pattern accept x = Some (e, g) ->
  exists cs post,
    rest x = cs ++ post /\ g = Some (pos x, (pos x + length cs)%nat)
    /\ Forall (fun c => exists a, ascii_lower a = true
                                  /\ char_matches re_flags a c = true) cs.
Proof.
  unfold function_pattern.
  match goal with
  | |- m _ (seq_ (Group (alt_ ?names) :: ?more)) _ _ = _ -> _ =>
      change (seq_ (Group (alt_ names) :: more)) with (Seq (Group (alt_ names)) (seq_ more));
      set (tail := seq_ more)
  end.
  rewrite m_seq, m_group.
  intros (r & (name & -> & Hname)%list_elem_of_fmap & Hm)%alt_inv; [|done].
  unfold lit in Hm.
  apply lit_inv in Hm as (cs & y & [Hrest Hpos] & Hall & _ & Hk).
  apply m_inv in Hk as (z & [_ Hgrp] & Hacc).
  specialize (Hgrp eq_refl). cbn [grp] in Hgrp.
  unfold accept in Hacc. injection Hacc as _ <-.
  exists cs, (rest y). split; [done|]. split; [by rewrite Hgrp, Hpos|].
  assert (Hletters : Forall (fun a => ascii_lower a = true) (s name)).
  { clear -Hname.
    assert (Hall : Forall (fun name => Forall (fun a => ascii_lower a = true) (s name))
                     ["sin"; "cos"; "tan"; "log"; "ln"; "exp"; "sqrt";
                      "abs"; "max"; "min"; "lim"]%string)
      by (apply (bool_decide_unpack _); by vm_compute).
    rewrite Forall_forall in Hall. by apply Hall. }
  clear -Hall Hletters.
  induction Hall as [|c a cs w Hc _ IH]; [constructor|].
  apply Forall_cons in Hletters as [Ha Hw].
  constructor; [by exists a|by apply IH].
Qed.

(** A character that matches a lower-case ASCII letter when case is
    ignored is no mathematical symbol. *)
Lemma letter_is_no_symbol (a c : char) :
  symbols_are_caseless ->
  ascii_lower a = true -> char_matches re_flags a c = true ->
  (c ∉ math_symbols) /\ c <> 0xD7%N /\ c <> 0xF7%N.
Proof.
  intros Hcaseless Ha Hc.
  assert (Hnotin : c ∉ 0xD7%N :: 0xF7%N :: math_symbols).
  { intros Hin.
    assert (Hplain : Forall (fun d => ascii_upper d = false /\ ascii_lower d = false)
                       (0xD7%N :: 0xF7%N :: math_symbols))
      by (apply (bool_decide_unpack _); by vm_compute).
    rewrite Forall_forall in Hplain. destruct (Hplain c Hin) as [Hup Hlow].
    unfold symbols_are_caseless in Hcaseless. rewrite Forall_forall in Hcaseless.
    specialize (Hcaseless c Hin).
    unfold char_matches in Hc. cbn [ignorecase re_flags] in Hc.
    apply N.eqb_eq in Hc. unfold tolower in Hc.
    assert (Hasc : is_ascii a = true).
    { unfold ascii_lower, between in Ha. unfold is_ascii.
      apply andb_true_iff in Ha as [_ Hhi%N.leb_le]. apply N.ltb_lt. lia. }
    assert (Hnoup : ascii_upper a = false).
    { unfold ascii_lower, ascii_upper, between in *.
      apply andb_true_iff in Ha as [Hlo%N.leb_le _].
      apply andb_false_iff. right. apply N.leb_gt. lia. }
    rewrite Hasc, Hnoup in Hc.
    destruct (is_ascii c) eqn:Hca.
    - rewrite Hup in Hc. subst c. congruence.
    - specialize (Hcaseless eq_refl). rewrite Hc in Hcaseless. congruence. }
  split; [|split].
  - intros Hin. apply Hnotin. by do 2 right.
  - intros ->. apply Hnotin. by left.
  - intros ->. apply Hnotin. right. by left.
Qed.

Lemma function_matches_invalid (text match_ : pystr) :
  symbols_are_caseless ->
  match_ ∈ findall re_flags function_pattern text ->
  is_valid_math_expression match_ = false.
Proof.
  intros Hcaseless. unfold findall.
  change (has_group function_pattern) with true. cbv iota.
  intros (h & -> & Hh)%list_elem_of_fmap.
  apply finditer_hit in Hh as (pre & cs0 & post0 & pv & -> & _ & _ & _ & Hm).
  apply function_pattern_group in Hm as (cs & post & Hrest & Hgrp & Hletters).
  cbn [rest pos] in Hrest, Hgrp.
  unfold group1. rewrite Hgrp, Hrest, seg_middle.
  apply (no_symbol_not_valid cs); [|done].
  intros c Hc. rewrite Forall_forall in Hletters.
  destruct (Hletters c Hc) as (a & Ha & Hmatch). by eapply letter_is_no_symbol.
Qed.

End FunctionPattern.

(** X10. The pattern for mathematical functions adds nothing to the result
    of [extract_expressions]: the pattern has a group around the name of
    the function, so [findall] gives the name alone ([sin], [log], ...),
    which holds no mathematical symbol and is never valid.  A call such as
    [sin(x+1)] is therefore found by [extract_formulas_with_context], which
    reads the whole match, and not by [extract_expressions]. *)
Theorem function_pattern_adds_nothing `{Unicode} (text : pystr) (expressions : gset pystr) :
  symbols_are_caseless ->
  function_pattern ∈ patterns
  /\ add_matches expressions (findall re_flags function_pattern text) = expressions.
Proof.
  intros Hcaseless. split.
  - apply (list_elem_of_lookup_2 _ 7%nat). reflexivity.
  - apply add_matches_none. intros match_ Hm. by eapply function_matches_invalid.
Qed.

Lemma function_pattern_adds_nothing_witness :
  findall re_flags function_pattern (s "y = sin(x+1)") = [s "sin"]
  /\ add_matches ∅ (findall re_flags function_pattern (s "y = sin(x+1)")) = ∅.
Proof.
  split; [by vm_compute|].
  apply function_pattern_adds_nothing.
  apply (bool_decide_unpack _). by vm_compute.
Defined.

(** The two extractors on a call of a function. *)
Example function_call_found_with_context_only :
  extract_expressions (s "sin(x+1)") = []
  /\ map expression (extract_formulas_with_context (s "sin(x+1)") 100) = [s "sin(x+1)"].
Proof. split; by vm_compute. Qed.

(** ** The matcher on runs of the characters of a set *)

Section Runs.
Context `{Unicode}.
Variables (fl : flags) (a : re) (ok : char -> bool).
Hypothesis a_one : forall k x, m fl a k x = one ok k x.

Lemma run_length_le (rs : pystr) : (run_length ok rs <= length rs)%nat.
Proof. induction rs as [|c rs IH]; simpl; [done|]. destruct (ok c); simpl; lia. Qed.

(** [a*] followed by nothing else: the whole run is read. *)
Lemma star_run (rs : pystr) :
  forall p pv g fuel,
    (length rs < fuel)%nat ->
    rep_loop (m fl a) true accept fuel 0 None
      {| pos := p; prev := pv; rest := rs; grp := g |}
    = Some ((p + run_length ok rs)%nat, g).
Proof.
  induction rs as [|c rs IH]; intros p pv g fuel Hfuel;
    (destruct fuel as [|fuel]; [simpl in Hfuel; lia|]);
    cbn [rep_loop Nat.eqb andb]; rewrite a_one; unfold one; cbn [rest run_length].
  - unfold accept. cbn [pos grp]. do 2 f_equal. lia.
  - destruct (ok c).
    + unfold step. cbn [pos grp].
      replace (S p =? p)%nat with false by (symmetry; apply Nat.eqb_neq; lia).
      cbn [Nat.pred fmap option_fmap option_map].
      rewrite IH by (simpl in Hfuel; lia). do 2 f_equal. lia.
    + unfold accept. cbn [pos grp]. do 2 f_equal. lia.
Qed.

(** [a+] at a cursor: the whole run, if there is one. *)
Lemma plus_run_accept (p : nat) (pv : option char) (rs : pystr) (g : option (nat * nat)) :
  m fl (plus a) accept {| pos := p; prev := pv; rest := rs; grp := g |}
  = match rs with
    | c :: _ => if ok c then Some ((p + run_length ok rs)%nat, g) else None
    | [] => None
    end.
Proof.
  unfold plus. cbn [m rest].
  replace (1 + length rs + 1)%nat with (S (length rs + 1)) by lia.
  cbn [rep_loop Nat.eqb andb]. rewrite a_one. unfold one. cbn [rest].
  destruct rs as [|c rs]; [done|].
  cbn [run_length]. destruct (ok c); [|done].
  unfold step. cbn [pos grp Nat.pred fmap option_fmap option_map].
  rewrite star_run by (simpl; lia). do 2 f_equal. lia.
Qed.

Lemma replace_runs_true (repl x : pystr) :
  replace_runs ok repl true x = replace_runs ok repl false (drop (run_length ok x) x).
Proof.
  induction x as [|c x IH]; simpl; [done|].
  destruct (ok c) eqn:Hc; [done|]. simpl. by rewrite Hc.
Qed.

Lemma fields_true (x : pystr) :
  fields ok true x = fields ok false (drop (run_length ok x) x).
Proof.
  induction x as [|c x IH]; simpl; [done|].
  destruct (ok c) eqn:Hc; [done|]. simpl. by rewrite Hc.
Qed.

Lemma fields_nonempty (in_run : bool) (x : pystr) : fields ok in_run x <> [].
Proof.
  revert in_run. induction x as [|c x IH]; intros in_run; simpl; [done|].
  destruct (ok c); [destruct in_run; [apply IH|done]|].
  specialize (IH false). by destruct (fields ok false x).
Qed.

Lemma prepend_nil (l : list pystr) : l <> [] -> prepend [] l = l.
Proof. by destruct l. Qed.

Lemma prepend_snoc (w : pystr) (c : char) (l : list pystr) :
  l <> [] -> prepend (w ++ [c]) l = prepend w (push c l).
Proof. destruct l as [|f fs]; [done|]. intros _. simpl. by rewrite <- app_assoc. Qed.

(** [re.sub] of [a+] while scanning: [pre] has been read, the text from
    [from] on is still to be written out, and [n] characters of [rs]
    belong to the match being replaced. *)
Lemma sub_scan_runs (repl : pystr) (rs : pystr) :
  forall (pre : pystr) (pv : option char) (n from : nat),
    (n = 0%nat /\ (from <= length pre)%nat)
    \/ (from = (length pre + n)%nat /\ (n <= length rs)%nat) ->
    sub_build (pre ++ rs) repl from (scan fl (plus a) (length pre) pv rs n)
    = drop from pre ++ replace_runs ok repl false (drop n rs).
Proof.
  induction rs as [|c rs IH]; intros pre pv n from Hmode.
  - assert (n = 0%nat) as -> by (destruct Hmode as [[? _]|[_ Hn]]; simpl in *; lia).
    cbn [scan]. rewrite plus_run_accept. cbn [sub_build].
    by rewrite !app_nil_r.
  - destruct n as [|n].
    + assert (Hfrom : (from <= length pre)%nat) by (destruct Hmode as [[_ ?]|[? _]]; lia).
      cbn [scan]. rewrite plus_run_accept. cbn [run_length replace_runs drop].
      destruct (ok c) eqn:Hc.
      * cbn [sub_build h_start h_end]. rewrite seg_before by done.
        replace (length pre + S (run_length ok rs) - length pre - 1)%nat
          with (run_length ok rs) by lia.
        rewrite cons_middle_snoc, <- (length_snoc pre c).
        rewrite IH.
        -- rewrite (drop_ge (pre ++ [c])) by (rewrite length_snoc; lia).
           by rewrite <- replace_runs_true.
        -- right. rewrite length_snoc. split; [lia|apply run_length_le].
      * rewrite cons_middle_snoc, <- (length_snoc pre c).
        rewrite IH by (left; rewrite length_snoc; split; [done|lia]).
        rewrite drop_app_le by done. by rewrite <- app_assoc.
    + destruct Hmode as [[? _]|[-> Hn]]; [done|]. simpl in Hn.
      cbn [scan drop].
      rewrite cons_middle_snoc, <- (length_snoc pre c).
      rewrite IH by (right; rewrite length_snoc; split; lia).
      rewrite (drop_ge (pre ++ [c])) by (rewrite length_snoc; lia).
      by rewrite (drop_ge pre) by lia.
Qed.

(** [re.split] on [a+] while scanning. *)
Lemma split_scan_runs (rs : pystr) :
  forall (pre : pystr) (pv : option char) (n from : nat),
    (n = 0%nat /\ (from <= length pre)%nat)
    \/ (from = (length pre + n)%nat /\ (n <= length rs)%nat) ->
    split_build (pre ++ rs) from (scan fl (plus a) (length pre) pv rs n)
    = prepend (drop from pre) (fields ok false (drop n rs)).
Proof.
  induction rs as [|c rs IH]; intros pre pv n from Hmode.
  - assert (n = 0%nat) as -> by (destruct Hmode as [[? _]|[_ Hn]]; simpl in *; lia).
    cbn [scan]. rewrite plus_run_accept. cbn [split_build drop fields prepend].
    by rewrite !app_nil_r.
  - destruct n as [|n].
    + assert (Hfrom : (from <= length pre)%nat) by (destruct Hmode as [[_ ?]|[? _]]; lia).
      cbn [scan]. rewrite plus_run_accept. cbn [run_length fields drop].
      destruct (ok c) eqn:Hc.
      * cbn [split_build h_start h_end prepend]. rewrite seg_before by done.
        replace (length pre + S (run_length ok rs) - length pre - 1)%nat
          with (run_length ok rs) by lia.
        rewrite cons_middle_snoc, <- (length_snoc pre c).
        rewrite IH.
        -- rewrite (drop_ge (pre ++ [c])) by (rewrite length_snoc; lia).
           rewrite prepend_nil by apply fields_nonempty.
           by rewrite app_nil_r, <- fields_true.
        -- right. rewrite length_snoc. split; [lia|apply run_length_le].
      * rewrite cons_middle_snoc, <- (length_snoc pre c).
        rewrite IH by (left; rewrite length_snoc; split; [done|lia]).
        rewrite drop_app_le by done. apply prepend_snoc, fields_nonempty.
    + destruct Hmode as [[? _]|[-> Hn]]; [done|]. simpl in Hn.
      cbn [scan drop].
      rewrite cons_middle_snoc, <- (length_snoc pre c).
      rewrite IH by (right; rewrite length_snoc; split; lia).
      rewrite (drop_ge (pre ++ [c])) by (rewrite length_snoc; lia).
      by rewrite (drop_ge pre) by lia.
Qed.

Lemma sub_runs (repl x : pystr) : Re.sub fl (plus a) repl x = replace_runs ok repl false x.
Proof.
  unfold Re.sub, finditer.
  apply (sub_scan_runs repl x [] None 0 0). left. simpl. split; [done|lia].
Qed.

Lemma split_runs (x : pystr) : Re.split fl (plus a) x = fields ok false x.
Proof.
  unfold Re.split, finditer.
  etrans; [apply (split_scan_runs x [] None 0 0); left; simpl; split; [done|lia]|].
  apply prepend_nil, fields_nonempty.
Qed.

(** What is left holds no character of a run. *)
Lemma elem_of_replace_runs (repl : pystr) (in_run : bool) (x : pystr) (c : char) :
  c ∈ replace_runs ok repl in_run x -> (c ∈ x /\ ok c = false) \/ c ∈ repl.
Proof.
  revert in_run. induction x as [|d x IH]; intros in_run; simpl;
    [by intros ?%elem_of_nil|].
  destruct (ok d) eqn:Hd.
  - destruct in_run.
    + intros [[? ?]|?]%IH; [left; split; [by right|done]|by right].
    + intros [?|[[? ?]|?]%IH]%elem_of_app; [by right|left; split; [by right|done]|by right].
  - intros [->|[[? ?]|?]%IH]%elem_of_cons;
      [left; split; [by left|done]|left; split; [by right|done]|by right].
Qed.

Lemma elem_of_fields (in_run : bool) (x piece : pystr) (c : char) :
  piece ∈ fields ok in_run x -> c ∈ piece -> c ∈ x /\ ok c = false.
Proof.
  revert in_run piece. induction x as [|d x IH]; intros in_run piece; simpl.
  - by intros ->%list_elem_of_singleton ?%elem_of_nil.
  - destruct (ok d) eqn:Hd.
    + destruct in_run.
      * intros Hp Hc. destruct (IH _ _ Hp Hc). split; [by right|done].
      * intros [->|Hp]%elem_of_cons Hc; [by apply elem_of_nil in Hc|].
        destruct (IH _ _ Hp Hc). split; [by right|done].
    + specialize (IH false). destruct (fields ok false x) as [|f fs]; simpl.
      * intros ->%list_elem_of_singleton ->%list_elem_of_singleton. split; [by left|done].
      * intros [->|Hp]%elem_of_cons Hc.
        -- apply elem_of_cons in Hc as [->|Hc]; [split; [by left|done]|].
           destruct (IH f ltac:(by left) Hc). split; [by right|done].
        -- destruct (IH piece ltac:(by right) Hc). split; [by right|done].
Qed.

End Runs.

Section SetRuns.
Context `{Unicode}.

Lemma m_set (fl : flags) (neg : bool) (items : list item)
    (k : cursor -> option outcome) (x : cursor) :
  m fl (Set_ neg items) k x = one (set_accepts fl neg items) k x.
Proof. done. Qed.

(** Every string of [re.split] on [[.!?]+] is free of these three. *)
Lemma sentence_has_no_terminator (text piece : pystr) (c : char) :
  piece ∈ Re.split no_flags sentence_end text -> c ∈ piece -> c ∉ s ".!?".
Proof.
  unfold sentence_end, cls.
  rewrite (split_runs no_flags _ _ (m_set no_flags false _)).
  intros Hp Hc. destruct (elem_of_fields _ _ _ _ _ Hp Hc) as [_ Hok].
  intros Hin. unfold set_accepts in Hok. cbn [xorb] in Hok.
  assert (existsb (item_matches no_flags c) (chars ".!?") = true) as Hyes; [|congruence].
  apply existsb_exists. exists (Ch c). split; [|apply N.eqb_refl].
  apply in_map, list_elem_of_In, Hin.
Qed.

Lemma elem_of_collapse_go (in_run : bool) (x : pystr) (c : char) :
  c ∈ collapse_go in_run x -> (c ∈ x /\ isspace c = false) \/ c = 32%N.
Proof.
  revert in_run. induction x as [|d x IH]; intros in_run; simpl;
    [by intros ?%elem_of_nil|].
  destruct (isspace d) eqn:Hd.
  - destruct in_run.
    + intros [[? ?]|?]%IH; [left; split; [by right|done]|by right].
    + intros [->|[[? ?]|?]%IH]%elem_of_cons;
        [by right|left; split; [by right|done]|by right].
  - intros [->|[[? ?]|?]%IH]%elem_of_cons;
      [left; split; [by left|done]|left; split; [by right|done]|by right].
Qed.

End SetRuns.

(** X11. [clean_entity] leaves only word characters, the space, and the
    four characters [.], [-], [(] and [)]: every other character, and every
    whitespace character other than the space, is gone. *)
Theorem clean_entity_alphabet `{Unicode} (entity_text : pystr) (c : char) :
  c ∈ clean_entity entity_text -> isword c = true \/ c ∈ s " .-()".
Proof.
  unfold clean_entity, ncls.
  rewrite (sub_runs no_flags _ _ (m_set no_flags true _)), sub_ws_collapse.
  intros [[Hc Hok]|Hc]%elem_of_replace_runs; [|by apply elem_of_nil in Hc].
  unfold set_accepts in Hok. cbn [xorb] in Hok. apply negb_false_iff in Hok.
  apply existsb_exists in Hok as (i & Hi & Hmatch).
  apply elem_of_collapse_go in Hc as [[_ Hsp]| ->]; [|right; by left].
  apply list_elem_of_In in Hi.
  apply elem_of_cons in Hi as [->|Hi]; [by left|].
  apply elem_of_cons in Hi as [->|Hi]; [simpl in Hmatch; congruence|].
  apply list_elem_of_fmap in Hi as (d & -> & Hd). right.
  simpl in Hmatch. apply N.eqb_eq in Hmatch as ->. by right.
Qed.

Lemma clean_entity_alphabet_witness :
  isword 66%N = true \/ 66%N ∈ s " .-()".
Proof.
  apply (clean_entity_alphabet (s "A&B, Inc.")). vm_compute. right. by left.
Defined.

(** ** Words: [split] and [join] *)

Section Words.
Context `{Unicode}.

Lemma split_go_word (w : pystr) :
  Forall (fun c => isspace c = false) w ->
  forall x acc, split_go (w ++ x) acc = split_go x (reverse w ++ acc).
Proof.
  induction 1 as [|c w Hc _ IH]; intros x acc; [done|].
  cbn [app split_go]. rewrite Hc, IH, reverse_cons. by rewrite <- app_assoc.
Qed.

Lemma split_go_words (x : pystr) :
  forall acc, Forall (fun c => isspace c = false) acc -> Forall is_word (split_go x acc).
Proof.
  assert (Hword : forall acc, acc <> [] -> Forall (fun c => isspace c = false) acc ->
                              is_word (reverse acc)).
  { intros acc Hne Hacc. split; [|by apply Forall_reverse].
    intros Hnil. apply Hne. by rewrite <- (reverse_involutive acc), Hnil. }
  induction x as [|c x IH]; intros acc Hacc; cbn [split_go].
  - destruct acc as [|a acc]; [constructor|]. constructor; [by apply Hword|constructor].
  - destruct (isspace c) eqn:Hc.
    + destruct acc as [|a acc]; [by apply IH|].
      constructor; [by apply Hword|]. by apply IH.
    + apply IH. by constructor.
Qed.

Lemma split_words (x : pystr) : Forall is_word (Py.split x).
Proof. apply split_go_words. constructor. Qed.

(** Words joined by single spaces split into the same words. *)
Lemma split_join (ws : list pystr) :
  Forall is_word ws -> Py.split (join (s " ") ws) = ws.
Proof.
  unfold Py.split. induction 1 as [|w ws [Hne Hw] Hws IH]; [done|].
  destruct ws as [|w' ws].
  - cbn [join]. rewrite <- (app_nil_r w) at 1. rewrite split_go_word by done.
    cbn [split_go]. rewrite app_nil_r.
    destruct (reverse w) as [|a r] eqn:Hr.
    + exfalso. apply Hne. by rewrite <- (reverse_involutive w), Hr.
    + by rewrite <- Hr, reverse_involutive.
  - change (join (s " ") (w :: w' :: ws)) with (w ++ 32%N :: join (s " ") (w' :: ws)).
    rewrite split_go_word by done. cbn [split_go].
    change (isspace 32%N) with true. cbv iota. rewrite app_nil_r.
    destruct (reverse w) as [|a r] eqn:Hr.
    + exfalso. apply Hne. by rewrite <- (reverse_involutive w), Hr.
    + by rewrite <- Hr, reverse_involutive, IH.
Qed.

(** A text with a character that is no whitespace has a word. *)
Lemma split_go_nil (x acc : pystr) : split_go x acc = [] -> acc = [] /\ strip x = [].
Proof.
  revert acc. induction x as [|c x IH]; intros acc; cbn [split_go].
  - by destruct acc.
  - unfold strip. cbn [lstrip]. destruct (isspace c) eqn:Hc.
    + destruct acc; [|done]. apply IH.
    + by intros [[=] _]%IH.
Qed.

Lemma split_nonempty (x : pystr) : strip x <> [] -> Py.split x <> [].
Proof. intros Hx Hs. by apply split_go_nil in Hs as [_ ?]. Qed.

End Words.

(** ** Repeated words *)

Section Repetition.
Context `{Unicode}.

Lemma lead_alike (p q : pystr) (ws : list pystr) :
  lower p = lower q -> lead p ws = lead q ws.
Proof. intros Hpq. induction ws as [|w ws IH]; simpl; [done|]. by rewrite Hpq, IH. Qed.

Lemma drop_repeats_capped (words : list pystr) :
  forall (prev_word : pystr) (repeat_count : Z),
    0 <= repeat_count ->
    Z.of_nat (lead prev_word (drop_repeats words prev_word repeat_count))
      <= Z.max 0 (2 - repeat_count)
    /\ capped (drop_repeats words prev_word repeat_count).
Proof.
  induction words as [|word words IH]; intros prev_word repeat_count Hcount;
    cbn [drop_repeats]; [simpl; split; [lia|done]|].
  unfold str_eqb. case_bool_decide as Halike.
  - destruct (IH word (repeat_count + 1)) as [Hlead Hcapped]; [lia|].
    rewrite (lead_alike prev_word word) by done.
    destruct (repeat_count + 1 <? 3) eqn:Hfew.
    + apply Z.ltb_lt in Hfew. cbn [lead capped]. unfold str_eqb.
      rewrite bool_decide_eq_true_2 by done. split; [lia|]. split; [lia|done].
    + apply Z.ltb_ge in Hfew. split; [lia|done].
  - destruct (IH word 0) as [Hlead Hcapped]; [lia|].
    cbn [lead capped]. unfold str_eqb. rewrite bool_decide_eq_false_2 by done.
    split; [lia|]. split; [lia|done].
Qed.

Lemma drop_repeats_Forall (P : pystr -> Prop) (words : list pystr) :
  Forall P words ->
  forall prev_word repeat_count, Forall P (drop_repeats words prev_word repeat_count).
Proof.
  induction 1 as [|word words Hword _ IH]; intros prev_word repeat_count;
    cbn [drop_repeats]; [constructor|].
  destruct (str_eqb _ _); [destruct (_ <? 3)|]; try constructor; auto.
Qed.

Lemma capped_app (pre ws : list pystr) : capped (pre ++ ws) -> capped ws.
Proof. induction pre as [|w pre IH]; [done|]. intros [_ ?]. auto. Qed.

Lemma capped_runs (ws run : list pystr) :
  capped ws -> run_of_alike ws run -> (length run <= 3)%nat.
Proof.
  intros Hcapped [(pre & post & ->) Halike].
  apply capped_app in Hcapped.
  destruct run as [|a [|b [|c [|d run]]]]; simpl; try lia.
  exfalso. destruct Hcapped as [Hlead _]. revert Hlead.
  cbn [app lead]. unfold str_eqb.
  rewrite !bool_decide_eq_true_2; [lia| | |]; apply Halike; set_solver.
Qed.

End Repetition.

(** X12. The text that [clean_text_for_summarization] returns is made of
    words separated by single spaces, and no word stands in it more than
    three times in a row, letter case aside. *)
Theorem cleaned_text_repetitions `{Unicode} (text : pystr) :
  let cleaned := clean_text_for_summarization text in
  join (s " ") (Py.split cleaned) = cleaned
  /\ forall run, run_of_alike (Py.split cleaned) run -> (length run <= 3)%nat.
Proof.
  unfold clean_text_for_summarization. cbv zeta.
  match goal with
  | |- context [drop_repeats (Py.split ?x) [] 0] => set (noiseless := x)
  end.
  assert (Hwords : Py.split (join (s " ") (drop_repeats (Py.split noiseless) [] 0))
                   = drop_repeats (Py.split noiseless) [] 0).
  { apply split_join, drop_repeats_Forall, split_words. }
  rewrite Hwords. split; [done|].
  intros run. apply capped_runs.
  by apply (drop_repeats_capped (Py.split noiseless) [] 0).
Qed.

(** ** The score of a sentence *)

Section Score.
Context `{Unicode}.

Lemma boosts_bound (lowered : pystr) (indicators : list (pystr * Z)) :
  Forall (fun ib => 0 <= ib.2) indicators ->
  forall score,
    score <= foldl (fun score ib => if contains lowered (fst ib) then score + snd ib
                                    else score) score indicators
          <= score + foldr Z.add 0 (indicators.*2).
Proof.
  induction 1 as [|ib indicators Hib _ IH]; intros score; [simpl; lia|].
  rewrite fmap_cons. cbn [foldl foldr].
  destruct (contains lowered ib.1).
  - specialize (IH (score + ib.2)). lia.
  - specialize (IH score). lia.
Qed.

End Score.

(** X13. The score of a sentence is at least the number of its words, and
    at most 145 more: 132 for all the indicator words, 8 for a number and 5
    for a date. *)
Theorem score_bounds `{Unicode} (sentence : pystr) :
  all_boosts = 145
  /\ len (Py.split sentence) <= score_sentence_importance sentence
     <= len (Py.split sentence) + all_boosts.
Proof.
  split; [done|]. unfold score_sentence_importance, all_boosts.
  pose proof (boosts_bound (lower sentence) importance_indicators) as Hboosts.
  specialize (Hboosts ltac:(apply (bool_decide_unpack _); by vm_compute)
                (len (Py.split sentence))).
  cbv zeta. destruct (Re.search no_flags number_re sentence),
    (Re.search no_flags date_re sentence); lia.
Qed.

(** ** Key points *)

Section KeyPoints.
Context `{Unicode}.

(** [l[:n]] is a prefix of [l], whatever the sign of [n]. *)
Lemma slice_to_prefix {A} (l : list A) (n : Z) : exists k, slice_to l n = take k l.
Proof.
  unfold slice_to, slice. pose proof (len_nonneg l).
  unfold slice_index at 1. simpl (0 <? 0). cbv iota.
  rewrite Z.min_l by done. simpl (Z.to_nat 0). rewrite drop_0. by eexists.
Qed.

Lemma by_importance_perm (sentences : list pystr) : by_importance sentences ≡ₚ sentences.
Proof.
  unfold by_importance. rewrite sort_desc_perm, <- list_fmap_compose.
  by rewrite list_fmap_id.
Qed.

Lemma StronglySorted_fmap_on {A B : Type} (R : relation A) (R' : relation B)
    (Q : A -> Prop) (f : A -> B) (l : list A) :
  (forall p q, Q p -> Q q -> R p q -> R' (f p) (f q)) ->
  Forall Q l -> StronglySorted R l -> StronglySorted R' (map f l).
Proof.
  intros HR HQ. induction 1 as [|p l Hl IH Hp]; [constructor|].
  apply Forall_cons in HQ as [HQp HQl]. cbn [map].
  constructor; [by apply IH|].
  apply Forall_map, Forall_forall. intros q Hq.
  rewrite Forall_forall in Hp, HQl. apply HR; auto.
Qed.

Lemma by_importance_sorted (sentences : list pystr) :
  StronglySorted (fun a b => score_sentence_importance b <= score_sentence_importance a)
                 (by_importance sentences).
Proof.
  unfold by_importance.
  set (scored := map (fun sentence => (score_sentence_importance sentence, sentence))
                     sentences).
  apply (StronglySorted_fmap_on (fun p q => q.1 <= p.1) _
           (fun p => p.1 = score_sentence_importance p.2)).
  - intros p q Hp Hq Hle. by rewrite <- Hp, <- Hq.
  - rewrite sort_desc_perm. unfold scored. apply Forall_map, Forall_forall. done.
  - apply desc_sorted_strongly, sort_desc_sorted.
Qed.

Lemma long_sentences_spec (text : pystr) (min_chars min_words : Z) (sentence : pystr) :
  sentence ∈ long_sentences text min_chars min_words ->
  min_chars < len sentence /\ min_words < len (Py.split sentence)
  /\ forall c, c ∈ sentence -> c ∉ s ".!?".
Proof.
  unfold long_sentences. intros [Hin Hlong]%list_elem_of_In%filter_In.
  apply andb_true_iff in Hlong as [Hchars%gtb_true Hwords%gtb_true].
  split; [done|]. split; [done|].
  apply list_elem_of_In, list_elem_of_fmap in Hin as (piece & -> & Hpiece).
  intros c Hc%elem_of_strip. by eapply sentence_has_no_terminator.
Qed.

End KeyPoints.

(** X14. [extract_key_points] and [generate_key_points] return the same
    list: at most [num_points] sentences when [num_points] is not negative,
    in the order of decreasing score; each of them has more than 30
    characters and more than 5 words, and holds none of [.], [!] and [?]. *)
Theorem key_points_are_long_sentences `{Unicode} (text : pystr) (num_points : Z) :
  let points := extract_key_points text num_points in
  generate_key_points text num_points = points
  /\ (0 <= num_points -> len points <= num_points)
  /\ StronglySorted (fun a b => score_sentence_importance b <= score_sentence_importance a)
                    points
  /\ Forall (fun point => 30 < len point /\ 5 < len (Py.split point)
                          /\ forall c, c ∈ point -> c ∉ s ".!?") points.
Proof.
  unfold extract_key_points, generate_key_points. cbv zeta.
  split; [done|]. split; [apply len_slice_to_le|].
  destruct (slice_to_prefix (by_importance (long_sentences text 30 5)) num_points)
    as [k ->].
  split.
  - apply StronglySorted_take, by_importance_sorted.
  - apply Forall_take. rewrite by_importance_perm. apply Forall_forall.
    intros point. apply long_sentences_spec.
Qed.

(** ** The summary for [max_length = 400] *)

Section Summary400.
Context `{Unicode}.

Lemma total_len_nonneg (l : list pystr) : 0 <= total_len l.
Proof.
  induction l as [|x l IH]; simpl; [done|]. pose proof (len_nonneg x). lia.
Qed.

Lemma total_len_take (k : nat) (l : list pystr) : total_len (take k l) <= total_len l.
Proof.
  revert k. induction l as [|x l IH]; intros [|k]; simpl; try lia.
  - pose proof (total_len_nonneg l). pose proof (len_nonneg x). lia.
  - specialize (IH k). lia.
Qed.

Lemma len_join (sep : pystr) (l : list pystr) :
  len (join sep l) = total_len l + len sep * Z.max 0 (len l - 1).
Proof.
  induction l as [|x l IH]; [unfold len; simpl; lia|].
  destruct l as [|y l].
  - cbn [join total_len foldr]. unfold len at 4. simpl length.
    change (Z.max 0 (Z.of_nat 1 - 1)) with 0. lia.
  - change (join sep (x :: y :: l)) with (x ++ sep ++ join sep (y :: l)).
    rewrite !len_app, IH. cbn [total_len foldr]. rewrite !len_cons.
    pose proof (len_nonneg l). rewrite !Z.max_r by lia. nia.
Qed.

(** 400 has a double, and 400 * 0.7 is the double 280. *)
Lemma threshold_400 :
  exists fm, float_of_int 400 = Some fm
             /\ forall n, int_gt_float n (SFmul prec emax fm float_0_7) = (280 <? n).
Proof.
  eexists. split; [by vm_compute|]. intros n.
  match goal with
  | |- int_gt_float n ?f = _ =>
      let f' := eval vm_compute in f in change f with f'
  end.
  cbn [int_gt_float]. change (0 <=? -44) with false. cbv iota.
  change (2 ^ (- (-44))) with 17592186044416.
  destruct (Z.ltb_spec 280 n), (Z.ltb_spec 4925812092436480 (n * 17592186044416)); lia.
Qed.

(** The loop that chooses the sentences, for a threshold that is a whole
    number: what it has counted is the length of what it has chosen, and
    stays within the threshold. *)
Lemma take_sentences_spec (threshold : spec_float) (bound : Z) (sentences : list pystr) :
  (forall n, int_gt_float n threshold = (bound <? n)) ->
  forall current_length,
    current_length <= bound ->
    let picked := take_sentences threshold sentences current_length in
    picked.2 = current_length + total_len picked.1
    /\ picked.2 <= bound
    /\ forall sentence, sentence ∈ picked.1 -> sentence ∈ sentences.
Proof.
  intros Hthreshold.
  induction sentences as [|sentence sentences IH]; intros current_length Hcur;
    cbn [take_sentences].
  - simpl. split; [lia|]. split; [done|]. by intros ? ?%elem_of_nil.
  - rewrite Hthreshold. destruct (Z.ltb_spec bound (current_length + len sentence)).
    + simpl. split; [lia|]. split; [done|]. by intros ? ?%elem_of_nil.
    + specialize (IH (current_length + len sentence) ltac:(done)).
      destruct (take_sentences threshold sentences (current_length + len sentence))
        as [chosen total].
      simpl in *. destruct IH as (Htotal & Hbound & Hin).
      split; [lia|]. split; [done|].
      intros x [->|?]%elem_of_cons; [by left|right; auto].
Qed.

Lemma facts_that_fit_spec (facts : list pystr) (available_space : Z) :
  forall facts_length,
    facts_that_fit facts facts_length available_space <> [] ->
    facts_length + total_len (facts_that_fit facts facts_length available_space)
    < available_space.
Proof.
  induction facts as [|fact facts IH]; intros facts_length; cbn [facts_that_fit]; [done|].
  destruct (Z.ltb_spec (facts_length + len fact) available_space) as [Hfits|Hnot].
  - intros _. cbn [total_len foldr].
    destruct (facts_that_fit facts (facts_length + len fact) available_space)
      as [|f fs] eqn:Hrest.
    + simpl. lia.
    + specialize (IH (facts_length + len fact)). rewrite Hrest in IH.
      specialize (IH ltac:(done)). cbn [total_len foldr] in *. lia.
  - apply IH.
Qed.

(** The facts appended by the fallback take less than the space left. *)
Lemma len_fallback_facts_text (text : pystr) (max_length current_length : Z) :
  len (fallback_facts_text text max_length current_length)
  <= Z.max 0 (max_length - current_length - 7).
Proof.
  unfold fallback_facts_text.
  destruct (nonempty (extract_facts_and_figures text)); [|rewrite len_nil; lia].
  set (fitting := facts_that_fit _ 0 _).
  destruct (nonempty fitting) eqn:Hfit; [|rewrite len_nil; lia].
  assert (fitting <> []) as Hne by (by destruct fitting).
  pose proof (facts_that_fit_spec _ _ 0 Hne) as Hspace. fold fitting in Hspace.
  rewrite len_app, len_join.
  change (len (s " | FACTS: ")) with 10. change (len (s "; ")) with 2.
  pose proof (total_len_take 3 fitting).
  assert (len (take 3 fitting) <= 3) by (unfold len; rewrite length_take; lia).
  lia.
Qed.

Lemma total_len_long (sentences : list pystr) (min_chars : Z) :
  Forall (fun sentence => min_chars < len sentence) sentences ->
  (min_chars + 1) * len sentences <= total_len sentences.
Proof.
  induction 1 as [|x l Hx _ IH]; [simpl; unfold len; simpl; lia|].
  rewrite len_cons. cbn [total_len foldr]. fold (total_len l). lia.
Qed.

Lemma fallback_400 (text : pystr) :
  exists r, _comprehensive_fallback_summary text 400 = Some r /\ len r <= 418.
Proof.
  unfold _comprehensive_fallback_summary.
  destruct (long_sentences text 20 4) as [|first others] eqn:Hsent.
  { eexists. split; [done|]. by vm_compute. }
  destruct threshold_400 as (fm & -> & Hthreshold).
  pose proof (take_sentences_spec _ 280 (by_importance (first :: others)) Hthreshold 0
                ltac:(lia)) as Hpicked.
  destruct (take_sentences _ _ 0) as [chosen current_length].
  cbv zeta in Hpicked. cbn [fst snd] in Hpicked.
  destruct Hpicked as (Htotal & Hbound & Hin).
  destruct chosen as [|sentence chosen]; cbn [nonempty]; cbv iota.
  { eexists. split; [done|]. pose proof (len_truncated first 400). lia. }
  eexists. split; [done|].
  set (summary_sentences := sentence :: chosen) in *.
  rewrite !len_app, len_join. change (len (s ". ")) with 2. change (len (s ".")) with 1.
  pose proof (len_fallback_facts_text text 400 current_length) as Hfacts.
  assert (Hlong : Forall (fun x => 20 < len x) summary_sentences).
  { apply Forall_forall. intros x Hx%Hin. rewrite by_importance_perm, <- Hsent in Hx.
    by apply long_sentences_spec in Hx as [? _]. }
  apply total_len_long in Hlong.
  assert (0 < len summary_sentences)
    by (unfold summary_sentences; rewrite len_cons; pose proof (len_nonneg chosen); lia).
  lia.
Qed.

End Summary400.

Lemma generate_summary_400 `{Unicode} (self : TextSummarizer) (text : pystr)
    (min_length : Z) :
  exists r, generate_summary self text 400 min_length = Some r /\ len r <= 418.
Proof.
  assert (Hcombined : forall summaries key_points facts,
            len (create_comprehensive_summary summaries key_points facts 400) <= 418).
  { intros. pose proof (create_comprehensive_summary_budget summaries key_points facts 400).
    lia. }
  unfold generate_summary.
  destruct (summarizer self) as [model|]; [|apply fallback_400].
  destruct (len (Py.split (clean_text_for_summarization text)) <? 50).
  { eexists. split; [done|]. by vm_compute. }
  destruct (len (clean_text_for_summarization text) >? 900).
  - destruct (summarize_chunks _ _ _ _ _) as [chunk_summaries factual_content].
    destruct (nonempty chunk_summaries); [|apply fallback_400].
    eexists. split; [done|]. apply Hcombined.
  - destruct (model _ _ _) as [summary_text|]; [|apply fallback_400].
    eexists. split; [done|]. apply Hcombined.
Qed.

(** X15. With [max_length = 400], the value that [main.py] passes,
    [generate_summary] always returns a string, of at most 418 characters,
    whether the model is loaded or not and whatever it answers.  Only the
    fallback's joined sentences with facts can pass 400, by at most 18: the
    fallback does not count the [". "] between its sentences. *)
Theorem summary_within_418 `{Unicode} (self : TextSummarizer) (text : pystr)
    (min_length : Z) :
  exists r, generate_summary self text 400 min_length = Some r
            /\ len r <= 418
            /\ (400 < len r -> fallback_sentences_return text 400 r).
Proof.
  assert (Hfallback : forall r, _comprehensive_fallback_summary text 400 = Some r ->
                                400 < len r -> fallback_sentences_return text 400 r).
  { intros r Hr Hover.
    destruct (fallback_cases text 400 r ltac:(lia) Hr) as [?|[->|?]];
      [lia|by vm_compute in Hover|done]. }
  assert (Hcombined : forall summaries key_points facts,
            400 < len (create_comprehensive_summary summaries key_points facts 400) ->
            fallback_sentences_return text 400
              (create_comprehensive_summary summaries key_points facts 400)).
  { intros summaries key_points facts Hover.
    pose proof (create_comprehensive_summary_budget summaries key_points facts 400). lia. }
  destruct (generate_summary_400 self text min_length) as (r & Hr & Hlen).
  exists r. split; [done|]. split; [done|].
  revert Hr. unfold generate_summary.
  destruct (summarizer self) as [model|]; [|apply Hfallback].
  destruct (len (Py.split (clean_text_for_summarization text)) <? 50).
  { intros [= <-] Hover. by vm_compute in Hover. }
  destruct (len (clean_text_for_summarization text) >? 900).
  - destruct (summarize_chunks _ _ _ _ _) as [chunk_summaries factual_content].
    destruct (nonempty chunk_summaries); [|apply Hfallback].
    intros [= <-]. apply Hcombined.
  - destruct (model _ _ _) as [summary_text|]; [|apply Hfallback].
    intros [= <-]. apply Hcombined.
Qed.

(** ** The analysis of a document *)

(** X16. Whenever [analyze_document] answers with a response: the file
    name ends in [.pdf] (in any letter case), the text is not blank, the
    word count is the number of words of the text and at least 1, there are
    at most 50 mathematical expressions, the summary has at most 418
    characters, and without a loaded tagger the highlighted text is the
    text itself. *)
Theorem analysis_response_invariants `{Unicode} (app : processors)
    (filename : pystr) (content : list Byte.byte) (r : AnalysisResponse) :
  analyze_document app filename content = inr r ->
  is_pdf filename = true
  /\ strip (text_content r) <> []
  /\ word_count r = len (Py.split (text_content r)) /\ 1 <= word_count r
  /\ len (math_expressions r) <= 50
  /\ len (summary r) <= 418
  /\ (ner_processor app = None
      \/ (exists ner, ner_processor app = Some ner /\ nlp ner = None) ->
      highlighted_text r = text_content r).
Proof.
  unfold analyze_document.
  destruct (is_pdf filename); cbn [negb]; cbv iota; [|done].
  destruct (pdf_extractor app) as [extract_text|]; [|done].
  destruct (extract_text content) as [e|[text pages]]; [done|].
  destruct (strip text) as [|c stripped] eqn:Hstrip; cbn [nonempty negb]; cbv iota; [done|].
  match goal with
  | |- (let '(_, _) := ?found in _) = _ -> _ => set (ner_result := found)
  end.
  assert (Hplain : ner_processor app = None
                   \/ (exists ner, ner_processor app = Some ner /\ nlp ner = None) ->
                   ner_result.2 = text).
  { unfold ner_result. intros [Hnone|(ner & Hsome & Hnlp)].
    - by rewrite Hnone.
    - rewrite Hsome. cbn [snd]. unfold highlight_entities_in_text. by rewrite Hnlp. }
  destruct ner_result as [entities highlighted]. cbn [snd] in Hplain.
  intros [= <-]. cbn [text_content word_count math_expressions summary highlighted_text].
  split; [done|]. split; [by rewrite Hstrip|]. split; [done|]. split; [|split; [|split]].
  - assert (Py.split text <> []) as Hwords by (apply split_nonempty; by rewrite Hstrip).
    destruct (Py.split text); [done|]. rewrite len_cons.
    pose proof (len_nonneg l). lia.
  - destruct (math_extractor app); [|by vm_compute].
    unfold extract_expressions, len. rewrite length_take. lia.
  - destruct (summarizer_ app) as [summarizer|]; [|by vm_compute].
    destruct (generate_summary_400 summarizer text 150) as (r & -> & Hlen). done.
  - exact Hplain.
Qed.

Lemma analysis_response_invariants_witness :
  exists r, analyze_document two_word_reader (s "Paper.PDF") [] = inr r
            /\ 1 <= word_count r /\ highlighted_text r = text_content r.
Proof.
  destruct (analyze_document two_word_reader (s "Paper.PDF") []) as [e|r] eqn:Hrun;
    [by vm_compute in Hrun|].
  exists r. split; [done|].
  destruct (analysis_response_invariants _ _ _ _ Hrun)
    as (_ & _ & _ & Hcount & _ & _ & Hplain).
  split; [done|]. apply Hplain. by left.
Defined.

(** ** Entities that differ in letter case *)

Section CaseVariants.
Context `{Unicode}.

Lemma NoDup_fmap_snoc {A B : Type} (f : A -> B) (l : list A) (x : A) :
  NoDup (f <$> l) -> (forall y, y ∈ l -> f y <> f x) -> NoDup (f <$> (l ++ [x])).
Proof.
  intros Hl Hx. rewrite fmap_app. apply NoDup_app. split; [done|]. split.
  - intros b (y & Hb & Hy)%list_elem_of_fmap Hbx. simpl in Hbx.
    apply list_elem_of_singleton in Hbx. apply (Hx y Hy). congruence.
  - apply NoDup_singleton.
Qed.

(** An entity that is the first of its kind stays so when more entities
    follow. *)
Lemma first_alike_app (ents more : list ent) (label x : pystr) :
  first_alike ents label x -> first_alike (ents ++ more) label x.
Proof.
  intros (pre & e & post & -> & Hvalid & Hlabel & Hx & Hfirst).
  exists pre, e, (post ++ more). by rewrite <- app_assoc.
Qed.

(** The loop over the entities, with [done] already read: [seen] holds the
    key of every valid entity read so far, so a string enters a list only
    when no entity alike to it was read before, and no list gets two
    strings that are alike. *)
Lemma collect_first_alike (todo : list ent) :
  forall (done : list ent) (seen : gset (pystr * pystr)) (d : dict (list pystr)),
    Forall (fun kv => NoDup (lower <$> kv.2)
                      /\ forall x, x ∈ kv.2 ->
                           (lower x, kv.1) ∈ seen /\ first_alike done kv.1 x) d ->
    (forall e, e ∈ done -> is_valid_entity (ent_text e) (label_ e) = true ->
               (lower (clean_entity (ent_text e)), label_ e) ∈ seen) ->
    Forall (fun kv => NoDup (lower <$> kv.2)
                      /\ forall x, x ∈ kv.2 -> first_alike (done ++ todo) kv.1 x)
           (collect todo seen d).
Proof.
  induction todo as [|e todo IH]; intros done seen d Hd Hseen_all; cbn [collect].
  { rewrite app_nil_r. eapply Forall_impl; [exact Hd|].
    intros kv [Hnodup Hin]. split; [done|]. intros x Hx. by apply Hin. }
  replace (done ++ e :: todo) with ((done ++ [e]) ++ todo) by by rewrite <- app_assoc.
  assert (Hlater : forall seen',
            seen ⊆ seen' ->
            Forall (fun kv => NoDup (lower <$> kv.2)
                              /\ forall x, x ∈ kv.2 ->
                                   (lower x, kv.1) ∈ seen'
                                   /\ first_alike (done ++ [e]) kv.1 x) d).
  { intros seen' Hsub. eapply Forall_impl; [exact Hd|].
    intros kv [Hnodup Hin]. split; [done|]. intros x Hx.
    destruct (Hin x Hx) as [Hkey Hfirst]. split; [by apply Hsub|].
    by apply first_alike_app. }
  destruct (is_valid_entity (ent_text e) (label_ e)) eqn:Hvalid.
  2:{ apply IH; [by apply Hlater|].
      intros e' [He'| ->%list_elem_of_singleton]%elem_of_app Hv; [auto|congruence]. }
  case_bool_decide as Hseen.
  { apply IH; [by apply Hlater|].
    intros e' [He'| ->%list_elem_of_singleton]%elem_of_app Hv; [auto|done]. }
  set (cleaned := clean_entity (ent_text e)) in *.
  set (seen' := {[ (lower cleaned, label_ e) ]} ∪ seen).
  assert (Hsub : seen ⊆ seen') by (intros key Hkey; by apply elem_of_union_r).
  specialize (Hlater seen' Hsub).
  apply IH.
  2:{ intros e' [He'| ->%list_elem_of_singleton]%elem_of_app Hv.
      - apply Hsub. auto.
      - by apply elem_of_union_l, elem_of_singleton. }
  set (d1 := match dict_get d (label_ e) with
             | Some _ => d
             | None => dict_set d (label_ e) []
             end).
  assert (Hd1 : Forall (fun kv => NoDup (lower <$> kv.2)
                                  /\ forall x, x ∈ kv.2 ->
                                       (lower x, kv.1) ∈ seen'
                                       /\ first_alike (done ++ [e]) kv.1 x) d1).
  { unfold d1. destruct (dict_get d (label_ e)); [done|].
    apply dict_set_Forall; [done|]. split; [constructor|]. by intros x ?%elem_of_nil. }
  assert (Hold : NoDup (lower <$> default [] (dict_get d1 (label_ e)))
                 /\ forall x, x ∈ default [] (dict_get d1 (label_ e)) ->
                              (lower x, label_ e) ∈ seen
                              /\ first_alike (done ++ [e]) (label_ e) x).
  { destruct (dict_get d (label_ e)) as [old|] eqn:Hget.
    - unfold d1. rewrite Hget. cbn [from_option id].
      apply dict_get_Some in Hget. rewrite Forall_forall in Hd.
      destruct (Hd _ Hget) as [Hnodup Hin]. split; [done|].
      intros x Hx. destruct (Hin x Hx) as [Hkey Hfirst].
      split; [done|]. by apply first_alike_app.
    - unfold d1. rewrite dict_get_set, (proj2 (str_eqb_eq _ _) eq_refl).
      cbn [from_option id]. split; [constructor|]. by intros x ?%elem_of_nil. }
  destruct Hold as [Hnodup Hin].
  apply dict_set_Forall; [done|]. cbn [fst snd]. split.
  - apply NoDup_fmap_snoc; [done|].
    intros y Hy Heq. apply Hseen. rewrite <- Heq. by apply Hin.
  - intros x [Hx| ->%list_elem_of_singleton]%elem_of_app.
    + destruct (Hin x Hx) as [Hkey Hfirst]. split; [by apply Hsub|done].
    + split; [by apply elem_of_union_l, elem_of_singleton|].
      exists done, e, []. split; [done|]. split; [done|]. split; [done|]. split; [done|].
      intros e' He' Hv Hlabel Heq. apply Hseen.
      fold cleaned in Heq. rewrite <- Heq, <- Hlabel. by apply Hseen_all.
Qed.

Lemma sorted_top20_case_distinct (l : list pystr) :
  NoDup (lower <$> l) -> NoDup (lower <$> sorted_top20 l).
Proof.
  intros Hl. unfold sorted_top20. rewrite fmap_take.
  eapply sublist_NoDup; [|apply sublist_take].
  rewrite sorted_strs_perm, elements_list_to_set; [done|]. by eapply NoDup_fmap_1.
Qed.

End CaseVariants.

(** X17. No list of the dictionary returned by [extract_entities] holds two
    strings that differ only in the case of their letters.  When the tagger
    answers, every string of a list comes from the first of the valid
    entities of its label that are alike: it is the cleaned text of a valid
    entity before which no valid entity of the same label has a cleaned
    text equal to it up to letter case.  So of ["Paris"] and ["PARIS"], in
    this order, ["Paris"] is the one returned. *)
Theorem entity_lists_without_case_variants `{Unicode} (self : NERProcessor)
    (text : pystr) (k : pystr) (l : list pystr) :
  (k, l) ∈ extract_entities self text ->
  NoDup (lower <$> l)
  /\ forall tagger ents,
       nlp self = Some tagger -> tagger text = inr ents ->
       forall x, x ∈ l ->
         exists label, readable_label label = k /\ first_alike ents label x.
Proof.
  unfold extract_entities.
  destruct (nlp self) as [tagger|].
  2:{ intros [= _ ->]%list_elem_of_singleton. split; [apply NoDup_singleton|done]. }
  destruct (tagger text) as [e|ents] eqn:Htag.
  { intros [= _ ->]%list_elem_of_singleton. split; [apply NoDup_singleton|].
    intros tagger' ents' [= <-]. by rewrite Htag. }
  intros Hin.
  eapply (proj1 (Forall_forall
            (fun kv => NoDup (lower <$> kv.2)
                       /\ forall x, x ∈ kv.2 ->
                            exists label, readable_label label = kv.1
                                          /\ first_alike ents label x) _)) in Hin.
  - destruct Hin as [Hnodup Hfirst]. split; [done|].
    intros tagger' ents' [= <-]. rewrite Htag. intros [= <-]. exact Hfirst.
  - apply rename_Forall; [|constructor].
    apply Forall_map.
    eapply Forall_impl;
      [apply (collect_first_alike ents [] ∅ []);
       [constructor|by intros e' ?%elem_of_nil]|].
    intros kv [Hnodup Hfirst]. cbn [fst snd]. split.
    + by apply sorted_top20_case_distinct.
    + intros x Hx%sorted_top20_subseteq. exists kv.1. split; [done|]. by apply Hfirst.
Qed.

Lemma entity_lists_without_case_variants_witness :
  let ents := [ {| start_char := 0; end_char := 5; ent_text := s "Paris"; label_ := s "GPE" |};
                {| start_char := 9; end_char := 14; ent_text := s "PARIS"; label_ := s "GPE" |} ] in
  extract_entities {| nlp := Some variants_tagger |} (s "Paris or PARIS")
  = [(s "Locations", [s "Paris"])]
  /\ NoDup (lower <$> [s "Paris"])
  /\ exists label, readable_label label = s "Locations"
                   /\ first_alike ents label (s "Paris").
Proof.
  intros ents. split; [by vm_compute|].
  destruct (entity_lists_without_case_variants {| nlp := Some variants_tagger |}
              (s "Paris or PARIS") (s "Locations") [s "Paris"]) as [Hnodup Hfirst];
    [vm_compute; by left|].
  split; [done|]. apply (Hfirst variants_tagger ents); [done|done|by left].
Defined.

(** ** Blank texts *)

Section Blank.
Context `{Unicode}.

Lemma strip_nil_spaces (x : pystr) :
  strip x = [] -> Forall (fun c => isspace c = true) x.
Proof.
  unfold strip. intros Hnil.
  destruct (lstrip_spaces x) as (before & Hbefore & Hx).
  destruct (rstrip_spaces (lstrip x)) as (after & Hafter & Hl).
  rewrite Hnil in Hl. rewrite Hx, Hl. by apply Forall_app.
Qed.

Lemma fields_none (ok : char -> bool) (x : pystr) :
  Forall (fun c => ok c = false) x -> fields ok false x = [x].
Proof. induction 1 as [|c x Hc _ IH]; simpl; [done|]. by rewrite Hc, IH. Qed.

Lemma space_is_no_terminator (c : char) :
  isspace c = true -> set_accepts no_flags false (chars ".!?") c = false.
Proof.
  intros Hc. unfold set_accepts. cbn [xorb]. apply not_true_is_false.
  intros (i & Hi & Hmatch)%existsb_exists.
  apply list_elem_of_In, list_elem_of_fmap in Hi as (d & -> & Hd).
  simpl in Hmatch. apply N.eqb_eq in Hmatch as ->.
  assert (Forall (fun d => isspace d = false) (s ".!?")) as Hnone
    by (repeat constructor).
  rewrite Forall_forall in Hnone. specialize (Hnone _ Hd). congruence.
Qed.

Lemma blank_split (text : pystr) :
  strip text = [] -> Re.split no_flags sentence_end text = [text].
Proof.
  intros Hblank%strip_nil_spaces. unfold sentence_end, cls.
  rewrite (split_runs no_flags _ _ (m_set no_flags false _)).
  apply fields_none. eapply Forall_impl; [exact Hblank|].
  intros c. apply space_is_no_terminator.
Qed.

Lemma collapse_blank (text : pystr) :
  strip text = [] -> collapse_spaces text = [] \/ collapse_spaces text = [32%N].
Proof.
  intros Hblank%strip_nil_spaces. unfold collapse_spaces.
  destruct Hblank as [|c x Hc Hx]; [by left|right].
  cbn [collapse_go]. rewrite Hc, collapse_go_true.
  replace (lstrip x) with (@nil char); [done|].
  clear Hc. induction Hx as [|d x Hd _ IH]; simpl; [done|]. by rewrite Hd.
Qed.

Lemma blank_cleaned (text : pystr) :
  strip text = [] -> clean_text_for_summarization text = [].
Proof.
  intros Hblank. unfold clean_text_for_summarization. rewrite sub_ws_collapse.
  destruct (collapse_blank text Hblank) as [-> | ->]; by vm_compute.
Qed.

Lemma blank_long_sentences (text : pystr) (min_chars min_words : Z) :
  strip text = [] -> 0 <= min_chars -> long_sentences text min_chars min_words = [].
Proof.
  intros Hblank Hmin. unfold long_sentences. rewrite blank_split by done.
  cbn [map List.filter]. rewrite Hblank.
  replace (len (@nil char) >? min_chars) with false; [done|].
  symmetry. rewrite Z.gtb_ltb. apply Z.ltb_ge. by rewrite len_nil.
Qed.

End Blank.

(** X18. A text that is empty or all whitespace gives no chunk and no key
    point; the fallback answers that it is unable to generate a summary,
    and so does [generate_summary] without a model; with a model
    [generate_summary] answers that the text is too short. *)
Theorem blank_text_has_no_content `{Unicode} (text : pystr) :
  strip text = [] ->
  (forall max_chunk_length, split_text_into_chunks text max_chunk_length = [])
  /\ (forall num_points, extract_key_points text num_points = [])
  /\ (forall max_length min_length,
        generate_summary {| summarizer := None |} text max_length min_length
        = Some unable_message)
  /\ (forall model max_length min_length,
        generate_summary {| summarizer := Some model |} text max_length min_length
        = Some too_short_message).
Proof.
  intros Hblank. split; [|split; [|split]].
  - intros bound. unfold split_text_into_chunks. rewrite blank_split by done.
    cbn [chunk_loop]. by rewrite Hblank.
  - intros n. unfold extract_key_points. rewrite blank_long_sentences by (done || lia).
    destruct (slice_to_prefix (by_importance []) n) as [k ->]. by destruct k.
  - intros max_length min_length. unfold generate_summary. cbn [summarizer].
    unfold _comprehensive_fallback_summary.
    by rewrite blank_long_sentences by (done || lia).
  - intros model max_length min_length. unfold generate_summary. cbn [summarizer].
    by rewrite blank_cleaned.
Qed.

Lemma blank_text_has_no_content_witness :
  split_text_into_chunks [32%N; 10%N; 9%N] 800 = []
  /\ generate_summary no_model [32%N; 10%N; 9%N] 400 150 = Some unable_message.
Proof.
  destruct (blank_text_has_no_content [32%N; 10%N; 9%N]) as (Hchunks & _ & Hnone & _);
    [by vm_compute|].
  split; [apply Hchunks|apply Hnone].
Defined.
